(** * Knowledge-graph builder: a shallow embedding of [src/graph/builder.py]

    The module embeds [GraphBuilder]: entity insertion with merge-on-repeat,
    text-resolved relationship insertion, windowed co-occurrence linking,
    centrality-ranked pruning, top-K ranking and the scalar-only attribute
    transform used before GraphML export.

    Modelling conventions.
    - The [networkx.DiGraph] held in [self.graph] is a pair of
      insertion-ordered tables: nodes keyed by node id, edges keyed by the
      (source id, target id) pair.
    - Python [float] values (confidence, weight, centrality) are exact
      rationals [Q]; the running mean of the confidence, whose value
      depends on rounding, is stated a second time on binary64 numbers
      in module [Binary64].
    - Python [int] values are [Z].
    - A Python [str] is a [string]; each character stands for one code
      point below 256.
    - The order in which Python iterates over a [set] of strings depends
      on the interpreter's string hashes; it is a parameter
      ([set_order]) of everything that prunes.
    - A dictionary access [d['k']] on an absent key raises [KeyError]; the
      builder methods are computations over the graph that either return
      or raise, the graph mutated so far being kept in both cases. *)

From Stdlib Require Import List String Ascii ZArith QArith Bool Lia.
From Stdlib Require Import Permutation Sorted.
From Stdlib Require Import PrimFloat Uint63.
Import ListNotations.

Open Scope string_scope.
Open Scope Z_scope.

(** ** Data model *)

(** An extracted entity is a JSON object; each of the three keys the
    builder reads may be absent. *)
Record entity : Type := mk_entity {
  e_text : option string;
  e_label : option string;
  e_confidence : option Q
}.

(** One extraction file after [json.load]. *)
Record document : Type := mk_document {
  doc_id : option string;
  entities : list entity
}.

(** Attributes [add_entity] stores on a node. *)
Record node_data : Type := mk_node {
  text : string;
  label : string;
  confidence : Q;
  sources : list string;
  count : Z
}.

(** Attributes [add_relationship] stores on an edge. *)
Record edge_data : Type := mk_edge {
  rel_type : string;
  weight : Q;
  ecount : Z
}.

Definition node_table := list (string * node_data).
Definition edge_key := (string * string)%type.
Definition edge_table := list (edge_key * edge_data).

Record graph : Type := mk_graph {
  nodes : node_table;
  edges : edge_table
}.

Definition empty_graph : graph := mk_graph [] [].

(** The configuration read in [__init__]. *)
Record config : Type := mk_config {
  min_confidence : Q;
  max_nodes : Z;
  merge_threshold : Q
}.

Definition default_config : config :=
  mk_config (3 # 10)%Q 1000 (85 # 100)%Q.

(** ** Exceptions and the builder monad *)

Inductive exn : Type :=
| KeyError (key : string).

Inductive result (A : Type) : Type :=
| Ok (a : A)
| Raise (e : exn).
Arguments Ok {A} a.
Arguments Raise {A} e.

(** A method of the builder: runs on the current graph, leaves a graph
    behind and either returns a value or raises. *)
Definition M (A : Type) : Type := graph -> result A * graph.

Definition ret {A} (a : A) : M A := fun g => (Ok a, g).
Definition raise {A} (e : exn) : M A := fun g => (Raise e, g).
Definition bind {A B} (m : M A) (k : A -> M B) : M B :=
  fun g => match m g with
           | (Ok a, g') => k a g'
           | (Raise e, g') => (Raise e, g')
           end.
Definition get_graph : M graph := fun g => (Ok g, g).
Definition modify (f : graph -> graph) : M unit := fun g => (Ok tt, f g).

Declare Scope builder_scope.
Delimit Scope builder_scope with builder.
Notation "x <- m ;; k" := (bind m (fun x => k))
  (at level 100, m at next level, right associativity) : builder_scope.
Notation "m ;;; k" := (bind m (fun _ => k))
  (at level 100, right associativity) : builder_scope.

(** [d[key]] on a dictionary whose entry may be absent. *)
Definition getitem {A} (key : string) (o : option A) : M A :=
  match o with
  | Some v => ret v
  | None => raise (KeyError key)
  end.

(** [entity.get('confidence', 1.0)] *)
Definition get_confidence (e : entity) : Q :=
  match e_confidence e with
  | Some c => c
  | None => 1%Q
  end.

(** ** Table primitives *)

Definition key_eqb (a b : edge_key) : bool :=
  String.eqb (fst a) (fst b) && String.eqb (snd a) (snd b).

Fixpoint lookup_node (ns : node_table) (k : string) : option node_data :=
  match ns with
  | [] => None
  | (k', d) :: ns' => if String.eqb k' k then Some d else lookup_node ns' k
  end.

Fixpoint update_node (ns : node_table) (k : string)
    (f : node_data -> node_data) : node_table :=
  match ns with
  | [] => []
  | (k', d) :: ns' =>
      if String.eqb k' k then (k', f d) :: ns'
      else (k', d) :: update_node ns' k f
  end.

Fixpoint lookup_edge (es : edge_table) (k : edge_key) : option edge_data :=
  match es with
  | [] => None
  | (k', d) :: es' => if key_eqb k' k then Some d else lookup_edge es' k
  end.

Fixpoint update_edge (es : edge_table) (k : edge_key)
    (f : edge_data -> edge_data) : edge_table :=
  match es with
  | [] => []
  | (k', d) :: es' =>
      if key_eqb k' k then (k', f d) :: es'
      else (k', d) :: update_edge es' k f
  end.

(** [node_id in self.graph] *)
Definition has_node (g : graph) (k : string) : bool :=
  match lookup_node (nodes g) k with Some _ => true | None => false end.

(** [self.graph.has_edge(u, v)] *)
Definition has_edge (g : graph) (u v : string) : bool :=
  match lookup_edge (edges g) (u, v) with Some _ => true | None => false end.

(** [x in l] for a list of strings. *)
Definition mem (x : string) (l : list string) : bool :=
  existsb (String.eqb x) l.

(** Truthiness of [doc_id]: [None] and the empty string are falsy. *)
Definition truthy (d : option string) : option string :=
  match d with
  | Some EmptyString => None
  | other => other
  end.

(** ** [add_entity] *)

Definition node_id_of (t l : string) : string := t ++ "_" ++ l.

Definition merge_node (new_conf : Q) (d : option string) (nd : node_data)
    : node_data :=
  let count' := count nd + 1 in
  let sources' :=
    match truthy d with
    | Some s => if mem s (sources nd) then sources nd else (sources nd ++ [s])%list
    | None => sources nd
    end in
  let old_conf := confidence nd in
  mk_node (text nd) (label nd)
    ((old_conf * inject_Z (count' - 1) + new_conf) / inject_Z count')%Q
    sources' count'.

Definition add_entity (e : entity) (d : option string) : M unit :=
  (t <- getitem "text" (e_text e) ;;
   l <- getitem "label" (e_label e) ;;
   let node_id := node_id_of t l in
   g <- get_graph ;;
   if negb (has_node g node_id) then
     modify (fun g =>
       mk_graph
         (nodes g ++
            [(node_id,
              mk_node t l (get_confidence e)
                (match truthy d with Some s => [s] | None => [] end) 1)])%list
         (edges g))
   else
     modify (fun g =>
       mk_graph (update_node (nodes g) node_id (merge_node (get_confidence e) d))
                (edges g)))%builder.

(** ** [add_relationship] *)

(** [[n for n in self.graph.nodes if self.graph.nodes[n]['text'] == t]] *)
Definition nodes_with_text (g : graph) (t : string) : list string :=
  map fst (filter (fun n => String.eqb (text (snd n)) t) (nodes g)).

Definition add_relationship (source target : string) (rtype : string)
    (w : Q) (g : graph) : graph :=
  let source_nodes := nodes_with_text g source in
  let target_nodes := nodes_with_text g target in
  match source_nodes, target_nodes with
  | source_id :: _, target_id :: _ =>
      if has_edge g source_id target_id then
        mk_graph (nodes g)
          (update_edge (edges g) (source_id, target_id)
             (fun ed => mk_edge (rel_type ed) (weight ed + w)%Q (ecount ed + 1)))
      else
        mk_graph (nodes g)
          (edges g ++ [((source_id, target_id), mk_edge rtype w 1)])%list
  | _, _ => g
  end.

(** ** [_add_cooccurrence_edges] *)

(** [e.get('confidence', 1.0) >= self.min_confidence] *)
Definition passes (cfg : config) (e : entity) : bool :=
  Qle_bool (min_confidence cfg) (get_confidence e).

(** [[e['text'] for e in entities if ... >= self.min_confidence]] *)
Fixpoint entity_texts (cfg : config) (es : list entity) : M (list string) :=
  match es with
  | [] => ret []
  | e :: es' =>
      if passes cfg e then
        (t <- getitem "text" (e_text e) ;;
         ts <- entity_texts cfg es' ;;
         ret (t :: ts))%builder
      else entity_texts cfg es'
  end.

(** [l[a:b]] for [0 <= a <= b]. *)
Definition slice {A} (l : list A) (a b : nat) : list A :=
  firstn (b - a) (skipn a l).

(** [enumerate(l)] *)
Definition enumerate {A} (l : list A) : list (nat * A) :=
  combine (seq 0 (List.length l)) l.

(** The inner loop: [for target in window: if source != target: ...]. *)
Definition link_window (source : string) (window : list string)
    (g : graph) : graph :=
  fold_left
    (fun g target =>
       if negb (String.eqb source target)
       then add_relationship source target "CO_OCCURS" (1 # 2)%Q g
       else g)
    window g.

(** The outer loop over [enumerate(entity_texts)], the window of each
    position being [entity_texts[i+1:i+5]]. *)
Definition link_texts (texts : list string) (g : graph) : graph :=
  fold_left
    (fun g (p : nat * string) =>
       let (i, source) := p in
       link_window source (slice texts (i + 1) (i + 5)) g)
    (enumerate texts) g.

Definition _add_cooccurrence_edges (cfg : config) (es : list entity)
    (d : option string) : M unit :=
  (texts <- entity_texts cfg es ;;
   modify (link_texts texts))%builder.

(** ** Centrality ranking: [nx.degree_centrality] and [sorted] *)

(** [G.degree(n)] of a directed graph: in-degree plus out-degree. *)
Definition degree (g : graph) (n : string) : Z :=
  Z.of_nat (List.length (filter (fun e => String.eqb (fst (fst e)) n) (edges g)))
  + Z.of_nat (List.length (filter (fun e => String.eqb (snd (fst e)) n) (edges g))).

(** [nx.degree_centrality(G)]: every node scores 1 when there is at most
    one node, otherwise its degree times [1 / (len(G) - 1)]; the
    dictionary is filled in node order. *)
Definition degree_centrality (g : graph) : list (string * Q) :=
  if (List.length (nodes g) <=? 1)%nat then
    map (fun n => (fst n, 1%Q)) (nodes g)
  else
    let s := (1 / inject_Z (Z.of_nat (List.length (nodes g)) - 1))%Q in
    map (fun n => (fst n, (inject_Z (degree g (fst n)) * s)%Q)) (nodes g).

(** One insertion step of a stable descending sort: [x] stood before
    every element of [l] in the input, so it goes in front of the first
    element that does not score strictly higher. *)
Fixpoint insert_desc (x : string * Q) (l : list (string * Q))
    : list (string * Q) :=
  match l with
  | [] => [x]
  | y :: l' =>
      if Qle_bool (snd y) (snd x) then x :: y :: l'
      else y :: insert_desc x l'
  end.

(** [sorted(items, key=lambda x: x[1], reverse=True)]: Python's sort is
    stable, and [reverse=True] keeps the input order of equal keys. *)
Definition sorted_desc (items : list (string * Q)) : list (string * Q) :=
  fold_right insert_desc [] items.

(** [l[:m]] for any integer [m]; a negative [m] counts from the end. *)
Definition slice_to {A} (l : list A) (m : Z) : list A :=
  if 0 <=? m then firstn (Z.to_nat m) l
  else firstn (Z.to_nat (Z.of_nat (List.length l) + m)) l.

(** The expression shared by [_prune_graph] and [_get_top_entities]. *)
Definition ranked (g : graph) : list (string * Q) :=
  sorted_desc (degree_centrality g).

(** ** Python sets

    [G.subgraph(nodes)] stores [set(nodes)].  A set of strings is
    iterated in the order of its hash table, which depends on the hashes
    of the strings; Python draws the hash key anew for every process
    unless PYTHONHASHSEED fixes it.  The interpreter is therefore a
    parameter of the model: [set_iter so l] is the order in which the
    running interpreter iterates over [set(l)].  All that is known of it
    is that it lists every element of [l] once. *)
Record set_order : Type := mk_set_order {
  set_iter : list string -> list string;
  set_iter_NoDup : forall l, NoDup (set_iter l);
  set_iter_In : forall l x, In x (set_iter l) <-> In x l
}.

(** Two interpreters: one whose sets keep the order of the list they
    are made from (a repeated element standing at its last occurrence),
    and one whose sets are iterated in the opposite order. *)
Definition insertion_order : set_order :=
  mk_set_order (nodup string_dec)
               (NoDup_nodup string_dec)
               (fun l x => nodup_In string_dec l x).

Definition reverse_order : set_order :=
  mk_set_order (fun l => rev (nodup string_dec l))
               (fun l => NoDup_rev (NoDup_nodup string_dec l))
               (fun l x => iff_trans (iff_sym (in_rev (nodup string_dec l) x))
                                     (nodup_In string_dec l x)).

(** ** [_prune_graph] *)

(** [view._node.items()] for one shown node: [FilterAtlas.__getitem__]. *)
Definition node_of (g : graph) (n : string) : list (string * node_data) :=
  match lookup_node (nodes g) n with
  | Some nd => [(n, nd)]
  | None => []
  end.

(** [G.subgraph(keep).copy()].  [subgraph] keeps [set(n for n in keep if
    n in G)] as the filter of a view ([nbunch_iter], [show_nodes]);
    [copy] adds the nodes of the view in the order [FilterAtlas.__iter__]
    yields them: when the set has fewer than half as many elements as [G]
    has nodes it walks the set, otherwise it walks the nodes of [G] and
    tests each against the set.  Every edge of [G] whose two ends are
    shown is copied; the edges out of one node keep their order. *)
Definition subgraph (so : set_order) (g : graph) (keep : list string)
    : graph :=
  let shown := set_iter so (filter (has_node g) keep) in
  let node_ok := fun n => mem n shown in
  mk_graph
    (if (2 * List.length shown <? List.length (nodes g))%nat
     then flat_map (node_of g) shown
     else filter (fun n => node_ok (fst n)) (nodes g))
    (filter (fun e => node_ok (fst (fst e)) && node_ok (snd (fst e)))
            (edges g)).

Definition nodes_to_keep (cfg : config) (g : graph) : list string :=
  map fst (slice_to (ranked g) (max_nodes cfg)).

Definition _prune_graph (so : set_order) (cfg : config) : M unit :=
  modify (fun g => subgraph so g (nodes_to_keep cfg g)).

(** ** [_get_top_entities] *)

Fixpoint map_M {A B} (f : A -> M B) (l : list A) : M (list B) :=
  match l with
  | [] => ret []
  | x :: l' =>
      (y <- f x ;; ys <- map_M f l' ;; ret (y :: ys))%builder
  end.

Definition _get_top_entities (n : Z) : M (list (string * Q)) :=
  (g <- get_graph ;;
   map_M (fun p : string * Q =>
            nd <- getitem (fst p) (lookup_node (nodes g) (fst p)) ;;
            ret (text nd, snd p))
         (slice_to (ranked g) n))%builder.

(** ** [build_from_extractions] *)

Fixpoint for_each {A} (l : list A) (body : A -> M unit) : M unit :=
  match l with
  | [] => ret tt
  | x :: l' => (body x ;;; for_each l' body)%builder
  end.

(** The body of the inner loop: [add_entity] for a record that passes the
    confidence test, nothing otherwise. *)
Definition ingest_entity (cfg : config) (d : option string) (e : entity)
    : M unit :=
  if passes cfg e then add_entity e d else ret tt.

(** The body of the outer loop for one extraction file, read with
    [json.load]; the keys [entities] and [doc_id] are taken to be
    present, [doc_id] possibly null. *)
Definition process_document (cfg : config) (data : document) : M unit :=
  (for_each (entities data) (ingest_entity cfg (doc_id data)) ;;;
   _add_cooccurrence_edges cfg (entities data) (doc_id data))%builder.

Definition ingest (cfg : config) (files : list document) : M unit :=
  for_each files (process_document cfg).

Definition prune_if_needed (so : set_order) (cfg : config) : M unit :=
  (g <- get_graph ;;
   if Z.of_nat (List.length (nodes g)) >? max_nodes cfg
   then _prune_graph so cfg else ret tt)%builder.

Definition build_from_extractions (so : set_order) (cfg : config)
    (files : list document) : M graph :=
  (ingest cfg files ;;;
   prune_if_needed so cfg ;;;
   get_graph)%builder.

(** ** [_prepare_graph_for_graphml] *)

(** Attribute values as Python sees them; the only list the builder ever
    stores is [sources], a list of document identifiers. *)
Inductive value : Type :=
| VInt (z : Z)
| VFloat (q : Q)
| VStr (s : string)
| VBool (b : bool)
| VList (l : list string)
| VNone.

Definition attrs := list (string * value).

Record attr_graph : Type := mk_attr_graph {
  a_nodes : list (string * attrs);
  a_edges : list (edge_key * attrs)
}.

(** [self.graph.nodes(data=True)] / [self.graph.edges(data=True)]: the
    attribute dictionaries in the key order [add_node] / [add_edge]
    received them. *)
Definition node_attrs (nd : node_data) : attrs :=
  [("text", VStr (text nd)); ("label", VStr (label nd));
   ("confidence", VFloat (confidence nd)); ("sources", VList (sources nd));
   ("count", VInt (count nd))].

Definition edge_attrs (ed : edge_data) : attrs :=
  [("type", VStr (rel_type ed)); ("weight", VFloat (weight ed));
   ("count", VInt (ecount ed))].

(** [G.edges]: the edges are listed node by node, in node order, and for
    each node the edges out of it in the order they were added. *)
Definition edge_list (g : graph) : edge_table :=
  flat_map
    (fun n => filter (fun e => String.eqb (fst (fst e)) (fst n)) (edges g))
    (nodes g).

Definition graph_attrs (g : graph) : attr_graph :=
  mk_attr_graph
    (map (fun n => (fst n, node_attrs (snd n))) (nodes g))
    (map (fun e => (fst e, edge_attrs (snd e))) (edge_list g)).

Definition dquote : ascii := ascii_of_nat 34.

Definition hex_digit (n : nat) : ascii :=
  match get n "0123456789abcdef" with
  | Some c => c
  | None => "0"%char
  end.

(** The escape [\xhh] of one character. *)
Definition hex_escape (c : ascii) : string :=
  let n := nat_of_ascii c in
  String "\"%char (String "x"%char
    (String (hex_digit (n / 16)) (String (hex_digit (n mod 16)) EmptyString))).

Fixpoint contains_char (c : ascii) (s : string) : bool :=
  match s with
  | EmptyString => false
  | String c' s' => Ascii.eqb c c' || contains_char c s'
  end.

Fixpoint join (sep : string) (l : list string) : string :=
  match l with
  | [] => EmptyString
  | [x] => x
  | x :: l' => x ++ sep ++ join sep l'
  end.

(** Python's [str] and [repr] are built-ins.  A character of a [string]
    stands for one code point below 256; which of the code points above
    the ASCII range [repr] writes as they are is decided by Python's
    Unicode tables ([str.isprintable]), taken as given. *)

Section FlatForm.

Variable isprintable : ascii -> bool.

(** [repr] of one character inside a string literal quoted by [q]: the
    quote and the backslash are escaped; tab, newline and carriage
    return are written [\t], [\n], [\r]; the other control characters
    are written [\xhh]; the rest of ASCII is kept; a character above
    ASCII is kept if it is printable and written [\xhh] if not. *)
Definition repr_char (q c : ascii) : string :=
  let n := nat_of_ascii c in
  if Ascii.eqb c q || Ascii.eqb c "\"%char
  then String "\"%char (String c EmptyString)
  else if Nat.eqb n 9 then "\t"
  else if Nat.eqb n 10 then "\n"
  else if Nat.eqb n 13 then "\r"
  else if Nat.ltb n 32 || Nat.eqb n 127 then hex_escape c
  else if Nat.ltb n 127 then String c EmptyString
  else if isprintable c then String c EmptyString
  else hex_escape c.

Fixpoint repr_body (q : ascii) (s : string) : string :=
  match s with
  | EmptyString => EmptyString
  | String c s' => repr_char q c ++ repr_body q s'
  end.

(** The quote [repr] chooses: single, unless the text has a single
    quote and no double quote. *)
Definition quote_of (s : string) : ascii :=
  if contains_char "'"%char s && negb (contains_char dquote s)
  then dquote else "'"%char.

(** [repr(s)] *)
Definition repr_str (s : string) : string :=
  let q := quote_of s in
  String q (repr_body q s ++ String q EmptyString).

(** [str(value)] for a list of strings. *)
Definition str_list (l : list string) : string :=
  "[" ++ join ", " (map repr_str l) ++ "]".

(** The three-way [isinstance] test applied to one attribute value. *)
Definition clean_value (v : value) : value :=
  match v with
  | VList l => VStr (str_list l)
  | VInt _ | VFloat _ | VStr _ | VBool _ => v
  | VNone => VStr "None"
  end.

Definition clean_data (data : attrs) : attrs :=
  map (fun kv => (fst kv, clean_value (snd kv))) data.

Definition clean_graph (a : attr_graph) : attr_graph :=
  mk_attr_graph
    (map (fun n => (fst n, clean_data (snd n))) (a_nodes a))
    (map (fun e => (fst e, clean_data (snd e))) (a_edges a)).

Definition _prepare_graph_for_graphml (g : graph) : attr_graph :=
  clean_graph (graph_attrs g).

End FlatForm.

Definition is_scalar (v : value) : bool :=
  match v with
  | VInt _ | VFloat _ | VStr _ | VBool _ => true
  | VList _ | VNone => false
  end.

(** ** Running a builder method *)

Definition outcome {A} (m : M A) (g : graph) : result A := fst (m g).
Definition exec {A} (m : M A) (g : graph) : graph := snd (m g).

(** ** Graph well-formedness

    What a [DiGraph] guarantees by construction: node ids are the keys of
    a dictionary, and an edge only joins nodes of the graph. *)

Definition keys (g : graph) : list string := map fst (nodes g).

Definition edge_keys (g : graph) : list edge_key := map fst (edges g).

Definition edges_closed (g : graph) : Prop :=
  forall u v, In (u, v) (edge_keys g) -> In u (keys g) /\ In v (keys g).

Definition wf (g : graph) : Prop := NoDup (keys g) /\ edges_closed g.

Definition no_self_loops (g : graph) : Prop :=
  forall u v, In (u, v) (edge_keys g) -> u <> v.

(** ** The confidence update in binary64

    The main model computes with exact rationals.  The one result of the
    builder that depends on rounding is the running mean of the
    confidence; this module states the same statements of [add_entity]
    on IEEE binary64 numbers, as Python evaluates them. *)

Set Warnings "-inexact-float".

Module Binary64.

(** [float(n)] for a count; exact below 2^53. *)
Definition of_count (n : Z) : float := PrimFloat.of_uint63 (Uint63.of_Z n).

(** [(old_conf * (node_data['count'] - 1) + new_conf) / node_data['count']],
    [count] being the count after the increment. *)
Definition merge_confidence (old_conf : float) (count : Z) (new_conf : float)
    : float :=
  ((old_conf * of_count (count - 1) + new_conf) / of_count count)%float.

(** The confidence and count of a node after further calls for its key. *)
Fixpoint merge_all (conf : float) (count : Z) (rest : list float)
    : float * Z :=
  match rest with
  | [] => (conf, count)
  | c :: rest' =>
      merge_all (merge_confidence conf (count + 1) c) (count + 1) rest'
  end.

(** The confidence and count stored for a key that was absent, after
    [add_entity] calls with the given confidences: the first call creates
    the node with count 1, every later one merges. *)
Definition stored_after (cs : list float) : option (float * Z) :=
  match cs with
  | [] => None
  | c :: rest => Some (merge_all c 1 rest)
  end.

End Binary64.

(** ** Statistics: [_count_entity_types] and [_save_statistics] *)

(** [type_counts[l] += 1] on a [defaultdict(int)]: an absent label
    starts from 0; a new key goes to the end of the dictionary. *)
Fixpoint bump (l : string) (counts : list (string * Z)) : list (string * Z) :=
  match counts with
  | [] => [(l, 1)]
  | (k, n) :: rest =>
      if String.eqb k l then (k, n + 1) :: rest
      else (k, n) :: bump l rest
  end.

(** [_count_entity_types]; every node the builder stores has a [label],
    so the default of [data.get('label', 'UNKNOWN')] is never taken. *)
Definition _count_entity_types (g : graph) : list (string * Z) :=
  fold_left (fun counts n => bump (label (snd n)) counts) (nodes g) [].

(** [type_counts[l]] read back from the returned dictionary. *)
Fixpoint type_count (counts : list (string * Z)) (l : string) : option Z :=
  match counts with
  | [] => None
  | (k, n) :: rest => if String.eqb k l then Some n else type_count rest l
  end.

(** [sum(dict(self.graph.degree()).values())] *)
Definition degree_sum (g : graph) : Z :=
  fold_right Z.add 0 (map (fun n => degree g (fst n)) (nodes g)).

(** The ['avg_degree'] entry of [_save_statistics]. *)
Definition avg_degree (g : graph) : Q :=
  match nodes g with
  | [] => 0%Q
  | _ :: _ =>
      (inject_Z (degree_sum g) / inject_Z (Z.of_nat (List.length (nodes g))))%Q
  end.

(** [nx.density(G)] of a directed graph: 0 when there is no edge or at
    most one node, otherwise [m / (n * (n - 1))]. *)
Definition density (g : graph) : Q :=
  let n := Z.of_nat (List.length (nodes g)) in
  let m := Z.of_nat (List.length (edges g)) in
  if (m =? 0) || (n <=? 1) then 0%Q
  else (inject_Z m / inject_Z (n * (n - 1)))%Q.

(** ** [visualize]: the subgraph handed to the renderer *)

Definition visualize_subgraph (so : set_order) (max_nodes : Z) (g : graph)
    : graph :=
  if Z.of_nat (List.length (nodes g)) >? max_nodes then
    subgraph so g (map fst (slice_to (ranked g) max_nodes))
  else g.

(** ** [CombinedExtractor._deduplicate_entities] and [save_extraction]

    Both work on strings through Python built-ins ([str.lower],
    [str.isalnum], [str.rstrip]); the built-ins are taken as given. *)

Section Extraction.

Variable lower : string -> string.
Variable isalnum : ascii -> bool.
Variable isspace : ascii -> bool.

(** [(entity['text'].lower(), entity['label'])] *)
Definition dedup_key (e : entity) : result (string * string) :=
  match e_text e with
  | None => Raise (KeyError "text")
  | Some t =>
      match e_label e with
      | None => Raise (KeyError "label")
      | Some l => Ok (lower t, l)
      end
  end.

(** The loop of [_deduplicate_entities]; [seen] is the set of keys,
    [unique] the list built so far. *)
Fixpoint dedup_loop (seen : list (string * string)) (unique : list entity)
    (es : list entity) : result (list entity) :=
  match es with
  | [] => Ok unique
  | e :: es' =>
      match dedup_key e with
      | Raise ex => Raise ex
      | Ok key =>
          if existsb (key_eqb key) seen then dedup_loop seen unique es'
          else dedup_loop (key :: seen) (unique ++ [e])%list es'
      end
  end.

Definition _deduplicate_entities (es : list entity) : result (list entity) :=
  dedup_loop [] [] es.

Definition string_filter (f : ascii -> bool) : string -> string :=
  fix go (s : string) : string :=
    match s with
    | EmptyString => EmptyString
    | String c s' => if f c then String c (go s') else go s'
    end.

(** [s.rstrip()]: the trailing run of whitespace is dropped. *)
Fixpoint rstrip (s : string) : string :=
  match s with
  | EmptyString => EmptyString
  | String c s' =>
      match rstrip s' with
      | EmptyString => if isspace c then EmptyString else String c EmptyString
      | rest => String c rest
      end
  end.

(** [s.replace(' ', '_')] *)
Fixpoint replace_space (s : string) : string :=
  match s with
  | EmptyString => EmptyString
  | String c s' =>
      String (if Ascii.eqb c " "%char then "_"%char else c) (replace_space s')
  end.

Definition keep_char (c : ascii) : bool :=
  isalnum c || Ascii.eqb c " "%char || Ascii.eqb c "-"%char
  || Ascii.eqb c "_"%char.

(** The two statements computing [safe_id] in [save_extraction] (and
    [safe_title] in [WikipediaIngester.save_article]). *)
Definition safe_id (doc : string) : string :=
  substring 0 100 (replace_space (rstrip (string_filter keep_char doc))).

End Extraction.

(** ** Derived notions used in the statements *)

(** Well-formed and free of self-loops. *)
Definition loop_free_wf (g : graph) : Prop := wf g /\ no_self_loops g.

(** A straight sequence of [add_entity(entity, doc_id)] calls. *)
Definition add_all (calls : list (entity * option string)) : M unit :=
  for_each calls (fun c => add_entity (fst c) (snd c)).

Definition sumQ (l : list Q) : Q := fold_right Qplus 0%Q l.

Definition mean (l : list Q) : Q :=
  (sumQ l / inject_Z (Z.of_nat (List.length l)))%Q.

Definition confs (calls : list (entity * option string)) : list Q :=
  map (fun c => get_confidence (fst c)) calls.

(** Node [k] is present with count [n] and a confidence equal to [c]. *)
Definition stored (g : graph) (k : string) (c : Q) (n : Z) : Prop :=
  exists nd, lookup_node (nodes g) k = Some nd /\
             (confidence nd == c)%Q /\ count nd = n.

Definition for_key (t l : string) (calls : list (entity * option string))
    : Prop :=
  forall c, In c calls -> e_text (fst c) = Some t /\ e_label (fst c) = Some l.

(** An underscore inside a text or a label is what makes the joined node
    key ambiguous. *)
Definition underscore : ascii := "_"%char.

Fixpoint has_underscore (s : string) : bool :=
  match s with
  | EmptyString => false
  | String c s' => Ascii.eqb c underscore || has_underscore s'
  end.

(** The operations that change the graph during a build. *)
Inductive op : Type :=
| AddEntity (e : entity) (d : option string)
| AddRelationship (source target rtype : string) (w : Q)
| Cooccurrence (cfg : config) (es : list entity) (d : option string).

Definition run_op (o : op) : M unit :=
  match o with
  | AddEntity e d => add_entity e d
  | AddRelationship s t r w => modify (add_relationship s t r w)
  | Cooccurrence cfg es d => _add_cooccurrence_edges cfg es d
  end.

Definition run_ops (ops : list op) : M unit := for_each ops run_op.

(** Every direct [add_relationship] call names two different texts. *)
Definition texts_differ (o : op) : Prop :=
  match o with
  | AddRelationship s t _ _ => s <> t
  | _ => True
  end.

(** [x] occurs in the list and [y] occurs somewhere after it. *)
Inductive before {A} (x y : A) : list A -> Prop :=
| before_here l : In y l -> before x y (x :: l)
| before_later h l : before x y l -> before x y (h :: l).

(** The score [nx.degree_centrality] gives to one node. *)
Definition centrality (g : graph) (n : string) : Q :=
  if (List.length (nodes g) <=? 1)%nat then 1%Q
  else (inject_Z (degree g n)
        * (1 / inject_Z (Z.of_nat (List.length (nodes g)) - 1)))%Q.

Definition score_ge (p q : string * Q) : Prop := (snd q <= snd p)%Q.

Definition all_scalar (data : attrs) : Prop :=
  Forall (fun kv => is_scalar (snd kv) = true) data.

(** The edge attributes co-occurrence linking stores on a new edge. *)
Definition co_occurs : edge_data := mk_edge "CO_OCCURS" (1 # 2)%Q 1.

(** Six above-threshold entities with texts A to F, and the graph that
    holds one node for each. *)
Definition six_entities : list entity :=
  map (fun t => mk_entity (Some t) (Some "ORG") (Some (9 # 10)%Q))
      ["A"; "B"; "C"; "D"; "E"; "F"].

Definition six_nodes : graph :=
  exec (add_all (map (fun en => (en, Some "doc1")) six_entities)) empty_graph.

(** One step of recording creation order: a key that is new goes to
    the end, a key already there keeps its place. *)
Definition note_key (ks : list string) (k : string) : list string :=
  if mem k ks then ks else ks ++ [k].

(** Four extraction files that create the nodes B, A, D, C, E in this
    order and link B to A, D to C and A to C; a budget of two nodes. *)
Definition tie_files : list document :=
  let ent := fun t => mk_entity (Some t) (Some "ORG") None in
  [mk_document (Some "doc1") [ent "B"; ent "A"];
   mk_document (Some "doc2") [ent "D"; ent "C"];
   mk_document (Some "doc3") [ent "A"; ent "C"];
   mk_document (Some "doc4") [ent "E"]].

Definition tie_config : config := mk_config (3 # 10)%Q 2 (85 # 100)%Q.

(** ** Notions used for the flat form *)

(** [str.isprintable] on the code points below 256: the printable part
    of ASCII, and the code points from 161 on except the soft hyphen
    (173). *)
Definition latin1_isprintable (c : ascii) : bool :=
  let n := nat_of_ascii c in
  ((32 <=? n) && (n <? 127) || (161 <=? n) && negb (n =? 173))%nat.

(** A character that text can carry as it is: printable ASCII, or
    printable by Python's tables. *)
Definition text_char (isprintable : ascii -> bool) (c : ascii) : bool :=
  let n := nat_of_ascii c in
  ((32 <=? n) && (n <? 127))%nat || isprintable c.

(** Reading a string literal back: the value of a hexadecimal digit, the
    character an escape letter stands for, and the reader of the body of
    a literal up to its closing quote, which returns the text read and
    what follows the quote. *)
Definition unhex (c : ascii) : nat :=
  let n := nat_of_ascii c in
  if (n <? 58)%nat then n - 48 else n - 87.

Definition unescape (e : ascii) : ascii :=
  if Ascii.eqb e "t"%char then ascii_of_nat 9
  else if Ascii.eqb e "n"%char then ascii_of_nat 10
  else if Ascii.eqb e "r"%char then ascii_of_nat 13
  else e.

Definition push (c : ascii) (r : option (string * string))
    : option (string * string) :=
  match r with
  | Some (s, rest) => Some (String c s, rest)
  | None => None
  end.

Fixpoint read_body (q : ascii) (s : string) : option (string * string) :=
  match s with
  | EmptyString => None
  | String c s1 =>
      if Ascii.eqb c q then Some (EmptyString, s1)
      else if Ascii.eqb c "\"%char then
        match s1 with
        | EmptyString => None
        | String e s2 =>
            if Ascii.eqb e "x"%char then
              match s2 with
              | String h (String l s3) =>
                  push (ascii_of_nat (16 * unhex h + unhex l))
                       (read_body q s3)
              | _ => None
              end
            else push (unescape e) (read_body q s2)
        end
      else push c (read_body q s1)
  end.

(** ** Notions used in the further properties *)

(** The operations one extraction file stands for: [add_entity] for
    each record that passes the confidence test, then the linking. *)
Definition doc_ops (cfg : config) (data : document) : list op :=
  (map (fun e => AddEntity e (doc_id data))
       (filter (passes cfg) (entities data))
   ++ [Cooccurrence cfg (entities data) (doc_id data)])%list.

(** The key of a node is the join of its own text and label, and its
    count is positive. *)
Definition key_count_ok (n : string * node_data) : Prop :=
  fst n = node_id_of (text (snd n)) (label (snd n)) /\ 1 <= count (snd n).

(** The [sources] of a node hold no document twice and no empty name. *)
Definition sources_ok (n : string * node_data) : Prop :=
  NoDup (sources (snd n)) /\ ~ In EmptyString (sources (snd n)).

(** What co-occurrence linking stores on an edge after [count]
    observations. *)
Definition cooccur_edge (e : edge_key * edge_data) : Prop :=
  rel_type (snd e) = "CO_OCCURS" /\ 1 <= ecount (snd e) /\
  (weight (snd e) == inject_Z (ecount (snd e)) * (1 # 2))%Q.

(** How many entries [l[:m]] asks for when [l] has [n] of them. *)
Definition slice_count (m : Z) (n : nat) : nat :=
  if 0 <=? m then Z.to_nat m else Z.to_nat (Z.of_nat n + m).

(** A document in which A is linked to B and to C, and D stands apart
    in a second document: A is the most central node, D the least. *)
Definition hub_graph : graph :=
  exec (ingest default_config
          [mk_document (Some "doc1")
             [mk_entity (Some "A") (Some "ORG") None;
              mk_entity (Some "B") (Some "ORG") None;
              mk_entity (Some "C") (Some "ORG") None];
           mk_document (Some "doc2")
             [mk_entity (Some "D") (Some "ORG") None]])
       empty_graph.

(** How many nodes carry the label [l]. *)
Definition label_count (ns : node_table) (l : string) : Z :=
  Z.of_nat (List.length (filter (fun n => String.eqb (label (snd n)) l) ns)).

(** The sum of the entries of a histogram. *)
Definition total (counts : list (string * Z)) : Z :=
  fold_right Z.add 0 (map snd counts).

(** [u -> v] joins the nodes that two different texts, at most four
    places apart in [texts], resolve to in [g]. *)
Definition linked (texts : list string) (g : graph) (u v : string) : Prop :=
  exists i j s t rs rt,
    (i < j <= i + 4)%nat /\
    nth_error texts i = Some s /\ nth_error texts j = Some t /\ s <> t /\
    nodes_with_text g s = u :: rs /\ nodes_with_text g t = v :: rt.

(** The node key [add_entity] files a record under, when the record
    passes the confidence test and has text and label. *)
Definition passing_id (cfg : config) (e : entity) : list string :=
  if passes cfg e then
    match e_text e, e_label e with
    | Some t, Some l => [node_id_of t l]
    | _, _ => []
    end
  else [].

(** The keys of all records of all files that pass the test. *)
Definition passing_ids (cfg : config) (files : list document) : list string :=
  flat_map (fun data => flat_map (passing_id cfg) (entities data)) files.

(** [us] is [es] with some entries left out, the order kept. *)
Inductive subseq {A} : list A -> list A -> Prop :=
| subseq_nil : subseq [] []
| subseq_skip x us es : subseq us es -> subseq us (x :: es)
| subseq_take x us es : subseq us es -> subseq (x :: us) (x :: es).

Definition has_text_and_label (e : entity) : Prop :=
  e_text e <> None /\ e_label e <> None.

(** The deduplication key of a record that has text and label. *)
Definition key_of (lower : string -> string) (e : entity) : string * string :=
  (lower (match e_text e with Some t => t | None => EmptyString end),
   match e_label e with Some l => l | None => EmptyString end).

(** The characters of a string, in order. *)
Fixpoint chars (s : string) : list ascii :=
  match s with
  | EmptyString => []
  | String c s' => c :: chars s'
  end.

(** [nodes[k]['count']], 0 when there is no node [k]. *)
Definition count_of (g : graph) (k : string) : Z :=
  match lookup_node (nodes g) k with
  | Some nd => count nd
  | None => 0
  end.

(** The node key of a record that has text and label. *)
Definition record_id (e : entity) : list string :=
  match e_text e, e_label e with
  | Some t, Some l => [node_id_of t l]
  | _, _ => []
  end.

(** * Properties *)

Open Scope list_scope.

(** ** Tables *)

Lemma lookup_node_none ns k :
  lookup_node ns k = None <-> ~ In k (map fst ns).
Proof.
  induction ns as [|[k' d] ns IH]; simpl.
  - tauto.
  - destruct (String.eqb_spec k' k) as [->|Hne].
    + split; [discriminate | intros H; exfalso; apply H; now left].
    + rewrite IH. split; intros H; [intros [?|?]; congruence | tauto].
Qed.

Lemma lookup_node_in ns k d :
  lookup_node ns k = Some d -> In (k, d) ns.
Proof.
  induction ns as [|[k' d'] ns IH]; simpl; [discriminate|].
  destruct (String.eqb_spec k' k) as [->|Hne].
  - intros [= ->]. now left.
  - intros H. right. auto.
Qed.

Lemma in_lookup_node ns k d :
  NoDup (map fst ns) -> In (k, d) ns -> lookup_node ns k = Some d.
Proof.
  induction ns as [|[k' d'] ns IH]; simpl; [tauto|].
  intros Hnd [Heq|Hin]; inversion Hnd; subst.
  - inversion Heq; subst. now rewrite String.eqb_refl.
  - destruct (String.eqb_spec k' k) as [->|Hne]; [|auto].
    exfalso. apply H1. apply (in_map fst) in Hin. exact Hin.
Qed.

Lemma update_node_keys ns k f :
  map fst (update_node ns k f) = map fst ns.
Proof.
  induction ns as [|[k' d] ns IH]; simpl; [reflexivity|].
  destruct (String.eqb k' k); simpl; congruence.
Qed.

Lemma update_node_length ns k f :
  List.length (update_node ns k f) = List.length ns.
Proof.
  rewrite <- (length_map fst), update_node_keys. apply length_map.
Qed.

Lemma lookup_update_node_same ns k f d :
  lookup_node ns k = Some d ->
  lookup_node (update_node ns k f) k = Some (f d).
Proof.
  induction ns as [|[k' d'] ns IH]; simpl; [discriminate|].
  destruct (String.eqb_spec k' k) as [->|Hne]; simpl.
  - intros [= ->]. now rewrite String.eqb_refl.
  - intros H. destruct (String.eqb_spec k' k); [contradiction|auto].
Qed.

Lemma lookup_update_node_other ns k k2 f :
  k2 <> k ->
  lookup_node (update_node ns k f) k2 = lookup_node ns k2.
Proof.
  intros Hne. induction ns as [|[k' d'] ns IH]; simpl; [reflexivity|].
  destruct (String.eqb_spec k' k) as [->|Hne']; simpl.
  - destruct (String.eqb_spec k k2); [congruence|reflexivity].
  - destruct (String.eqb k' k2); auto.
Qed.

Lemma lookup_node_app ns ms k :
  lookup_node (ns ++ ms) k =
  match lookup_node ns k with
  | Some d => Some d
  | None => lookup_node ms k
  end.
Proof.
  induction ns as [|[k' d] ns IH]; simpl; [reflexivity|].
  destruct (String.eqb k' k); auto.
Qed.

Lemma key_eqb_spec a b : reflect (a = b) (key_eqb a b).
Proof.
  destruct a as [a1 a2], b as [b1 b2]. unfold key_eqb; simpl.
  destruct (String.eqb_spec a1 b1), (String.eqb_spec a2 b2); simpl;
    constructor; congruence.
Qed.

Lemma update_edge_keys es k f :
  map fst (update_edge es k f) = map fst es.
Proof.
  induction es as [|[k' d] es IH]; simpl; [reflexivity|].
  destruct (key_eqb k' k); simpl; congruence.
Qed.

Lemma lookup_update_edge_same es k f d :
  lookup_edge es k = Some d ->
  lookup_edge (update_edge es k f) k = Some (f d).
Proof.
  induction es as [|[k' d'] es IH]; simpl; [discriminate|].
  destruct (key_eqb_spec k' k) as [->|Hne]; simpl.
  - intros [= ->]. destruct (key_eqb_spec k k); congruence.
  - intros H. destruct (key_eqb_spec k' k); [contradiction|auto].
Qed.

Lemma lookup_update_edge_other es k k2 f :
  k2 <> k ->
  lookup_edge (update_edge es k f) k2 = lookup_edge es k2.
Proof.
  intros Hne. induction es as [|[k' d'] es IH]; simpl; [reflexivity|].
  destruct (key_eqb_spec k' k) as [->|Hne']; simpl.
  - destruct (key_eqb_spec k k2); [congruence|reflexivity].
  - destruct (key_eqb k' k2); auto.
Qed.

Lemma lookup_edge_app es ms k :
  lookup_edge (es ++ ms) k =
  match lookup_edge es k with
  | Some d => Some d
  | None => lookup_edge ms k
  end.
Proof.
  induction es as [|[k' d] es IH]; simpl; [reflexivity|].
  destruct (key_eqb k' k); auto.
Qed.

Lemma mem_in x l : mem x l = true <-> In x l.
Proof.
  unfold mem. rewrite existsb_exists. split.
  - intros (y & Hy & Heq). apply String.eqb_eq in Heq. now subst.
  - intros H. exists x. split; [exact H | apply String.eqb_refl].
Qed.

Lemma lookup_node_filter (p : string -> bool) ns k :
  lookup_node (filter (fun n => p (fst n)) ns) k =
  if p k then lookup_node ns k else None.
Proof.
  induction ns as [|[k' d] ns IH]; simpl.
  - now destruct (p k).
  - destruct (p k') eqn:Hp; simpl.
    + destruct (String.eqb_spec k' k) as [->|Hne]; [now rewrite Hp|exact IH].
    + destruct (String.eqb_spec k' k) as [->|Hne]; [|exact IH].
      rewrite IH. now rewrite Hp.
Qed.

Lemma lookup_edge_filter (p : edge_key -> bool) es k :
  lookup_edge (filter (fun e => p (fst e)) es) k =
  if p k then lookup_edge es k else None.
Proof.
  induction es as [|[k' d] es IH]; simpl.
  - now destruct (p k).
  - destruct (p k') eqn:Hp; simpl.
    + destruct (key_eqb_spec k' k) as [->|Hne]; [now rewrite Hp|exact IH].
    + destruct (key_eqb_spec k' k) as [->|Hne]; [|exact IH].
      rewrite IH. now rewrite Hp.
Qed.

Lemma bool_ext (a b : bool) : (a = true <-> b = true) -> a = b.
Proof. destruct a, b; intros [H1 H2]; auto; symmetry; auto. Qed.

Lemma mem_filter f l x : mem x (filter f l) = mem x l && f x.
Proof.
  apply bool_ext. rewrite andb_true_iff, !mem_in, filter_In. tauto.
Qed.

(** ** [add_entity]: the three ways it can run *)

Lemma add_entity_no_text e d g :
  e_text e = None -> add_entity e d g = (Raise (KeyError "text"), g).
Proof. intros H. unfold add_entity, bind. now rewrite H. Qed.

Lemma add_entity_no_label e d g t :
  e_text e = Some t -> e_label e = None ->
  add_entity e d g = (Raise (KeyError "label"), g).
Proof. intros H1 H2. unfold add_entity, bind. now rewrite H1, H2. Qed.

Lemma add_entity_new e d g t l :
  e_text e = Some t -> e_label e = Some l ->
  has_node g (node_id_of t l) = false ->
  add_entity e d g =
  (Ok tt,
   mk_graph (nodes g ++
              [(node_id_of t l,
                mk_node t l (get_confidence e)
                  (match truthy d with Some s => [s] | None => [] end) 1)])
            (edges g)).
Proof.
  intros H1 H2 H3. unfold add_entity, bind. rewrite H1, H2. simpl.
  unfold get_graph. now rewrite H3.
Qed.

Lemma add_entity_merge e d g t l :
  e_text e = Some t -> e_label e = Some l ->
  has_node g (node_id_of t l) = true ->
  add_entity e d g =
  (Ok tt,
   mk_graph (update_node (nodes g) (node_id_of t l)
               (merge_node (get_confidence e) d))
            (edges g)).
Proof.
  intros H1 H2 H3. unfold add_entity, bind. rewrite H1, H2. simpl.
  unfold get_graph. now rewrite H3.
Qed.

Lemma has_node_false g k : has_node g k = false <-> ~ In k (keys g).
Proof.
  unfold has_node, keys. rewrite <- lookup_node_none.
  destruct (lookup_node (nodes g) k); split; congruence.
Qed.

Lemma has_node_true g k : has_node g k = true <-> In k (keys g).
Proof.
  destruct (has_node g k) eqn:H.
  - split; [intros _|reflexivity].
    destruct (in_dec string_dec k (keys g)) as [Hin|Hn]; [exact Hin|].
    apply has_node_false in Hn. congruence.
  - apply has_node_false in H. split; [discriminate | contradiction].
Qed.

(** Every run of [add_entity] falls in one of the cases above. *)
Lemma add_entity_cases e d g :
  (exists k, add_entity e d g = (Raise (KeyError k), g)) \/
  (exists t l,
     e_text e = Some t /\ e_label e = Some l /\
     ((has_node g (node_id_of t l) = false /\
       add_entity e d g =
       (Ok tt,
        mk_graph (nodes g ++
                   [(node_id_of t l,
                     mk_node t l (get_confidence e)
                       (match truthy d with Some s => [s] | None => [] end) 1)])
                 (edges g))) \/
      (has_node g (node_id_of t l) = true /\
       add_entity e d g =
       (Ok tt,
        mk_graph (update_node (nodes g) (node_id_of t l)
                    (merge_node (get_confidence e) d))
                 (edges g))))).
Proof.
  destruct (e_text e) as [t|] eqn:Ht.
  2:{ left. eexists. now apply add_entity_no_text. }
  destruct (e_label e) as [l|] eqn:Hl.
  2:{ left. eexists. now apply (add_entity_no_label _ _ _ t). }
  right. exists t, l. repeat split.
  destruct (has_node g (node_id_of t l)) eqn:Hn.
  - right. split; [reflexivity|]. now apply add_entity_merge.
  - left. split; [reflexivity|]. now apply add_entity_new.
Qed.

Lemma add_entity_edges e d g : edges (exec (add_entity e d) g) = edges g.
Proof.
  unfold exec.
  destruct (add_entity_cases e d g) as [[k ->]|(t & l & _ & _ & [[_ ->]|[_ ->]])];
    reflexivity.
Qed.

Lemma add_entity_wf e d g : wf g -> wf (exec (add_entity e d) g).
Proof.
  intros [Hnd Hcl]. unfold exec.
  destruct (add_entity_cases e d g)
    as [[k ->]|(t & l & _ & _ & [[Hn ->]|[Hn ->]])]; simpl.
  - now split.
  - apply has_node_false in Hn. split.
    + unfold keys; simpl. rewrite map_app; simpl.
      apply NoDup_app; [exact Hnd | repeat constructor; simpl; tauto |].
      intros x Hx [<-|[]]. contradiction.
    + intros u v Huv. unfold keys; simpl. rewrite map_app, !in_app_iff.
      destruct (Hcl u v Huv). tauto.
  - split.
    + unfold keys; simpl. now rewrite update_node_keys.
    + intros u v Huv. unfold keys; simpl. rewrite update_node_keys.
      exact (Hcl u v Huv).
Qed.

(** ** [add_relationship] *)

Lemma nodes_with_text_head g t k rest :
  nodes_with_text g t = k :: rest ->
  exists l1 d l2,
    nodes g = l1 ++ (k, d) :: l2 /\ text d = t /\
    forall x, In x l1 -> text (snd x) <> t.
Proof.
  unfold nodes_with_text. induction (nodes g) as [|[k' d'] ns IH]; simpl.
  - discriminate.
  - destruct (String.eqb_spec (text d') t) as [Heq|Hne]; simpl.
    + intros [= -> _]. exists [], d', ns.
      split; [reflexivity|]. split; [assumption|]. intros x [].
    + intros H. destruct (IH H) as (l1 & d & l2 & -> & Ht & Hl1).
      exists ((k', d') :: l1), d, l2.
      split; [reflexivity|]. split; [assumption|].
      intros x [<-|Hx]; auto.
Qed.

Lemma nodes_with_text_in g t k rest :
  nodes_with_text g t = k :: rest ->
  exists d, In (k, d) (nodes g) /\ text d = t.
Proof.
  intros H. destruct (nodes_with_text_head _ _ _ _ H) as (l1 & d & l2 & E & Ht & _).
  exists d. split; [|exact Ht]. rewrite E. apply in_elt.
Qed.

Lemma add_relationship_nodes s t r w g :
  nodes (add_relationship s t r w g) = nodes g.
Proof.
  unfold add_relationship.
  destruct (nodes_with_text g s), (nodes_with_text g t); try reflexivity.
  destruct (has_edge g _ _); reflexivity.
Qed.

(** The edge keys after [add_relationship]: unchanged, or one new key
    whose two ends are the first nodes carrying the two texts. *)
Lemma add_relationship_edge_keys s t r w g :
  edge_keys (add_relationship s t r w g) = edge_keys g \/
  exists sid tid rs rt,
    nodes_with_text g s = sid :: rs /\ nodes_with_text g t = tid :: rt /\
    edge_keys (add_relationship s t r w g) = edge_keys g ++ [(sid, tid)].
Proof.
  unfold add_relationship, edge_keys.
  destruct (nodes_with_text g s) as [|sid rs] eqn:Hs; [now left|].
  destruct (nodes_with_text g t) as [|tid rt] eqn:Ht; [now left|].
  destruct (has_edge g sid tid); simpl.
  - left. apply update_edge_keys.
  - right. exists sid, tid, rs, rt. rewrite map_app. auto.
Qed.

Lemma add_relationship_wf s t r w g :
  wf g -> wf (add_relationship s t r w g).
Proof.
  intros [Hnd Hcl]. split.
  - unfold keys. now rewrite add_relationship_nodes.
  - intros u v. unfold keys. rewrite add_relationship_nodes.
    destruct (add_relationship_edge_keys s t r w g)
      as [->|(sid & tid & rs & rt & Hs & Ht & ->)]; [apply Hcl|].
    rewrite in_app_iff. intros [H|[[= <- <-]|[]]]; [now apply Hcl|].
    destruct (nodes_with_text_in _ _ _ _ Hs) as (ds & Hds & _).
    destruct (nodes_with_text_in _ _ _ _ Ht) as (dt & Hdt & _).
    split; [apply (in_map fst) in Hds | apply (in_map fst) in Hdt]; assumption.
Qed.

(** Two different texts never resolve to the same node. *)
Lemma distinct_texts_distinct_nodes g s t sid tid rs rt :
  NoDup (keys g) -> s <> t ->
  nodes_with_text g s = sid :: rs -> nodes_with_text g t = tid :: rt ->
  sid <> tid.
Proof.
  intros Hnd Hne Hs Ht ->.
  destruct (nodes_with_text_in _ _ _ _ Hs) as (ds & Hds & Hts).
  destruct (nodes_with_text_in _ _ _ _ Ht) as (dt & Hdt & Htt).
  apply (in_lookup_node _ _ _ Hnd) in Hds, Hdt. congruence.
Qed.

Lemma add_relationship_no_self_loops s t r w g :
  NoDup (keys g) -> s <> t -> no_self_loops g ->
  no_self_loops (add_relationship s t r w g).
Proof.
  intros Hnd Hne Hl u v.
  destruct (add_relationship_edge_keys s t r w g)
    as [->|(sid & tid & rs & rt & Hs & Ht & ->)]; [apply Hl|].
  rewrite in_app_iff. intros [H|[[= <- <-]|[]]]; [now apply Hl|].
  eapply distinct_texts_distinct_nodes; eauto.
Qed.

(** ** Invariants carried through the loops *)

Lemma link_window_nodes source window g :
  nodes (link_window source window g) = nodes g.
Proof.
  unfold link_window. revert g.
  induction window as [|t window IH]; intros g; simpl; [reflexivity|].
  rewrite IH. destruct (String.eqb source t); simpl; [reflexivity|].
  apply add_relationship_nodes.
Qed.

Lemma link_window_inv source window g :
  loop_free_wf g -> loop_free_wf (link_window source window g).
Proof.
  unfold link_window. revert g.
  induction window as [|t window IH]; intros g Hg; simpl; [exact Hg|].
  apply IH. destruct (String.eqb_spec source t) as [->|Hne]; simpl; [exact Hg|].
  destruct Hg as [Hwf Hl]. split.
  - now apply add_relationship_wf.
  - apply add_relationship_no_self_loops; [apply Hwf | exact Hne | exact Hl].
Qed.

Lemma fold_left_inv {A B} (P : A -> Prop) (f : A -> B -> A) l a :
  (forall a b, P a -> P (f a b)) -> P a -> P (fold_left f l a).
Proof.
  intros Hf. revert a. induction l as [|b l IH]; simpl; auto.
Qed.

Lemma link_texts_nodes texts g : nodes (link_texts texts g) = nodes g.
Proof.
  unfold link_texts.
  apply (fold_left_inv (fun g' => nodes g' = nodes g)); [|reflexivity].
  intros a [i s] H. now rewrite link_window_nodes.
Qed.

Lemma link_texts_inv texts g :
  loop_free_wf g -> loop_free_wf (link_texts texts g).
Proof.
  unfold link_texts. apply fold_left_inv.
  intros a [i s]. apply link_window_inv.
Qed.

Lemma entity_texts_state cfg es g : exec (entity_texts cfg es) g = g.
Proof.
  unfold exec. induction es as [|e es IH]; simpl; [reflexivity|].
  destruct (passes cfg e); [|exact IH].
  unfold bind. destruct (e_text e); simpl; [|reflexivity].
  destruct (entity_texts cfg es g) as [[ts|ex] g'] eqn:E; simpl in *; exact IH.
Qed.

Lemma cooccurrence_inv cfg es d g :
  loop_free_wf g -> loop_free_wf (exec (_add_cooccurrence_edges cfg es d) g).
Proof.
  intros Hg. unfold exec, _add_cooccurrence_edges, bind.
  pose proof (entity_texts_state cfg es g) as Hs. unfold exec in Hs.
  destruct (entity_texts cfg es g) as [[ts|ex] g']; simpl in *; subst g'.
  - now apply link_texts_inv.
  - exact Hg.
Qed.

Lemma add_entity_inv e d g :
  loop_free_wf g -> loop_free_wf (exec (add_entity e d) g).
Proof.
  intros [Hwf Hl]. split; [now apply add_entity_wf|].
  unfold no_self_loops, edge_keys. now rewrite add_entity_edges.
Qed.

Lemma exec_bind {A B} (m : M A) (k : A -> M B) g :
  exec (bind m k) g =
  match outcome m g with
  | Ok a => exec (k a) (exec m g)
  | Raise _ => exec m g
  end.
Proof. unfold exec, outcome, bind. destruct (m g) as [[a|e] g']; reflexivity. Qed.

Lemma outcome_bind {A B} (m : M A) (k : A -> M B) g :
  outcome (bind m k) g =
  match outcome m g with
  | Ok a => outcome (k a) (exec m g)
  | Raise e => Raise e
  end.
Proof. unfold exec, outcome, bind. destruct (m g) as [[a|e] g']; reflexivity. Qed.

Lemma for_each_inv {A} (P : graph -> Prop) (l : list A) body g :
  (forall x g, P g -> P (exec (body x) g)) ->
  P g -> P (exec (for_each l body) g).
Proof.
  intros Hb. revert g. induction l as [|x l IH]; intros g Hg; simpl.
  - exact Hg.
  - rewrite exec_bind. destruct (outcome (body x) g); auto.
Qed.

Lemma ingest_entity_inv cfg d e g :
  loop_free_wf g -> loop_free_wf (exec (ingest_entity cfg d e) g).
Proof.
  intros Hg. unfold ingest_entity.
  destruct (passes cfg e); [now apply add_entity_inv|exact Hg].
Qed.

Lemma process_document_inv cfg data g :
  loop_free_wf g -> loop_free_wf (exec (process_document cfg data) g).
Proof.
  intros Hg. unfold process_document. rewrite exec_bind.
  assert (H1 : loop_free_wf
                 (exec (for_each (entities data)
                          (ingest_entity cfg (doc_id data))) g)).
  { apply for_each_inv; [|exact Hg]. intros e g'. apply ingest_entity_inv. }
  destruct (outcome _ g); [now apply cooccurrence_inv | exact H1].
Qed.

Lemma ingest_inv cfg files g :
  loop_free_wf g -> loop_free_wf (exec (ingest cfg files) g).
Proof.
  apply for_each_inv. intros. now apply process_document_inv.
Qed.

Lemma cooccurrence_nodes cfg es d g :
  nodes (exec (_add_cooccurrence_edges cfg es d) g) = nodes g.
Proof.
  unfold exec, _add_cooccurrence_edges, bind.
  pose proof (entity_texts_state cfg es g) as Hs. unfold exec in Hs.
  destruct (entity_texts cfg es g) as [[ts|ex] g']; simpl in *; subst g';
    [apply link_texts_nodes|reflexivity].
Qed.

Lemma cooccurrence_wf cfg es d g :
  wf g -> wf (exec (_add_cooccurrence_edges cfg es d) g).
Proof.
  intros Hg. unfold exec, _add_cooccurrence_edges, bind.
  pose proof (entity_texts_state cfg es g) as Hs. unfold exec in Hs.
  destruct (entity_texts cfg es g) as [[ts|ex] g']; simpl in *; subst g';
    [|exact Hg].
  unfold link_texts. apply fold_left_inv; [|exact Hg].
  intros ga [i s] Ha. unfold link_window. apply fold_left_inv; [|exact Ha].
  intros gb t Hb. destruct (negb (String.eqb s t)); [|exact Hb].
  now apply add_relationship_wf.
Qed.

(** The same loops keep plain well-formedness, self-loops or not. *)
Lemma ingest_wf cfg files g : wf g -> wf (exec (ingest cfg files) g).
Proof.
  apply for_each_inv. intros data g1 Hg1.
  unfold process_document. rewrite exec_bind.
  assert (H1 : wf (exec (for_each (entities data)
                          (ingest_entity cfg (doc_id data))) g1)).
  { apply for_each_inv; [|exact Hg1].
    intros e g' Hg'. unfold ingest_entity.
    destruct (passes cfg e); [now apply add_entity_wf|exact Hg']. }
  destruct (outcome _ g1); [now apply cooccurrence_wf|exact H1].
Qed.

(** ** Pruning *)

Lemma slice_to_length {A} (l : list A) m :
  0 <= m -> Z.of_nat (List.length (slice_to l m)) <= m.
Proof.
  intros Hm. unfold slice_to.
  destruct (Z.leb_spec 0 m); [|lia].
  pose proof (firstn_le_length (Z.to_nat m) l). lia.
Qed.

Lemma filter_keys_NoDup {A} (f : string * A -> bool) (ns : list (string * A)) :
  NoDup (map fst ns) -> NoDup (map fst (filter f ns)).
Proof.
  induction ns as [|n ns IH]; simpl; intros H; [constructor|].
  inversion H as [|? ? Hn Hnd]; subst.
  destruct (f n); simpl; [|auto].
  constructor; [|auto]. intros Hin. apply Hn.
  apply in_map_iff in Hin. destruct Hin as (x & Hx & Hin).
  apply filter_In in Hin. apply in_map_iff. exists x. tauto.
Qed.

Lemma mem_shown so g keep x :
  mem x (set_iter so (filter (has_node g) keep)) = mem x keep && has_node g x.
Proof.
  rewrite <- mem_filter. apply bool_ext. rewrite !mem_in. apply set_iter_In.
Qed.

Lemma lookup_node_flat_map g ks k :
  lookup_node (flat_map (node_of g) ks) k =
  if mem k ks then lookup_node (nodes g) k else None.
Proof.
  induction ks as [|n ks IH]; [reflexivity|].
  change (flat_map (node_of g) (n :: ks))
    with (node_of g n ++ flat_map (node_of g) ks).
  change (mem k (n :: ks)) with (String.eqb k n || mem k ks).
  rewrite lookup_node_app, IH. unfold node_of.
  destruct (String.eqb_spec k n) as [->|Hne]; simpl.
  - destruct (lookup_node (nodes g) n) as [nd|] eqn:E; simpl.
    + now rewrite String.eqb_refl.
    + now destruct (mem n ks).
  - destruct (lookup_node (nodes g) n) as [nd|]; simpl; [|reflexivity].
    destruct (String.eqb_spec n k); [congruence|reflexivity].
Qed.

Lemma flat_map_node_of_keys g ks :
  map fst (flat_map (node_of g) ks) = filter (has_node g) ks.
Proof.
  induction ks as [|n ks IH]; [reflexivity|].
  simpl. rewrite map_app, IH. unfold node_of, has_node.
  now destruct (lookup_node (nodes g) n).
Qed.

Lemma flat_map_node_of_in g ks n :
  In n (flat_map (node_of g) ks) -> In n (nodes g) /\ In (fst n) ks.
Proof.
  intros H. apply in_flat_map in H. destruct H as (k & Hk & Hn).
  unfold node_of in Hn.
  destruct (lookup_node (nodes g) k) as [nd|] eqn:E; [|destruct Hn].
  destruct Hn as [<-|[]]. split; [now apply lookup_node_in|exact Hk].
Qed.

(** The nodes of the copy are nodes of [g] named in [keep], whichever
    way the view is walked. *)
Lemma subgraph_nodes_in so g keep n :
  In n (nodes (subgraph so g keep)) -> In n (nodes g) /\ In (fst n) keep.
Proof.
  unfold subgraph; simpl.
  destruct (_ <? _)%nat; intros H.
  - apply flat_map_node_of_in in H. destruct H as [Hn Hk].
    split; [exact Hn|]. apply set_iter_In, filter_In in Hk. tauto.
  - apply filter_In in H. destruct H as [Hn Hk].
    split; [exact Hn|]. rewrite mem_shown in Hk.
    apply andb_prop in Hk. now apply mem_in.
Qed.

Lemma subgraph_keys_in so g keep k :
  In k (keys (subgraph so g keep)) <-> In k keep /\ In k (keys g).
Proof.
  unfold keys, subgraph; simpl. destruct (_ <? _)%nat.
  - rewrite flat_map_node_of_keys, filter_In, set_iter_In, filter_In.
    rewrite has_node_true. unfold keys. tauto.
  - rewrite in_map_iff. split.
    + intros (n & <- & Hn). apply filter_In in Hn. destruct Hn as [Hn Hk].
      rewrite mem_shown in Hk. apply andb_prop in Hk.
      split; [now apply mem_in|now apply in_map].
    + intros [Hk Hg]. apply in_map_iff in Hg. destruct Hg as (n & <- & Hn).
      exists n. split; [reflexivity|]. apply filter_In. split; [exact Hn|].
      rewrite mem_shown. apply andb_true_intro. split; [now apply mem_in|].
      apply has_node_true. now apply in_map.
Qed.

Lemma subgraph_keys_NoDup so g keep :
  NoDup (keys g) -> NoDup (keys (subgraph so g keep)).
Proof.
  intros Hnd. unfold keys, subgraph; simpl. destruct (_ <? _)%nat.
  - rewrite flat_map_node_of_keys. apply NoDup_filter, set_iter_NoDup.
  - now apply filter_keys_NoDup.
Qed.

Lemma lookup_node_subgraph so g keep k :
  lookup_node (nodes (subgraph so g keep)) k =
  if mem k keep then lookup_node (nodes g) k else None.
Proof.
  assert (H : (if mem k keep && has_node g k
               then lookup_node (nodes g) k else None) =
              if mem k keep then lookup_node (nodes g) k else None).
  { unfold has_node.
    destruct (mem k keep), (lookup_node (nodes g) k); reflexivity. }
  unfold subgraph; simpl. destruct (_ <? _)%nat.
  - now rewrite lookup_node_flat_map, mem_shown.
  - rewrite (lookup_node_filter
               (fun n => mem n (set_iter so (filter (has_node g) keep)))).
    now rewrite mem_shown.
Qed.

Lemma subgraph_edges_in so g keep e :
  In e (edges (subgraph so g keep)) <->
  In e (edges g) /\
  (In (fst (fst e)) keep /\ In (fst (fst e)) (keys g)) /\
  (In (snd (fst e)) keep /\ In (snd (fst e)) (keys g)).
Proof.
  unfold subgraph; simpl.
  rewrite filter_In, andb_true_iff, !mem_shown, !andb_true_iff.
  rewrite !mem_in, !has_node_true. tauto.
Qed.

Lemma lookup_edge_subgraph so g keep u v :
  lookup_edge (edges (subgraph so g keep)) (u, v) =
  if (mem u keep && has_node g u) && (mem v keep && has_node g v)
  then lookup_edge (edges g) (u, v) else None.
Proof.
  unfold subgraph; simpl.
  rewrite (lookup_edge_filter
             (fun k => mem (fst k) (set_iter so (filter (has_node g) keep)) &&
                       mem (snd k) (set_iter so (filter (has_node g) keep)))).
  simpl. now rewrite !mem_shown.
Qed.

Lemma subgraph_exact_size so g keep :
  NoDup (keys g) -> NoDup keep -> incl keep (keys g) ->
  List.length (nodes (subgraph so g keep)) = List.length keep.
Proof.
  intros Hk Hnd Hin. rewrite <- (length_map fst).
  apply Permutation_length. apply NoDup_Permutation.
  - now apply subgraph_keys_NoDup.
  - exact Hnd.
  - intros k. change (map fst (nodes (subgraph so g keep)))
      with (keys (subgraph so g keep)).
    rewrite subgraph_keys_in. split; [tauto|]. intros H. split; auto.
Qed.

Lemma subgraph_size so g keep :
  NoDup (keys g) ->
  (List.length (nodes (subgraph so g keep)) <= List.length keep)%nat.
Proof.
  intros Hnd. rewrite <- (length_map fst).
  apply NoDup_incl_length.
  - now apply subgraph_keys_NoDup.
  - intros k Hk. now apply subgraph_keys_in in Hk.
Qed.

Lemma subgraph_wf so g keep : wf g -> wf (subgraph so g keep).
Proof.
  intros [Hnd Hcl]. split.
  - now apply subgraph_keys_NoDup.
  - intros u v Huv. unfold edge_keys in Huv.
    apply in_map_iff in Huv. destruct Huv as ([[u' v'] ed] & [= -> ->] & Hin).
    apply subgraph_edges_in in Hin. simpl in Hin.
    split; apply subgraph_keys_in; tauto.
Qed.

Lemma prune_if_needed_run so cfg g :
  prune_if_needed so cfg g =
  (Ok tt,
   if Z.of_nat (List.length (nodes g)) >? max_nodes cfg
   then subgraph so g (nodes_to_keep cfg g) else g).
Proof.
  unfold prune_if_needed, bind, get_graph; simpl.
  destruct (Z.of_nat (List.length (nodes g)) >? max_nodes cfg); reflexivity.
Qed.

Lemma build_run so cfg files g0 :
  outcome (ingest cfg files) g0 = Ok tt ->
  build_from_extractions so cfg files g0 =
  (Ok (exec (prune_if_needed so cfg) (exec (ingest cfg files) g0)),
   exec (prune_if_needed so cfg) (exec (ingest cfg files) g0)).
Proof.
  unfold build_from_extractions, outcome, exec, bind.
  destruct (ingest cfg files g0) as [[[]|e] gi]; simpl; [|discriminate].
  intros _. rewrite prune_if_needed_run. reflexivity.
Qed.

(** C1. Budget invariant.  When ingestion completes on a well-formed
    start graph and the configured [max_nodes] is [m >= 0], the build
    returns the graph it leaves behind; writing [gi] for the graph at the
    end of ingestion, that graph has at most [m] nodes when [gi] has more
    than [m], it is [gi] itself when [gi] has at most [m] nodes, and each
    of its edges joins two of its own nodes. *)
Theorem budget_invariant so cfg files g0 :
  0 <= max_nodes cfg ->
  wf g0 ->
  outcome (ingest cfg files) g0 = Ok tt ->
  let gi := exec (ingest cfg files) g0 in
  let g' := exec (build_from_extractions so cfg files) g0 in
  outcome (build_from_extractions so cfg files) g0 = Ok g' /\
  (Z.of_nat (List.length (nodes gi)) > max_nodes cfg ->
   g' = subgraph so gi (nodes_to_keep cfg gi) /\
   Z.of_nat (List.length (nodes g')) <= max_nodes cfg) /\
  (Z.of_nat (List.length (nodes gi)) <= max_nodes cfg -> g' = gi) /\
  edges_closed g'.
Proof.
  intros Hm Hwf Hok gi g'.
  assert (Hgi : wf gi) by now apply ingest_wf.
  assert (Hg' : g' = exec (prune_if_needed so cfg) gi).
  { unfold g', exec at 1. now rewrite build_run. }
  assert (Hrun : exec (prune_if_needed so cfg) gi =
                 if Z.of_nat (List.length (nodes gi)) >? max_nodes cfg
                 then subgraph so gi (nodes_to_keep cfg gi) else gi).
  { unfold exec. now rewrite prune_if_needed_run. }
  split; [|split; [|split]].
  - unfold outcome. rewrite build_run by exact Hok. simpl. now rewrite Hg'.
  - intros Hgt. rewrite Hg', Hrun.
    destruct (Z.gtb_spec (Z.of_nat (List.length (nodes gi))) (max_nodes cfg)); [|lia].
    split; [reflexivity|].
    pose proof (subgraph_size so gi (nodes_to_keep cfg gi) (proj1 Hgi)) as Hs.
    unfold nodes_to_keep in Hs at 2. rewrite length_map in Hs.
    pose proof (slice_to_length (ranked gi) (max_nodes cfg) Hm). lia.
  - intros Hle. rewrite Hg', Hrun.
    destruct (Z.gtb_spec (Z.of_nat (List.length (nodes gi))) (max_nodes cfg)); [lia|].
    reflexivity.
  - rewrite Hg', Hrun.
    destruct (Z.of_nat (List.length (nodes gi)) >? max_nodes cfg).
    + apply subgraph_wf. exact Hgi.
    + apply Hgi.
Qed.

(** ** Running mean of the confidence *)

Lemma has_node_lookup g k :
  has_node g k = true <-> exists nd, lookup_node (nodes g) k = Some nd.
Proof.
  unfold has_node. destruct (lookup_node (nodes g) k).
  - split; eauto.
  - split; [discriminate | intros [? ?]; discriminate].
Qed.

Lemma add_entity_first e d g t l :
  e_text e = Some t -> e_label e = Some l ->
  has_node g (node_id_of t l) = false ->
  outcome (add_entity e d) g = Ok tt /\
  lookup_node (nodes (exec (add_entity e d) g)) (node_id_of t l) =
  Some (mk_node t l (get_confidence e)
          (match truthy d with Some s => [s] | None => [] end) 1).
Proof.
  intros Ht Hl Hn. unfold outcome, exec.
  rewrite (add_entity_new _ _ _ _ _ Ht Hl Hn). simpl. split; [reflexivity|].
  rewrite lookup_node_app.
  unfold has_node in Hn. destruct (lookup_node (nodes g) _); [discriminate|].
  simpl. now rewrite String.eqb_refl.
Qed.

Lemma add_entity_again e d g t l nd :
  e_text e = Some t -> e_label e = Some l ->
  lookup_node (nodes g) (node_id_of t l) = Some nd ->
  outcome (add_entity e d) g = Ok tt /\
  lookup_node (nodes (exec (add_entity e d) g)) (node_id_of t l) =
  Some (merge_node (get_confidence e) d nd).
Proof.
  intros Ht Hl Hn. unfold outcome, exec.
  assert (Hh : has_node g (node_id_of t l) = true)
    by (apply has_node_lookup; eauto).
  rewrite (add_entity_merge _ _ _ _ _ Ht Hl Hh). simpl. split; [reflexivity|].
  now apply lookup_update_node_same.
Qed.

(** One merge keeps [confidence * count] equal to the sum seen so far. *)
Lemma merge_node_sum c d nd s :
  1 <= count nd ->
  (confidence nd * inject_Z (count nd) == s)%Q ->
  (confidence (merge_node c d nd) * inject_Z (count (merge_node c d nd))
   == s + c)%Q.
Proof.
  intros Hc Hs. unfold merge_node; simpl.
  replace (count nd + 1 - 1) with (count nd) by lia.
  rewrite <- Hs.
  assert (Hnz : ~ (inject_Z (count nd + 1) == 0)%Q).
  { unfold Qeq; simpl. lia. }
  field. exact Hnz.
Qed.

Lemma add_all_present t l calls : forall g nd s,
  for_key t l calls ->
  lookup_node (nodes g) (node_id_of t l) = Some nd ->
  1 <= count nd ->
  (confidence nd * inject_Z (count nd) == s)%Q ->
  outcome (add_all calls) g = Ok tt /\
  exists nd',
    lookup_node (nodes (exec (add_all calls) g)) (node_id_of t l) = Some nd' /\
    count nd' = count nd + Z.of_nat (List.length calls) /\
    (confidence nd' * inject_Z (count nd') == s + sumQ (confs calls))%Q.
Proof.
  induction calls as [|[e d] calls IH]; intros g nd s Hk Hn Hc Hs.
  - split; [reflexivity|]. exists nd. simpl.
    split; [exact Hn|]. split; [lia|]. rewrite Hs. ring.
  - destruct (Hk (e, d) (or_introl eq_refl)) as [Ht Hl]. simpl in Ht, Hl.
    destruct (add_entity_again e d g t l nd Ht Hl Hn) as [Ho Hlk].
    destruct (IH (exec (add_entity e d) g) (merge_node (get_confidence e) d nd)
                 (s + get_confidence e)%Q) as [Ho' (nd' & Hlk' & Hc' & Hs')].
    + intros c Hin. apply Hk. now right.
    + exact Hlk.
    + simpl. lia.
    + now apply merge_node_sum.
    + unfold add_all in *. simpl. rewrite outcome_bind, exec_bind. simpl.
      rewrite Ho. split; [exact Ho'|].
      exists nd'. split; [exact Hlk'|]. split.
      * rewrite Hc'. simpl count. lia.
      * rewrite Hs'. simpl. ring.
Qed.

Lemma add_all_fresh t l calls g :
  calls <> [] ->
  for_key t l calls ->
  has_node g (node_id_of t l) = false ->
  outcome (add_all calls) g = Ok tt /\
  stored (exec (add_all calls) g) (node_id_of t l)
         (mean (confs calls)) (Z.of_nat (List.length calls)).
Proof.
  destruct calls as [|[e d] calls]; [congruence|]. intros _ Hk Hn.
  destruct (Hk (e, d) (or_introl eq_refl)) as [Ht Hl]. simpl in Ht, Hl.
  destruct (add_entity_first e d g t l Ht Hl Hn) as [Ho Hlk].
  destruct (add_all_present t l calls (exec (add_entity e d) g) _
              (get_confidence e) (fun c H => Hk c (or_intror H)) Hlk)
    as [Ho' (nd' & Hlk' & Hc' & Hs')].
  - simpl. lia.
  - simpl. ring.
  - unfold add_all in *. simpl for_each. rewrite outcome_bind, exec_bind.
    simpl fst; simpl snd. rewrite Ho. split; [exact Ho'|].
    exists nd'. split; [exact Hlk'|]. simpl count in Hc'.
    assert (Hcnt : count nd' = Z.of_nat (S (List.length calls))) by lia.
    split; [|exact Hcnt].
    assert (Hlen : List.length (confs ((e, d) :: calls)) = S (List.length calls))
      by (unfold confs; now rewrite length_map).
    unfold mean. rewrite Hlen, <- Hcnt.
    change (sumQ (confs ((e, d) :: calls)))
      with (get_confidence e + sumQ (confs calls))%Q.
    assert (Hnz : ~ (inject_Z (count nd') == 0)%Q).
    { unfold Qeq; simpl. lia. }
    rewrite <- Hs'. field. exact Hnz.
Qed.

Lemma sumQ_perm l l' : Permutation l l' -> (sumQ l == sumQ l')%Q.
Proof.
  induction 1; simpl.
  - reflexivity.
  - now rewrite IHPermutation.
  - ring.
  - now rewrite IHPermutation1.
Qed.

Lemma mean_perm l l' : Permutation l l' -> (mean l == mean l')%Q.
Proof.
  intros H. unfold mean.
  rewrite (Permutation_length H), (sumQ_perm _ _ H). reflexivity.
Qed.

(** C2, counterexample.  On binary64 numbers the stored confidence
    depends on the order of the calls: confidences 0.1, 0.2, 0.3 leave
    0.20000000000000004, while 0.2, 0.3, 0.1 leave 0.19999999999999998. *)
Lemma running_mean_order_binary64 :
  Binary64.stored_after [0.1; 0.2; 0.3]%float =
    Some (0.20000000000000004%float, 3) /\
  Binary64.stored_after [0.2; 0.3; 0.1]%float =
    Some (0.19999999999999998%float, 3) /\
  Binary64.stored_after [0.1; 0.2; 0.3]%float <>
  Binary64.stored_after [0.2; 0.3; 0.1]%float.
Proof.
  split; [vm_compute; reflexivity|]. split; [vm_compute; reflexivity|].
  intros H.
  apply (f_equal (fun o => match o with
                           | Some (x, _) =>
                               PrimFloat.eqb x 0.19999999999999998%float
                           | None => true
                           end)) in H.
  vm_compute in H. discriminate.
Qed.

(** C2, amended.  The stored confidence is the value of the recurrence
    [conf_n = (conf_(n-1) * (n - 1) + new_conf) / n] applied in call
    order.  In exact arithmetic, for a key that is not yet in the graph
    and any non-empty sequence of [add_entity] calls for that key, it
    equals the mean of the confidences passed, the count equals the
    number of calls, and any reordering of the calls stores the same
    confidence and count.  Two calls with confidences 0.8 and 0.6, in
    either order, store confidence 0.7 and count 2, in exact arithmetic
    and on binary64 numbers alike. *)
Theorem confidence_running_mean t l calls g :
  calls <> [] ->
  for_key t l calls ->
  has_node g (node_id_of t l) = false ->
  let k := node_id_of t l in
  let g' := exec (add_all calls) g in
  stored g' k (mean (confs calls)) (Z.of_nat (List.length calls)) /\
  (forall e d nd,
     e_text e = Some t -> e_label e = Some l ->
     lookup_node (nodes g') k = Some nd ->
     exists nd',
       lookup_node (nodes (exec (add_entity e d) g')) k = Some nd' /\
       count nd' = count nd + 1 /\
       confidence nd' =
       ((confidence nd * inject_Z (count nd' - 1) + get_confidence e)
        / inject_Z (count nd'))%Q) /\
  (forall calls',
     Permutation calls calls' ->
     stored (exec (add_all calls') g) k
            (mean (confs calls)) (Z.of_nat (List.length calls))) /\
  (forall e1 d1 e2 d2,
     calls = [(e1, d1); (e2, d2)] ->
     (get_confidence e1 == 8 # 10)%Q -> (get_confidence e2 == 6 # 10)%Q ->
     stored (exec (add_all [(e1, d1); (e2, d2)]) g) k (7 # 10)%Q 2 /\
     stored (exec (add_all [(e2, d2); (e1, d1)]) g) k (7 # 10)%Q 2) /\
  (Binary64.stored_after [0.8; 0.6]%float = Some (0.7%float, 2) /\
   Binary64.stored_after [0.6; 0.8]%float = Some (0.7%float, 2)).
Proof.
  intros Hne Hk Hn k g'.
  assert (Hperm : forall calls', Permutation calls calls' ->
            stored (exec (add_all calls') g) k
                   (mean (confs calls)) (Z.of_nat (List.length calls))).
  { intros calls' Hp.
    destruct (add_all_fresh t l calls' g) as [_ (nd & Hlk & Hc & Hcnt)].
    - intros ->. apply Permutation_sym, Permutation_nil in Hp. contradiction.
    - intros c Hc. apply Hk. eapply Permutation_in; [symmetry; exact Hp|exact Hc].
    - exact Hn.
    - exists nd. split; [exact Hlk|]. split.
      + rewrite Hc. symmetry. apply mean_perm. unfold confs.
        now apply Permutation_map.
      + rewrite Hcnt. now rewrite (Permutation_length Hp). }
  split; [apply Hperm; reflexivity|].
  split; [|split; [exact Hperm|split; [|split; vm_compute; reflexivity]]].
  - intros e d nd Ht Hl Hlk.
    destruct (add_entity_again e d g' t l nd Ht Hl Hlk) as [_ Hlk'].
    exists (merge_node (get_confidence e) d nd).
    split; [exact Hlk'|]. split; reflexivity.
  - intros e1 d1 e2 d2 -> H1 H2.
    assert (Hm : (mean (confs [(e1, d1); (e2, d2)]) == 7 # 10)%Q).
    { unfold mean, confs. simpl. rewrite H1, H2. reflexivity. }
    split.
    + destruct (Hperm _ (Permutation_refl _)) as (nd & Hlk & Hc & Hcnt).
      exists nd. split; [exact Hlk|]. split; [now rewrite Hc|exact Hcnt].
    + destruct (Hperm _ (perm_swap _ _ _)) as (nd & Hlk & Hc & Hcnt).
      exists nd. split; [exact Hlk|]. split; [now rewrite Hc|exact Hcnt].
Qed.

Lemma confidence_running_mean_witness :
  let calls := [(mk_entity (Some "Paris") (Some "GPE") (Some (8 # 10)%Q), Some "doc1");
                (mk_entity (Some "Paris") (Some "GPE") (Some (6 # 10)%Q), Some "doc2")] in
  stored (exec (add_all calls) empty_graph) "Paris_GPE" (7 # 10)%Q 2 /\
  stored (exec (add_all (rev calls)) empty_graph) "Paris_GPE" (7 # 10)%Q 2.
Proof.
  intros calls.
  refine (proj1 (proj2 (proj2 (proj2
            (confidence_running_mean "Paris" "GPE" calls empty_graph _ _ _))))
          _ _ _ _ eq_refl _ _).
  - discriminate.
  - intros c [<-|[<-|[]]]; split; reflexivity.
  - reflexivity.
  - reflexivity.
  - reflexivity.
Defined.

Lemma wf_empty : wf empty_graph.
Proof.
  split.
  - constructor.
  - intros u v [].
Qed.

Lemma budget_invariant_witness :
  let cfg := mk_config (3 # 10)%Q 2 (85 # 100)%Q in
  let files :=
    [mk_document (Some "doc1")
       [mk_entity (Some "Ada") (Some "PERSON") (Some 1%Q);
        mk_entity (Some "London") (Some "GPE") (Some (9 # 10)%Q);
        mk_entity (Some "Royal Society") (Some "ORG") None]] in
  Z.of_nat (List.length (nodes (exec (ingest cfg files) empty_graph))) = 3 /\
  Z.of_nat
    (List.length
       (nodes (exec (build_from_extractions insertion_order cfg files)
                    empty_graph))) <= 2.
Proof.
  intros cfg files. split; [reflexivity|].
  assert (Hm : 0 <= max_nodes cfg) by (simpl; lia).
  assert (Hok : outcome (ingest cfg files) empty_graph = Ok tt) by reflexivity.
  destruct (budget_invariant insertion_order cfg files empty_graph Hm
              wf_empty Hok)
    as (_ & Hprune & _ & _).
  apply Hprune. vm_compute. reflexivity.
Defined.

(** ** Window linking *)

Lemma add_relationship_fresh ns E s t sid tid rs rt r w :
  nodes_with_text (mk_graph ns []) s = sid :: rs ->
  nodes_with_text (mk_graph ns []) t = tid :: rt ->
  lookup_edge E (sid, tid) = None ->
  add_relationship s t r w (mk_graph ns E) =
  mk_graph ns (E ++ [((sid, tid), mk_edge r w 1)]).
Proof.
  unfold add_relationship, nodes_with_text, has_edge; simpl.
  intros -> -> ->. reflexivity.
Qed.

Lemma add_relationship_seen ns E s t sid tid rs rt r w ed :
  nodes_with_text (mk_graph ns []) s = sid :: rs ->
  nodes_with_text (mk_graph ns []) t = tid :: rt ->
  lookup_edge E (sid, tid) = Some ed ->
  add_relationship s t r w (mk_graph ns E) =
  mk_graph ns
    (update_edge E (sid, tid)
       (fun ed => mk_edge (rel_type ed) (weight ed + w)%Q (ecount ed + 1))).
Proof.
  unfold add_relationship, nodes_with_text, has_edge; simpl.
  intros -> -> ->. reflexivity.
Qed.

(** The texts the linker works on: one per entity that passes the
    confidence test, in order. *)
Lemma entity_texts_all cfg es ts g :
  Forall2 (fun e t => e_text e = Some t /\ passes cfg e = true) es ts ->
  entity_texts cfg es g = (Ok ts, g).
Proof.
  induction 1 as [|e t es ts [Ht Hp] _ IH]; simpl; [reflexivity|].
  rewrite Hp. unfold bind. rewrite Ht; simpl. now rewrite IH.
Qed.

Lemma resolved_ids_distinct g ts ids :
  NoDup (keys g) -> NoDup ts ->
  Forall2 (fun t id => exists r, nodes_with_text g t = id :: r) ts ids ->
  NoDup ids.
Proof.
  intros Hk Hts H. induction H as [|t id ts ids [r Hr] Hall IH].
  - constructor.
  - inversion Hts as [|? ? Hnotin Hts']; subst.
    constructor; [|now apply IH].
    intros Hin. apply Hnotin. clear IH Hts Hts' Hnotin.
    induction Hall as [|t' id' ts ids [r' Hr'] Hall IH']; [destruct Hin|].
    destruct Hin as [->|Hin]; [|right; now apply IH'].
    left. destruct (string_dec t' t) as [E|E]; [exact E|].
    exfalso. now apply (distinct_texts_distinct_nodes g t' t id id r' r).
Qed.

Lemma NoDup_nth_eqb (l : list string) :
  NoDup l -> forall i j x y, i <> j ->
  nth_error l i = Some x -> nth_error l j = Some y ->
  String.eqb x y = false.
Proof.
  intros Hnd i j x y Hij Hi Hj. apply String.eqb_neq. intros ->.
  apply Hij. apply (proj1 (NoDup_nth_error l) Hnd); [|congruence].
  apply nth_error_Some. congruence.
Qed.

Lemma link_window_nil source g : link_window source [] g = g.
Proof. reflexivity. Qed.

Lemma link_window_cons_neq source target window g :
  String.eqb source target = false ->
  link_window source (target :: window) g =
  link_window source window
    (add_relationship source target "CO_OCCURS" (1 # 2)%Q g).
Proof. intros H. unfold link_window. simpl. now rewrite H. Qed.

Ltac pose_distinct H :=
  let go i j :=
    try (pose proof (H i j _ _ ltac:(discriminate) eq_refl eq_refl)) in
  let row i :=
    (go i 0%nat; go i 1%nat; go i 2%nat; go i 3%nat; go i 4%nat; go i 5%nat) in
  row 0%nat; row 1%nat; row 2%nat; row 3%nat; row 4%nat; row 5%nat.

Ltac rewrite_eqb :=
  repeat (rewrite String.eqb_refl ||
          match goal with
          | H : String.eqb _ _ = false |- _ => rewrite H
          end);
  simpl.

Ltac absent_edge :=
  simpl lookup_edge; unfold key_eqb; simpl fst; simpl snd;
  rewrite_eqb; reflexivity.

(** C3. Window linking.  Six pairwise different texts A..F, each the
    text of some node of an edge-free graph, given as the above-threshold
    entities of one document in this order: co-occurrence linking leaves
    the nodes as they are and creates exactly the fourteen edges A->B,
    A->C, A->D, A->E, B->C, B->D, B->E, B->F, C->D, C->E, C->F, D->E,
    D->F, E->F between the resolved nodes, each of type CO_OCCURS with
    weight 0.5 and count 1; none is a self-loop and none reaches further
    than four positions ahead. *)
Theorem window_linking cfg g doc es
    (a b c d e f na nb nc nd ne nf : string) :
  wf g ->
  edges g = [] ->
  NoDup [a; b; c; d; e; f] ->
  Forall2 (fun en t => e_text en = Some t /\ passes cfg en = true)
          es [a; b; c; d; e; f] ->
  Forall2 (fun t id => exists r, nodes_with_text g t = id :: r)
          [a; b; c; d; e; f] [na; nb; nc; nd; ne; nf] ->
  let g' := exec (_add_cooccurrence_edges cfg es doc) g in
  outcome (_add_cooccurrence_edges cfg es doc) g = Ok tt /\
  nodes g' = nodes g /\
  edges g' =
  [((na, nb), co_occurs); ((na, nc), co_occurs); ((na, nd), co_occurs);
   ((na, ne), co_occurs);
   ((nb, nc), co_occurs); ((nb, nd), co_occurs); ((nb, ne), co_occurs);
   ((nb, nf), co_occurs);
   ((nc, nd), co_occurs); ((nc, ne), co_occurs); ((nc, nf), co_occurs);
   ((nd, ne), co_occurs); ((nd, nf), co_occurs);
   ((ne, nf), co_occurs)] /\
  no_self_loops g' /\
  (forall u v, In (u, v) (edge_keys g') ->
     exists i j, (i < j <= i + 4)%nat /\
       nth_error [na; nb; nc; nd; ne; nf] i = Some u /\
       nth_error [na; nb; nc; nd; ne; nf] j = Some v).
Proof.
  intros Hwf He Hts Hes Hids g'.
  assert (Hnd : NoDup [na; nb; nc; nd; ne; nf])
    by (eapply resolved_ids_distinct; eauto; apply Hwf).
  pose proof (NoDup_nth_eqb _ Hnd) as Hneq_id.
  pose proof (NoDup_nth_eqb _ Hts) as Hneq_t.
  assert (Hrun : _add_cooccurrence_edges cfg es doc g =
                 (Ok tt, link_texts [a; b; c; d; e; f] g)).
  { unfold _add_cooccurrence_edges, bind.
    now rewrite (entity_texts_all _ _ _ _ Hes). }
  assert (Hedges : link_texts [a; b; c; d; e; f] g =
    mk_graph (nodes g)
      [((na, nb), co_occurs); ((na, nc), co_occurs); ((na, nd), co_occurs);
       ((na, ne), co_occurs);
       ((nb, nc), co_occurs); ((nb, nd), co_occurs); ((nb, ne), co_occurs);
       ((nb, nf), co_occurs);
       ((nc, nd), co_occurs); ((nc, ne), co_occurs); ((nc, nf), co_occurs);
       ((nd, ne), co_occurs); ((nd, nf), co_occurs);
       ((ne, nf), co_occurs)]).
  { destruct g as [ns E]. simpl in He. subst E. simpl nodes.
    repeat match goal with
           | H : Forall2 _ (_ :: _) (_ :: _) |- _ =>
               inversion H; clear H; subst
           end.
    repeat match goal with
           | H : exists r, _ |- _ => destruct H
           end.
    clear Hes.
    unfold link_texts, enumerate, slice.
    cbn [List.length seq combine fold_left Nat.add Nat.sub firstn skipn].
    pose_distinct Hneq_t. clear Hneq_t.
    repeat (rewrite link_window_cons_neq by assumption).
    rewrite !link_window_nil.
    pose_distinct Hneq_id. clear Hneq_id.
    unfold co_occurs.
    repeat (erewrite add_relationship_fresh;
            [ | eassumption | eassumption | absent_edge ]; simpl app).
    reflexivity. }
  assert (Hg' : g' = link_texts [a; b; c; d; e; f] g)
    by (unfold g', exec; now rewrite Hrun).
  split; [unfold outcome; now rewrite Hrun|].
  split; [rewrite Hg'; apply link_texts_nodes|].
  split; [rewrite Hg', Hedges; reflexivity|].
  assert (Hspan : forall u v, In (u, v) (edge_keys g') ->
     exists i j, (i < j <= i + 4)%nat /\
       nth_error [na; nb; nc; nd; ne; nf] i = Some u /\
       nth_error [na; nb; nc; nd; ne; nf] j = Some v).
  { intros u v. rewrite Hg', Hedges. unfold edge_keys. simpl.
    intros H.
    repeat (destruct H as [H|H];
            [inversion H; subst; clear H|]); [..|destruct H].
    - exists 0%nat, 1%nat. repeat split; lia.
    - exists 0%nat, 2%nat. repeat split; lia.
    - exists 0%nat, 3%nat. repeat split; lia.
    - exists 0%nat, 4%nat. repeat split; lia.
    - exists 1%nat, 2%nat. repeat split; lia.
    - exists 1%nat, 3%nat. repeat split; lia.
    - exists 1%nat, 4%nat. repeat split; lia.
    - exists 1%nat, 5%nat. repeat split; lia.
    - exists 2%nat, 3%nat. repeat split; lia.
    - exists 2%nat, 4%nat. repeat split; lia.
    - exists 2%nat, 5%nat. repeat split; lia.
    - exists 3%nat, 4%nat. repeat split; lia.
    - exists 3%nat, 5%nat. repeat split; lia.
    - exists 4%nat, 5%nat. repeat split; lia. }
  split; [|exact Hspan].
  intros u v Huv. destruct (Hspan u v Huv) as (i & j & Hij & Hi & Hj).
  apply String.eqb_neq. apply (Hneq_id i j); [lia|assumption..].
Qed.

Lemma window_linking_witness :
  edges (exec (_add_cooccurrence_edges default_config six_entities (Some "doc1"))
              six_nodes) =
  [(("A_ORG", "B_ORG"), co_occurs); (("A_ORG", "C_ORG"), co_occurs);
   (("A_ORG", "D_ORG"), co_occurs); (("A_ORG", "E_ORG"), co_occurs);
   (("B_ORG", "C_ORG"), co_occurs); (("B_ORG", "D_ORG"), co_occurs);
   (("B_ORG", "E_ORG"), co_occurs); (("B_ORG", "F_ORG"), co_occurs);
   (("C_ORG", "D_ORG"), co_occurs); (("C_ORG", "E_ORG"), co_occurs);
   (("C_ORG", "F_ORG"), co_occurs);
   (("D_ORG", "E_ORG"), co_occurs); (("D_ORG", "F_ORG"), co_occurs);
   (("E_ORG", "F_ORG"), co_occurs)].
Proof.
  refine (proj1 (proj2 (proj2
    (window_linking default_config six_nodes (Some "doc1") six_entities
       "A" "B" "C" "D" "E" "F"
       "A_ORG" "B_ORG" "C_ORG" "D_ORG" "E_ORG" "F_ORG" _ _ _ _ _)))).
  - split.
    + repeat constructor; simpl; intuition discriminate.
    + intros u v [].
  - reflexivity.
  - repeat constructor; simpl; intuition discriminate.
  - repeat constructor.
  - repeat constructor; eexists; reflexivity.
Defined.

(** ** Malformed entity records *)

Lemma process_document_unfold cfg data :
  process_document cfg data =
  bind (for_each (entities data) (ingest_entity cfg (doc_id data)))
       (fun _ => _add_cooccurrence_edges cfg (entities data) (doc_id data)).
Proof. reflexivity. Qed.

Lemma for_each_app_raise {A} (pre post : list A) x body g ex :
  outcome (for_each pre body) g = Ok tt ->
  body x (exec (for_each pre body) g) =
    (Raise ex, exec (for_each pre body) g) ->
  for_each (pre ++ x :: post) body g =
    (Raise ex, exec (for_each pre body) g).
Proof.
  revert g. induction pre as [|y pre IH]; intros g Hok Hx; simpl in *.
  - unfold bind. unfold exec in Hx; simpl in Hx. now rewrite Hx.
  - rewrite outcome_bind in Hok. rewrite exec_bind in Hx |- *.
    unfold bind. unfold outcome, exec in *.
    destruct (body y g) as [[[]|ey] g1]; simpl in *; [|discriminate].
    now apply IH.
Qed.

(** With text and label present [add_entity] always succeeds: it creates
    the node or merges into it. *)
Lemma add_entity_lookup e d g t l :
  e_text e = Some t -> e_label e = Some l ->
  outcome (add_entity e d) g = Ok tt /\
  lookup_node (nodes (exec (add_entity e d) g)) (node_id_of t l) =
  Some (match lookup_node (nodes g) (node_id_of t l) with
        | None =>
            mk_node t l (get_confidence e)
              (match truthy d with Some s => [s] | None => [] end) 1
        | Some nd => merge_node (get_confidence e) d nd
        end).
Proof.
  intros Ht Hl.
  destruct (lookup_node (nodes g) (node_id_of t l)) as [nd|] eqn:Hlk.
  - now apply add_entity_again.
  - apply add_entity_first; auto.
    unfold has_node. now rewrite Hlk.
Qed.

(** C4, counterexample.  A confidence of 1.5 is accepted and stored as
    given, and a record without a label stops the whole build with a
    [KeyError]: the valid entity after it is never added. *)
Lemma validation_counterexample :
  let out_of_range := mk_entity (Some "Ada") (Some "PERSON") (Some (3 # 2)%Q) in
  let no_label := mk_entity (Some "Ada") None (Some 1%Q) in
  let good := mk_entity (Some "London") (Some "GPE") (Some 1%Q) in
  add_entity out_of_range (Some "doc1") empty_graph =
    (Ok tt,
     mk_graph [("Ada_PERSON", mk_node "Ada" "PERSON" (3 # 2)%Q ["doc1"] 1)] [])
  /\
  build_from_extractions insertion_order default_config
    [mk_document (Some "doc1") [no_label; good]] empty_graph =
    (Raise (KeyError "label"), empty_graph).
Proof. split; reflexivity. Qed.

(** C4, amended.  [add_entity] validates nothing.  A record carrying a
    text and a label is accepted whatever its confidence: a new node
    stores the confidence as given, an existing node folds it into its
    mean.  A record lacking the text or the label makes [add_entity]
    raise [KeyError] with the graph untouched; the build does not catch
    it, so when such a record passes the confidence test the build stops
    there with that error, the entities before it added and nothing after
    it processed.  A record below [min_confidence] is skipped without an
    error and the loop goes on. *)
Theorem validation_absent so cfg e d g :
  (forall t l,
     e_text e = Some t -> e_label e = Some l ->
     outcome (add_entity e d) g = Ok tt /\
     lookup_node (nodes (exec (add_entity e d) g)) (node_id_of t l) =
     Some (match lookup_node (nodes g) (node_id_of t l) with
           | None =>
               mk_node t l (get_confidence e)
                 (match truthy d with Some s => [s] | None => [] end) 1
           | Some nd => merge_node (get_confidence e) d nd
           end)) /\
  (e_text e = None \/ e_label e = None ->
   (exists k, add_entity e d g = (Raise (KeyError k), g)) /\
   (passes cfg e = true ->
    forall pre post files g0,
      outcome (for_each pre (ingest_entity cfg d)) g0 = Ok tt ->
      exists k,
        build_from_extractions so cfg
          (mk_document d (pre ++ e :: post) :: files) g0 =
        (Raise (KeyError k), exec (for_each pre (ingest_entity cfg d)) g0))) /\
  (passes cfg e = false ->
   forall post,
     for_each (e :: post) (ingest_entity cfg d) g =
     for_each post (ingest_entity cfg d) g).
Proof.
  split; [|split].
  - intros t l. apply add_entity_lookup.
  - intros Hmiss.
    assert (Hraise : forall g1, exists k,
              add_entity e d g1 = (Raise (KeyError k), g1)).
    { intros g1. destruct (e_text e) as [t|] eqn:Ht.
      - destruct Hmiss as [Hm|Hm]; [discriminate|].
        eexists. now apply (add_entity_no_label _ _ _ t).
      - eexists. now apply add_entity_no_text. }
    split; [apply Hraise|].
    intros Hp pre post files g0 Hok.
    destruct (Hraise (exec (for_each pre (ingest_entity cfg d)) g0)) as [k Hk].
    exists k. unfold build_from_extractions, ingest. simpl for_each.
    rewrite process_document_unfold. simpl entities. simpl doc_id.
    unfold bind at 1 2 3.
    rewrite (for_each_app_raise pre post e (ingest_entity cfg d) g0 (KeyError k) Hok).
    + reflexivity.
    + unfold ingest_entity. now rewrite Hp.
  - intros Hp post. simpl. unfold bind, ingest_entity at 1.
    now rewrite Hp.
Qed.

Lemma validation_absent_witness :
  let no_label := mk_entity (Some "Ada") None (Some 1%Q) in
  let first := mk_entity (Some "Paris") (Some "GPE") (Some 1%Q) in
  let good := mk_entity (Some "London") (Some "GPE") (Some 1%Q) in
  exists k,
    build_from_extractions insertion_order default_config
      [mk_document (Some "doc1") ([first] ++ no_label :: [good])] empty_graph =
    (Raise (KeyError k),
     mk_graph [("Paris_GPE", mk_node "Paris" "GPE" 1%Q ["doc1"] 1)] []).
Proof.
  intros no_label first good.
  exact (proj2 (proj1 (proj2
           (validation_absent insertion_order default_config no_label
              (Some "doc1") empty_graph))
           (or_intror eq_refl))
         eq_refl [first] [good] [] empty_graph eq_refl).
Defined.

(** ** Default confidence *)

(** C10.  A record without a confidence field counts as confidence 1.0
    everywhere: with [min_confidence <= 1] it passes the test of the
    ingestion loop (so [add_entity] is called for it) and the test of the
    co-occurrence filter (so its text is among the linked texts); a node
    created from it stores confidence 1, and a merge into an existing
    node folds 1 into the running mean. *)
Theorem absent_confidence_is_one cfg e :
  e_confidence e = None ->
  (min_confidence cfg <= 1)%Q ->
  get_confidence e = 1%Q /\
  passes cfg e = true /\
  (forall d post g,
     for_each (e :: post) (ingest_entity cfg d) g =
     bind (add_entity e d) (fun _ => for_each post (ingest_entity cfg d)) g) /\
  (forall t post g,
     e_text e = Some t ->
     entity_texts cfg (e :: post) g =
     bind (entity_texts cfg post) (fun ts => ret (t :: ts)) g) /\
  (forall d g t l,
     e_text e = Some t -> e_label e = Some l ->
     lookup_node (nodes (exec (add_entity e d) g)) (node_id_of t l) =
     Some (match lookup_node (nodes g) (node_id_of t l) with
           | None =>
               mk_node t l 1%Q
                 (match truthy d with Some s => [s] | None => [] end) 1
           | Some nd =>
               mk_node (text nd) (label nd)
                 ((confidence nd * inject_Z (count nd + 1 - 1) + 1)
                  / inject_Z (count nd + 1))%Q
                 (sources (merge_node 1%Q d nd)) (count nd + 1)
           end)).
Proof.
  intros Hc Hmin.
  assert (H1 : get_confidence e = 1%Q) by (unfold get_confidence; now rewrite Hc).
  assert (Hp : passes cfg e = true).
  { unfold passes. rewrite H1. now apply Qle_bool_iff. }
  split; [exact H1|]. split; [exact Hp|]. split; [|split].
  - intros d post g. simpl. unfold ingest_entity at 1. now rewrite Hp.
  - intros t post g Ht. simpl. rewrite Hp. unfold bind. now rewrite Ht.
  - intros d g t l Ht Hl.
    destruct (add_entity_lookup e d g t l Ht Hl) as [_ ->].
    rewrite H1. destruct (lookup_node (nodes g) (node_id_of t l)); reflexivity.
Qed.

Lemma absent_confidence_is_one_witness :
  passes default_config (mk_entity (Some "Ada") (Some "PERSON") None) = true.
Proof.
  refine (proj1 (proj2
    (absent_confidence_is_one default_config
       (mk_entity (Some "Ada") (Some "PERSON") None) eq_refl _))).
  unfold Qle; simpl; lia.
Defined.

(** ** Node identity *)

Lemma has_underscore_join t l : has_underscore (node_id_of t l) = true.
Proof.
  unfold node_id_of. induction t as [|c t IH]; simpl in *.
  - reflexivity.
  - rewrite IH. apply orb_true_r.
Qed.

(** The join is injective on texts that carry no underscore. *)
Lemma node_id_inj_text t1 l1 t2 l2 :
  has_underscore t1 = false -> has_underscore t2 = false ->
  node_id_of t1 l1 = node_id_of t2 l2 -> t1 = t2 /\ l1 = l2.
Proof.
  unfold node_id_of. revert t2.
  induction t1 as [|c1 t1 IH]; intros [|c2 t2] H1 H2 E; simpl in *.
  - inversion E. auto.
  - inversion E; subst. unfold underscore in H2.
    rewrite Ascii.eqb_refl in H2. discriminate.
  - inversion E; subst. unfold underscore in H1.
    rewrite Ascii.eqb_refl in H1. discriminate.
  - inversion E; subst.
    apply orb_false_elim in H1, H2.
    destruct (IH t2) as [-> ->]; tauto.
Qed.

Lemma node_id_nil l : node_id_of EmptyString l = String underscore l.
Proof. reflexivity. Qed.

Lemma node_id_cons c t l : node_id_of (String c t) l = String c (node_id_of t l).
Proof. reflexivity. Qed.

(** The join is injective on labels that carry no underscore. *)
Lemma node_id_inj_label t1 l1 t2 l2 :
  has_underscore l1 = false -> has_underscore l2 = false ->
  node_id_of t1 l1 = node_id_of t2 l2 -> t1 = t2 /\ l1 = l2.
Proof.
  revert t2.
  induction t1 as [|c1 t1 IH]; intros [|c2 t2] H1 H2 E;
    rewrite ?node_id_nil, ?node_id_cons in E.
  - inversion E. auto.
  - inversion E as [[Hc Hl]]. rewrite Hl in H1.
    rewrite has_underscore_join in H1. discriminate.
  - inversion E as [[Hc Hl]]. rewrite <- Hl in H2.
    rewrite has_underscore_join in H2. discriminate.
  - inversion E as [[Hc Hl]].
    destruct (IH t2 H1 H2 Hl) as [-> ->]. auto.
Qed.

(** C5, counterexample.  The pairs ("A_B", "C") and ("A", "B_C") differ,
    yet both are stored under the key "A_B_C": adding one entity of each
    leaves a single node with count 2. *)
Lemma node_key_collision :
  let e1 := mk_entity (Some "A_B") (Some "C") (Some 1%Q) in
  let e2 := mk_entity (Some "A") (Some "B_C") (Some 1%Q) in
  ("A_B", "C") <> ("A", "B_C") /\
  node_id_of "A_B" "C" = node_id_of "A" "B_C" /\
  exists nd,
    nodes (exec (add_all [(e1, Some "doc1"); (e2, Some "doc1")]) empty_graph) =
      [("A_B_C", nd)] /\
    text nd = "A_B" /\ label nd = "C" /\ count nd = 2.
Proof.
  split; [discriminate|]. split; [reflexivity|].
  eexists. split; [reflexivity|]. repeat split.
Qed.

(** C5, amended.  The node key is the string text + "_" + label of the
    raw text.  Two entities with the same (text, label) pair always merge
    into one node: the second call adds no key and raises the count by
    one.  Two entities whose joined keys differ are two distinct nodes;
    pairs that differ have different joined keys whenever neither text,
    or neither label, contains an underscore. *)
Theorem node_identity e1 d1 e2 d2 t1 l1 t2 l2 g :
  e_text e1 = Some t1 -> e_label e1 = Some l1 ->
  e_text e2 = Some t2 -> e_label e2 = Some l2 ->
  let g1 := exec (add_entity e1 d1) g in
  let g2 := exec (add_entity e2 d2) g1 in
  ((t1, l1) = (t2, l2) ->
   keys g2 = keys g1 /\
   exists nd,
     lookup_node (nodes g1) (node_id_of t1 l1) = Some nd /\
     lookup_node (nodes g2) (node_id_of t1 l1) =
       Some (merge_node (get_confidence e2) d2 nd)) /\
  (node_id_of t1 l1 <> node_id_of t2 l2 ->
   In (node_id_of t1 l1) (keys g2) /\ In (node_id_of t2 l2) (keys g2) /\
   lookup_node (nodes g2) (node_id_of t1 l1) =
     lookup_node (nodes g1) (node_id_of t1 l1)) /\
  ((t1, l1) <> (t2, l2) ->
   (has_underscore t1 = false /\ has_underscore t2 = false) \/
   (has_underscore l1 = false /\ has_underscore l2 = false) ->
   node_id_of t1 l1 <> node_id_of t2 l2).
Proof.
  intros Ht1 Hl1 Ht2 Hl2 g1 g2.
  destruct (add_entity_lookup e1 d1 g t1 l1 Ht1 Hl1) as [_ Hlk1].
  fold g1 in Hlk1.
  destruct (add_entity_lookup e2 d2 g1 t2 l2 Ht2 Hl2) as [_ Hlk2].
  fold g2 in Hlk2.
  split; [|split].
  - intros [= <- <-]. rewrite Hlk1 in Hlk2.
    split; [|eexists; split; [exact Hlk1|exact Hlk2]].
    unfold g2, exec.
    rewrite (add_entity_merge e2 d2 g1 t1 l1 Ht2 Hl2).
    + unfold keys; simpl. apply update_node_keys.
    + apply has_node_lookup. eauto.
  - intros Hne.
    assert (Hin2 : In (node_id_of t2 l2) (keys g2)).
    { apply has_node_true, has_node_lookup. eauto. }
    assert (Hsame : lookup_node (nodes g2) (node_id_of t1 l1) =
                    lookup_node (nodes g1) (node_id_of t1 l1)).
    { unfold g2, exec.
      destruct (add_entity_cases e2 d2 g1)
        as [[k ->]|(t & l & Ht & Hl & [[Hn ->]|[Hn ->]])]; simpl.
      - reflexivity.
      - rewrite Ht2 in Ht. rewrite Hl2 in Hl.
        inversion Ht; inversion Hl; subst t l.
        rewrite lookup_node_app, Hlk1. reflexivity.
      - rewrite Ht2 in Ht. rewrite Hl2 in Hl.
        inversion Ht; inversion Hl; subst t l.
        now apply lookup_update_node_other. }
    split; [|split; [exact Hin2|exact Hsame]].
    apply has_node_true, has_node_lookup. rewrite Hsame. eauto.
  - intros Hne [[H1 H2]|[H1 H2]] E; apply Hne.
    + destruct (node_id_inj_text _ _ _ _ H1 H2 E); congruence.
    + destruct (node_id_inj_label _ _ _ _ H1 H2 E); congruence.
Qed.

Lemma node_identity_witness :
  let e1 := mk_entity (Some "Paris") (Some "GPE") (Some 1%Q) in
  let e2 := mk_entity (Some "Paris") (Some "PERSON") (Some 1%Q) in
  In "Paris_GPE"
     (keys (exec (add_all [(e1, Some "doc1"); (e2, Some "doc1")]) empty_graph)) /\
  In "Paris_PERSON"
     (keys (exec (add_all [(e1, Some "doc1"); (e2, Some "doc1")]) empty_graph)).
Proof.
  intros e1 e2.
  destruct (node_identity e1 (Some "doc1") e2 (Some "doc1")
              "Paris" "GPE" "Paris" "PERSON" empty_graph
              eq_refl eq_refl eq_refl eq_refl) as (_ & Hdiff & _).
  destruct Hdiff as (H1 & H2 & _); [discriminate|].
  split; [exact H1|exact H2].
Defined.

(** ** Self-loops *)

(** C7, counterexample.  [add_relationship] has no test of its own:
    called with the same text on both sides it stores an edge from the
    node to itself. *)
Lemma self_loop_counterexample :
  let ada := mk_entity (Some "Ada") (Some "PERSON") (Some 1%Q) in
  run_ops [AddEntity ada (Some "doc1");
           AddRelationship "Ada" "Ada" "RELATED_TO" 1%Q] empty_graph =
  (Ok tt,
   mk_graph [("Ada_PERSON", mk_node "Ada" "PERSON" 1%Q ["doc1"] 1)]
            [(("Ada_PERSON", "Ada_PERSON"), mk_edge "RELATED_TO" 1%Q 1)]) /\
  ~ no_self_loops
      (exec (run_ops [AddEntity ada (Some "doc1");
                      AddRelationship "Ada" "Ada" "RELATED_TO" 1%Q])
            empty_graph).
Proof.
  split; [reflexivity|].
  intros H. apply (H "Ada_PERSON" "Ada_PERSON"); [|reflexivity].
  left. reflexivity.
Qed.

(** C7, amended.  Starting from a well-formed graph without self-loops,
    every sequence of [add_entity], co-occurrence-linking and
    [add_relationship] operations in which each direct
    [add_relationship] call names two different texts leaves a graph
    without self-loops, whether the sequence completes or stops on an
    exception.  Co-occurrence linking needs no such proviso: it skips
    every pair of equal texts itself. *)
Theorem no_self_loops_preserved ops g :
  wf g -> no_self_loops g ->
  Forall texts_differ ops ->
  no_self_loops (exec (run_ops ops) g) /\ wf (exec (run_ops ops) g).
Proof.
  intros Hwf Hl Hops.
  assert (H : loop_free_wf (exec (run_ops ops) g)).
  { unfold run_ops. revert g Hwf Hl.
    induction Hops as [|o ops Ho _ IH]; intros g Hwf Hl; simpl.
    - now split.
    - rewrite exec_bind.
      assert (Hstep : loop_free_wf (exec (run_op o) g)).
      { destruct o as [e d|s t r w|cfg es d]; simpl.
        - apply add_entity_inv. now split.
        - unfold exec, modify; simpl. split.
          + now apply add_relationship_wf.
          + apply add_relationship_no_self_loops; [apply Hwf|exact Ho|exact Hl].
        - apply cooccurrence_inv. now split. }
      destruct (outcome (run_op o) g); [|exact Hstep].
      apply IH; apply Hstep. }
  split; apply H.
Qed.

Lemma no_self_loops_preserved_witness :
  no_self_loops
    (exec (run_ops
             [AddEntity (mk_entity (Some "Ada") (Some "PERSON") None) (Some "doc1");
              AddEntity (mk_entity (Some "London") (Some "GPE") None) (Some "doc1");
              AddRelationship "Ada" "London" "LIVES_IN" 1%Q;
              Cooccurrence default_config
                [mk_entity (Some "Ada") (Some "PERSON") None;
                 mk_entity (Some "Ada") (Some "PERSON") None;
                 mk_entity (Some "London") (Some "GPE") None] (Some "doc1")])
          empty_graph).
Proof.
  refine (proj1 (no_self_loops_preserved _ empty_graph wf_empty _ _)).
  - intros u v [].
  - repeat constructor. discriminate.
Defined.

(** ** Relationship resolution *)

(** C8.  [add_relationship] never raises.  When no node carries the
    source text, or none carries the target text, the graph is returned
    as it is.  Otherwise each side resolves to the first node, in
    insertion order, that carries the text; the nodes are left alone;
    and an edge already stored between the two resolved nodes gets its
    weight increased by the given weight and its count by one, its type
    and all other edges being kept, while a missing edge is appended
    with the given type and weight and count 1. *)
Theorem add_relationship_resolution s t r w g :
  (nodes_with_text g s = [] \/ nodes_with_text g t = [] ->
   add_relationship s t r w g = g) /\
  (forall sid rs tid rt,
     nodes_with_text g s = sid :: rs ->
     nodes_with_text g t = tid :: rt ->
     let g' := add_relationship s t r w g in
     (exists l1 d l2,
        nodes g = l1 ++ (sid, d) :: l2 /\ text d = s /\
        forall x, In x l1 -> text (snd x) <> s) /\
     (exists l1 d l2,
        nodes g = l1 ++ (tid, d) :: l2 /\ text d = t /\
        forall x, In x l1 -> text (snd x) <> t) /\
     nodes g' = nodes g /\
     (forall ed,
        lookup_edge (edges g) (sid, tid) = Some ed ->
        lookup_edge (edges g') (sid, tid) =
          Some (mk_edge (rel_type ed) (weight ed + w)%Q (ecount ed + 1)) /\
        edge_keys g' = edge_keys g /\
        forall k, k <> (sid, tid) ->
          lookup_edge (edges g') k = lookup_edge (edges g) k) /\
     (lookup_edge (edges g) (sid, tid) = None ->
      edges g' = edges g ++ [((sid, tid), mk_edge r w 1)])).
Proof.
  split.
  - unfold add_relationship. intros [->| ->]; [reflexivity|].
    destruct (nodes_with_text g s); reflexivity.
  - intros sid rs tid rt Hs Ht g'.
    split; [eapply nodes_with_text_head; eauto|].
    split; [eapply nodes_with_text_head; eauto|].
    split; [apply add_relationship_nodes|].
    destruct g as [ns E]. split.
    + intros ed Hed. unfold g'.
      assert (Hs' : nodes_with_text (mk_graph ns []) s = sid :: rs) by exact Hs.
      assert (Ht' : nodes_with_text (mk_graph ns []) t = tid :: rt) by exact Ht.
      rewrite (add_relationship_seen ns E s t sid tid rs rt r w ed Hs' Ht' Hed).
      simpl. split; [exact (lookup_update_edge_same _ _ _ _ Hed)|].
      split; [apply update_edge_keys|].
      intros k Hk. now apply lookup_update_edge_other.
    + intros Hnone. unfold g'.
      assert (Hs' : nodes_with_text (mk_graph ns []) s = sid :: rs) by exact Hs.
      assert (Ht' : nodes_with_text (mk_graph ns []) t = tid :: rt) by exact Ht.
      now rewrite (add_relationship_fresh ns E s t sid tid rs rt r w Hs' Ht' Hnone).
Qed.

Lemma add_relationship_resolution_witness :
  let g :=
    exec (add_all
            [(mk_entity (Some "Paris") (Some "GPE") None, Some "doc1");
             (mk_entity (Some "Paris") (Some "PERSON") None, Some "doc1");
             (mk_entity (Some "Seine") (Some "LOC") None, Some "doc1")])
         empty_graph in
  edges (add_relationship "Paris" "Seine" "NEAR" 1%Q g) =
    [(("Paris_GPE", "Seine_LOC"), mk_edge "NEAR" 1%Q 1)] /\
  add_relationship "Paris" "Rhine" "NEAR" 1%Q g = g.
Proof.
  intros g. split.
  - refine (proj2 (proj2 (proj2 (proj2
      (proj2 (add_relationship_resolution "Paris" "Seine" "NEAR" 1%Q g)
         "Paris_GPE" ["Paris_PERSON"] "Seine_LOC" [] eq_refl eq_refl)))) eq_refl).
  - refine (proj1 (add_relationship_resolution "Paris" "Rhine" "NEAR" 1%Q g) _).
    right. reflexivity.
Defined.

(** ** Centrality ranking *)

Lemma before_in_r {A} (x y : A) l : before x y l -> In y l.
Proof. induction 1; simpl; auto. Qed.

Lemma before_in_l {A} (x y : A) l : before x y l -> In x l.
Proof. induction 1; simpl; auto. Qed.

Lemma before_map {A B} (f : A -> B) x y l :
  before x y l -> before (f x) (f y) (map f l).
Proof.
  induction 1; simpl.
  - apply before_here. now apply in_map.
  - now apply before_later.
Qed.

Lemma in_firstn {A} (x : A) n l : In x (firstn n l) -> In x l.
Proof.
  intros H. rewrite <- (firstn_skipn n l). apply in_or_app. now left.
Qed.

Lemma before_firstn {A} (x y : A) l n :
  NoDup l -> before x y l -> In y (firstn n l) -> In x (firstn n l).
Proof.
  intros Hnd Hb. revert n. induction Hb as [l Hy|h l Hb IH]; intros [|n] Hin;
    simpl in *; try contradiction.
  - now left.
  - inversion Hnd as [|? ? Hh Hnd']; subst.
    destruct Hin as [->|Hin].
    + exfalso. apply Hh. eapply before_in_r; eauto.
    + right. now apply IH.
Qed.

Lemma degree_centrality_map g :
  degree_centrality g = map (fun k => (k, centrality g k)) (keys g).
Proof.
  unfold degree_centrality, centrality, keys. rewrite map_map.
  destruct (List.length (nodes g) <=? 1)%nat; reflexivity.
Qed.

Lemma insert_desc_perm x l : Permutation (x :: l) (insert_desc x l).
Proof.
  induction l as [|y l IH]; simpl; [reflexivity|].
  destruct (Qle_bool (snd y) (snd x)); [reflexivity|].
  rewrite perm_swap. now constructor.
Qed.

Lemma sorted_desc_perm l : Permutation l (sorted_desc l).
Proof.
  induction l as [|x l IH]; simpl; [constructor|].
  rewrite <- insert_desc_perm. now constructor.
Qed.

Lemma insert_desc_sorted x l :
  StronglySorted score_ge l -> StronglySorted score_ge (insert_desc x l).
Proof.
  induction 1 as [|y l Hs IH Hall]; simpl.
  - repeat constructor.
  - destruct (Qle_bool (snd y) (snd x)) eqn:E.
    + apply Qle_bool_iff in E.
      constructor; [now constructor|].
      constructor; [exact E|].
      eapply Forall_impl; [|exact Hall].
      intros z Hz. unfold score_ge in *. now apply Qle_trans with (snd y).
    + constructor; [exact IH|].
      eapply Permutation_Forall; [apply insert_desc_perm|].
      constructor; [|exact Hall].
      unfold score_ge. apply Qlt_le_weak, Qnot_le_lt.
      intros H. apply Qle_bool_iff in H. congruence.
Qed.

Lemma sorted_desc_sorted l : StronglySorted score_ge (sorted_desc l).
Proof.
  induction l as [|x l IH]; simpl; [constructor|].
  now apply insert_desc_sorted.
Qed.

Lemma insert_desc_in x y l : In y l -> In y (insert_desc x l).
Proof.
  intros H. eapply Permutation_in; [apply insert_desc_perm|]. now right.
Qed.

Lemma insert_desc_before x y l :
  In y l -> (snd y <= snd x)%Q -> before x y (insert_desc x l).
Proof.
  intros Hin Hle. induction l as [|z l IH]; simpl; [destruct Hin|].
  destruct (Qle_bool (snd z) (snd x)) eqn:E.
  - now apply before_here.
  - apply before_later. apply IH.
    destruct Hin as [->|Hin]; [|exact Hin].
    apply Qle_bool_iff in Hle. congruence.
Qed.

Lemma insert_desc_keeps_before z x y l :
  before x y l -> before x y (insert_desc z l).
Proof.
  induction 1 as [l Hy|h l Hb IH]; simpl.
  - destruct (Qle_bool (snd x) (snd z)).
    + apply before_later. now apply before_here.
    + apply before_here. now apply insert_desc_in.
  - destruct (Qle_bool (snd h) (snd z)).
    + apply before_later. now apply before_later.
    + now apply before_later.
Qed.

(** Stability: an item keeps its place in front of every later item
    that does not score strictly higher. *)
Lemma sorted_desc_stable x y l :
  before x y l -> (snd y <= snd x)%Q -> before x y (sorted_desc l).
Proof.
  intros Hb Hle. induction Hb as [l Hy|h l Hb IH]; simpl.
  - apply insert_desc_before; [|exact Hle].
    eapply Permutation_in; [apply sorted_desc_perm|exact Hy].
  - now apply insert_desc_keeps_before.
Qed.

Lemma ranked_keys_perm g : Permutation (keys g) (map fst (ranked g)).
Proof.
  unfold ranked. rewrite <- sorted_desc_perm, degree_centrality_map.
  rewrite map_map. simpl. now rewrite map_id.
Qed.

Lemma slice_to_firstn {A} (l : list A) m :
  exists n, slice_to l m = firstn n l.
Proof. unfold slice_to. destruct (0 <=? m); eexists; reflexivity. Qed.

Lemma map_M_lookup g (l : list (string * Q)) :
  (forall p, In p l -> In (fst p) (keys g)) ->
  exists tops,
    map_M (fun p : string * Q =>
             bind (getitem (fst p) (lookup_node (nodes g) (fst p)))
                  (fun nd => ret (text nd, snd p))) l g = (Ok tops, g) /\
    Forall2 (fun p top =>
               snd top = snd p /\
               exists nd, lookup_node (nodes g) (fst p) = Some nd /\
                          fst top = text nd) l tops.
Proof.
  set (f := fun p : string * Q =>
              bind (getitem (fst p) (lookup_node (nodes g) (fst p)))
                   (fun nd => ret (text nd, snd p))).
  induction l as [|p l IH]; intros Hin.
  - exists []. split; [reflexivity|constructor].
  - destruct IH as (tops & Hrun & Hall); [intros q Hq; apply Hin; now right|].
    assert (Hp : In (fst p) (keys g)) by (apply Hin; now left).
    apply has_node_true, has_node_lookup in Hp. destruct Hp as [nd Hnd].
    exists ((text nd, snd p) :: tops).
    assert (Hf : f p g = (Ok (text nd, snd p), g)).
    { unfold f, bind. now rewrite Hnd. }
    split.
    + change (map_M f (p :: l) g)
        with (bind (f p) (fun y => bind (map_M f l)
                                     (fun ys => ret (y :: ys))) g).
      unfold bind at 1. rewrite Hf. unfold bind at 1. now rewrite Hrun.
    + constructor; [|exact Hall].
      split; [reflexivity|]. eauto.
Qed.

Lemma nodes_to_keep_in cfg g k :
  In k (nodes_to_keep cfg g) -> In k (keys g).
Proof.
  unfold nodes_to_keep. intros H.
  destruct (slice_to_firstn (ranked g) (max_nodes cfg)) as [n Hn].
  rewrite Hn, <- firstn_map in H. apply in_firstn in H.
  eapply Permutation_in; [symmetry; apply ranked_keys_perm|exact H].
Qed.

Lemma kept_has_node cfg g k :
  mem k (nodes_to_keep cfg g) && has_node g k = mem k (nodes_to_keep cfg g).
Proof.
  destruct (mem k (nodes_to_keep cfg g)) eqn:E; [|reflexivity].
  apply mem_in, nodes_to_keep_in, has_node_true in E. now rewrite E.
Qed.

Lemma NoDup_firstn {A} n (l : list A) : NoDup l -> NoDup (firstn n l).
Proof.
  intros H. rewrite <- (firstn_skipn n l) in H.
  now apply NoDup_app_remove_r in H.
Qed.

Lemma nodes_to_keep_NoDup cfg g :
  NoDup (keys g) -> NoDup (nodes_to_keep cfg g).
Proof.
  intros H. unfold nodes_to_keep.
  destruct (slice_to_firstn (ranked g) (max_nodes cfg)) as [n ->].
  rewrite <- firstn_map. apply NoDup_firstn.
  eapply Permutation_NoDup; [apply ranked_keys_perm|exact H].
Qed.

(** *** The node order of a pruned graph *)

Lemma before_filter {A} (f : A -> bool) x y l :
  before x y l -> f x = true -> f y = true -> before x y (filter f l).
Proof.
  intros Hb Hx Hy. induction Hb as [l Hin|h l Hb IH]; simpl.
  - rewrite Hx. apply before_here. apply filter_In. now split.
  - destruct (f h); [now apply before_later|exact IH].
Qed.

Lemma filter_all {A} (f : A -> bool) l :
  (forall x, In x l -> f x = true) -> filter f l = l.
Proof.
  induction l as [|a l IH]; simpl; intros H; [reflexivity|].
  rewrite (H a) by now left. f_equal. apply IH. intros x Hx. apply H. now right.
Qed.

Lemma filter_map_fst {A} (p : string -> bool) (ns : list (string * A)) :
  map fst (filter (fun n => p (fst n)) ns) = filter p (map fst ns).
Proof.
  induction ns as [|n ns IH]; simpl; [reflexivity|].
  destruct (p (fst n)); simpl; now rewrite IH.
Qed.

Lemma set_iter_length so so' l :
  List.length (set_iter so l) = List.length (set_iter so' l).
Proof.
  apply Permutation_length, NoDup_Permutation; try apply set_iter_NoDup.
  intros x. now rewrite !set_iter_In.
Qed.

Lemma set_iter_length_NoDup so l :
  NoDup l -> List.length (set_iter so l) = List.length l.
Proof.
  intros H. apply Permutation_length, NoDup_Permutation;
    [apply set_iter_NoDup|exact H|apply set_iter_In].
Qed.

Lemma shown_all g keep :
  incl keep (keys g) -> filter (has_node g) keep = keep.
Proof.
  intros H. apply filter_all. intros x Hx. apply has_node_true. now apply H.
Qed.

(** The view is walked through the nodes of [g]: the copy keeps the
    order the kept nodes have in [g], whatever the interpreter. *)
Lemma subgraph_keys_walk so g keep :
  (List.length (nodes g) <=
   2 * List.length (set_iter so (filter (has_node g) keep)))%nat ->
  keys (subgraph so g keep) = filter (fun k => mem k keep) (keys g) /\
  forall so', subgraph so' g keep = subgraph so g keep.
Proof.
  intros Hlen.
  assert (Hb : forall so1,
            (2 * List.length (set_iter so1 (filter (has_node g) keep)) <?
             List.length (nodes g))%nat = false).
  { intros so1. apply Nat.ltb_ge.
    now rewrite (set_iter_length so1 so). }
  split.
  - unfold keys, subgraph. cbv beta zeta. rewrite Hb. simpl nodes.
    rewrite (filter_map_fst
               (fun k => mem k (set_iter so (filter (has_node g) keep)))).
    apply filter_ext_in. intros k Hk. rewrite mem_shown.
    apply has_node_true in Hk. rewrite Hk. apply andb_true_r.
  - intros so'. unfold subgraph. cbv beta zeta. rewrite !Hb. f_equal.
    + apply filter_ext. intros n. now rewrite !mem_shown.
    + apply filter_ext. intros e. now rewrite !mem_shown.
Qed.

(** The view is walked through the set: the copy has its nodes in the
    order in which the interpreter iterates over the set. *)
Lemma subgraph_keys_set so g keep :
  incl keep (keys g) ->
  (2 * List.length (set_iter so (filter (has_node g) keep)) <
   List.length (nodes g))%nat ->
  keys (subgraph so g keep) = set_iter so keep.
Proof.
  intros Hin Hlen. apply Nat.ltb_lt in Hlen.
  unfold keys, subgraph. cbv beta zeta. rewrite Hlen. simpl nodes.
  rewrite flat_map_node_of_keys, (shown_all g keep Hin).
  apply filter_all. intros x Hx. apply has_node_true, Hin.
  now apply set_iter_In in Hx.
Qed.

(** *** The order in which ingestion creates the nodes *)

Lemma mem_keys g k : mem k (keys g) = has_node g k.
Proof. apply bool_ext. now rewrite mem_in, has_node_true. Qed.

Lemma add_entity_order e d g :
  outcome (add_entity e d) g = Ok tt ->
  keys (exec (add_entity e d) g) = fold_left note_key (record_id e) (keys g).
Proof.
  unfold outcome, exec, record_id.
  destruct (add_entity_cases e d g)
    as [[k0 ->]|(t & l & Ht & Hl & [[Hn ->]|[Hn ->]])]; simpl;
    [discriminate| |]; intros _; rewrite Ht, Hl; simpl;
    unfold note_key; rewrite mem_keys, Hn; unfold keys; simpl.
  - now rewrite map_app.
  - now rewrite update_node_keys.
Qed.

Lemma ingest_entities_order cfg d es : forall g,
  outcome (for_each es (ingest_entity cfg d)) g = Ok tt ->
  keys (exec (for_each es (ingest_entity cfg d)) g) =
  fold_left note_key (flat_map (passing_id cfg) es) (keys g).
Proof.
  induction es as [|e es IH]; intros g Hok; [reflexivity|].
  simpl for_each in *. rewrite outcome_bind in Hok. rewrite exec_bind.
  destruct (outcome (ingest_entity cfg d e) g) as [[]|ex] eqn:Ho;
    [|discriminate].
  rewrite (IH _ Hok). simpl flat_map. rewrite fold_left_app. f_equal.
  unfold ingest_entity, passing_id in *. destruct (passes cfg e).
  - rewrite (add_entity_order _ _ _ Ho). unfold record_id.
    destruct (e_text e); [destruct (e_label e)|]; reflexivity.
  - reflexivity.
Qed.

Lemma ingest_order cfg files : forall g,
  outcome (ingest cfg files) g = Ok tt ->
  keys (exec (ingest cfg files) g) =
  fold_left note_key (passing_ids cfg files) (keys g).
Proof.
  unfold ingest, passing_ids.
  induction files as [|data files IH]; intros g Hok; [reflexivity|].
  simpl for_each in *. rewrite outcome_bind in Hok. rewrite exec_bind.
  destruct (outcome (process_document cfg data) g) as [[]|ex] eqn:Ho;
    [|discriminate].
  rewrite (IH _ Hok). simpl flat_map. rewrite fold_left_app. f_equal.
  unfold process_document in *. rewrite outcome_bind in Ho.
  rewrite exec_bind.
  destruct (outcome (for_each (entities data)
                       (ingest_entity cfg (doc_id data))) g)
    as [[]|ex] eqn:Ho1; [|discriminate].
  unfold keys at 1. rewrite cooccurrence_nodes.
  now apply ingest_entities_order.
Qed.

(** C6, counterexample.  Five nodes are created in the order B, A, D,
    C, E; A and C are the two most central and [max_nodes] is 2, so the
    pruned copy holds A and C, each with centrality 1.  Fewer than half
    of the nodes are kept, so the copy has its nodes in the order of a
    Python set.  On an interpreter that iterates the set as C, A the
    top-entities list names C before A, although A was created before C;
    on an interpreter that iterates it as A, C the list names A first,
    so the same input gives two different results. *)
Lemma tie_break_follows_set_order :
  let gi := exec (ingest tie_config tie_files) empty_graph in
  let built := fun so =>
    exec (build_from_extractions so tie_config tie_files) empty_graph in
  keys gi = ["B_ORG"; "A_ORG"; "D_ORG"; "C_ORG"; "E_ORG"] /\
  nodes_to_keep tie_config gi = ["A_ORG"; "C_ORG"] /\
  keys (built reverse_order) = ["C_ORG"; "A_ORG"] /\
  (centrality (built reverse_order) "A_ORG" ==
   centrality (built reverse_order) "C_ORG")%Q /\
  outcome (_get_top_entities 10) (built reverse_order) =
    Ok [("C", 1%Q); ("A", 1%Q)] /\
  outcome (_get_top_entities 10) (built insertion_order) =
    Ok [("A", 1%Q); ("C", 1%Q)].
Proof. vm_compute. repeat split; reflexivity. Qed.

(** C6, amended.  Both [_prune_graph] and [_get_top_entities] rank the
    nodes of the graph they are given by degree centrality, highest
    first, and of two nodes with equal centrality the one that stands
    first in that graph's node order is ranked first; the pruner never
    keeps the later of the two without the earlier, and the top-K list
    follows the ranking entry by entry.  The node order of the graph
    that ingestion builds is the order in which the nodes were created,
    so the pruner breaks ties by creation order, and so does the top-K
    list of a graph that was not pruned.  Pruning that keeps at least
    half of the nodes leaves the kept nodes in their creation order on
    every interpreter, so the top-K list of the pruned graph still breaks
    ties by creation order.  Pruning that keeps fewer than half of the
    nodes leaves them in the order in which the interpreter iterates
    over a set, and the top-K list of the pruned graph breaks ties in
    that order.  For a build whose ingestion completes: the nodes are
    created in the order in which their keys first occur among the
    passing records; and when the graph the build leaves holds at least
    half of the nodes created, it is the same graph on every
    interpreter and its ranking breaks ties by creation order. *)
Theorem deterministic_tie_break :
  (forall g,
     NoDup (keys g) ->
     StronglySorted score_ge (ranked g) /\
     (forall a b,
        before a b (keys g) ->
        (centrality g a == centrality g b)%Q ->
        before (a, centrality g a) (b, centrality g b) (ranked g) /\
        (forall cfg,
           In b (nodes_to_keep cfg g) -> In a (nodes_to_keep cfg g)) /\
        (forall n,
           In (b, centrality g b) (slice_to (ranked g) n) ->
           In (a, centrality g a) (slice_to (ranked g) n))) /\
     (forall n,
        exists tops,
          _get_top_entities n g = (Ok tops, g) /\
          Forall2 (fun p top =>
                     snd top = snd p /\
                     exists nd, lookup_node (nodes g) (fst p) = Some nd /\
                                fst top = text nd)
                  (slice_to (ranked g) n) tops) /\
     (forall so cfg,
        let keep := nodes_to_keep cfg g in
        let g' := subgraph so g keep in
        NoDup (keys g') /\
        ((List.length (nodes g) <= 2 * List.length keep)%nat ->
         keys g' = filter (fun k => mem k keep) (keys g) /\
         (forall so', subgraph so' g keep = g') /\
         (forall a b,
            before a b (keys g) -> In a keep -> In b keep ->
            (centrality g' a == centrality g' b)%Q ->
            before (a, centrality g' a) (b, centrality g' b) (ranked g'))) /\
        ((2 * List.length keep < List.length (nodes g))%nat ->
         keys g' = set_iter so keep /\
         (forall a b,
            before a b (set_iter so keep) ->
            (centrality g' a == centrality g' b)%Q ->
            before (a, centrality g' a) (b, centrality g' b)
                   (ranked g'))))) /\
  (forall cfg files,
     outcome (ingest cfg files) empty_graph = Ok tt ->
     let created := fold_left note_key (passing_ids cfg files) [] in
     let gi := exec (ingest cfg files) empty_graph in
     keys gi = created /\
     (forall a b,
        before a b created ->
        (centrality gi a == centrality gi b)%Q ->
        In b (nodes_to_keep cfg gi) -> In a (nodes_to_keep cfg gi)) /\
     (forall so,
        let g' := exec (build_from_extractions so cfg files) empty_graph in
        (List.length created <= 2 * List.length (nodes g'))%nat ->
        (forall so',
           exec (build_from_extractions so' cfg files) empty_graph = g') /\
        (forall a b,
           before a b created -> In a (keys g') -> In b (keys g') ->
           (centrality g' a == centrality g' b)%Q ->
           before (a, centrality g' a) (b, centrality g' b) (ranked g')))).
Proof.
  assert (Hstable : forall g a b,
            before a b (keys g) ->
            (centrality g a == centrality g b)%Q ->
            before (a, centrality g a) (b, centrality g b) (ranked g)).
  { intros g a b Hab Hc. unfold ranked. apply sorted_desc_stable.
    - rewrite degree_centrality_map.
      now apply (before_map (fun k => (k, centrality g k))).
    - simpl. rewrite Hc. apply Qle_refl. }
  assert (Hlen : forall so cfg g,
            NoDup (keys g) ->
            List.length (set_iter so (filter (has_node g)
                                        (nodes_to_keep cfg g))) =
            List.length (nodes_to_keep cfg g)).
  { intros so cfg g Hnd. rewrite shown_all.
    - apply set_iter_length_NoDup. now apply nodes_to_keep_NoDup.
    - intros k Hk. now apply (nodes_to_keep_in cfg). }
  assert (Hwalk : forall so cfg g,
            NoDup (keys g) ->
            let keep := nodes_to_keep cfg g in
            let g' := subgraph so g keep in
            (List.length (nodes g) <= 2 * List.length keep)%nat ->
            keys g' = filter (fun k => mem k keep) (keys g) /\
            (forall so', subgraph so' g keep = g') /\
            (forall a b,
               before a b (keys g) -> In a keep -> In b keep ->
               (centrality g' a == centrality g' b)%Q ->
               before (a, centrality g' a) (b, centrality g' b)
                      (ranked g'))).
  { intros so cfg g Hnd keep g' Hhalf.
    destruct (subgraph_keys_walk so g keep) as [Hkeys Hsame];
      [unfold keep; rewrite Hlen by exact Hnd; exact Hhalf|].
    split; [exact Hkeys|]. split; [exact Hsame|].
    intros a b Hab Ha Hb Hc. apply Hstable; [|exact Hc].
    fold g' in Hkeys. rewrite Hkeys.
    apply before_filter; [exact Hab| |]; now apply mem_in. }
  assert (Hkept : forall g a b cfg,
            NoDup (keys g) ->
            before a b (keys g) ->
            (centrality g a == centrality g b)%Q ->
            In b (nodes_to_keep cfg g) -> In a (nodes_to_keep cfg g)).
  { intros g a b cfg Hnd Hab Hc. unfold nodes_to_keep.
    destruct (slice_to_firstn (ranked g) (max_nodes cfg)) as [n ->].
    rewrite <- firstn_map. apply before_firstn.
    - eapply Permutation_NoDup; [apply ranked_keys_perm|exact Hnd].
    - apply (before_map fst (a, centrality g a) (b, centrality g b)).
      now apply Hstable. }
  split.
  - intros g Hnd.
    assert (Hndk : NoDup (map fst (ranked g))).
    { eapply Permutation_NoDup; [apply ranked_keys_perm|exact Hnd]. }
    assert (Hndr : NoDup (ranked g)) by (eapply NoDup_map_inv; exact Hndk).
    split; [apply sorted_desc_sorted|]. split; [|split].
    + intros a b Hab Hc. pose proof (Hstable g a b Hab Hc) as Hb.
      split; [exact Hb|]. split.
      * intros cfg. now apply Hkept.
      * intros n. destruct (slice_to_firstn (ranked g) n) as [k ->].
        now apply before_firstn.
    + intros n.
      destruct (map_M_lookup g (slice_to (ranked g) n))
        as (tops & Hrun & Hall).
      { intros p Hp. destruct (slice_to_firstn (ranked g) n) as [k Hk].
        rewrite Hk in Hp. apply in_firstn in Hp.
        eapply Permutation_in; [symmetry; apply ranked_keys_perm|].
        now apply in_map. }
      exists tops. split; [|exact Hall].
      unfold _get_top_entities, bind, get_graph. exact Hrun.
    + intros so cfg keep g'.
      split; [now apply subgraph_keys_NoDup|]. split.
      * now apply Hwalk.
      * intros Hhalf.
        assert (Hkeys : keys g' = set_iter so keep).
        { apply subgraph_keys_set.
          - intros k Hk. now apply (nodes_to_keep_in cfg).
          - unfold keep. rewrite Hlen by exact Hnd. exact Hhalf. }
        split; [exact Hkeys|].
        intros a b Hab Hc. apply Hstable; [|exact Hc]. now rewrite Hkeys.
  - intros cfg files Hok created gi.
    assert (Hwf : wf gi) by apply ingest_wf, wf_empty.
    assert (Hkeys : keys gi = created).
    { apply (ingest_order cfg files empty_graph Hok). }
    split; [exact Hkeys|]. split.
    { intros a b Hab Hc. apply Hkept; [apply Hwf|now rewrite Hkeys|exact Hc]. }
    assert (Hrun : forall so,
              exec (build_from_extractions so cfg files) empty_graph =
              if Z.of_nat (List.length (nodes gi)) >? max_nodes cfg
              then subgraph so gi (nodes_to_keep cfg gi) else gi).
    { intros so. unfold exec at 1.
      rewrite (build_run so cfg files empty_graph Hok).
      unfold exec. now rewrite prune_if_needed_run. }
    intros so g'. unfold g'. rewrite Hrun.
    destruct (Z.of_nat (List.length (nodes gi)) >? max_nodes cfg) eqn:Hgt.
    + intros Hhalf.
      rewrite subgraph_exact_size in Hhalf;
        [|apply Hwf|now apply nodes_to_keep_NoDup; apply Hwf
         |intros k Hk; now apply (nodes_to_keep_in cfg)].
      assert (Hhalf' : (List.length (nodes gi) <=
                        2 * List.length (nodes_to_keep cfg gi))%nat).
      { rewrite <- Hkeys in Hhalf. unfold keys in Hhalf.
        now rewrite length_map in Hhalf. }
      destruct (Hwalk so cfg gi (proj1 Hwf) Hhalf') as (_ & Hsame & Htie).
      split.
      * intros so'. rewrite Hrun. apply Hsame.
      * intros a b Hab Ha Hb Hc. apply Htie; [now rewrite Hkeys| | |exact Hc].
        -- now apply subgraph_keys_in in Ha.
        -- now apply subgraph_keys_in in Hb.
    + intros _. split.
      * intros so'. now rewrite Hrun.
      * intros a b Hab _ _ Hc. apply Hstable; [|exact Hc]. now rewrite Hkeys.
Qed.

Lemma deterministic_tie_break_witness :
  let cfg := mk_config (3 # 10)%Q 3 (85 # 100)%Q in
  let g' :=
    exec (build_from_extractions reverse_order cfg tie_files) empty_graph in
  keys g' = ["B_ORG"; "A_ORG"; "C_ORG"] /\
  before ("B_ORG", centrality g' "B_ORG") ("C_ORG", centrality g' "C_ORG")
         (ranked g').
Proof.
  intros cfg g'. split; [reflexivity|].
  destruct (proj2 deterministic_tie_break cfg tie_files eq_refl)
    as (_ & _ & Hbuild).
  destruct (Hbuild reverse_order) as (_ & Htie); [vm_compute; lia|].
  apply Htie.
  - vm_compute. apply before_here. simpl. auto.
  - vm_compute. auto.
  - vm_compute. auto.
  - reflexivity.
Defined.

(** ** Flat interchange transform *)

Lemma append_assoc (a b c : string) : ((a ++ b) ++ c = a ++ (b ++ c))%string.
Proof. induction a as [|x a IH]; simpl; [reflexivity|now rewrite IH]. Qed.

Lemma chars_append a b : chars (a ++ b)%string = chars a ++ chars b.
Proof. induction a as [|x a IH]; simpl; [reflexivity|now rewrite IH]. Qed.

Lemma filter_partition_perm {A} (p : A -> bool) (l : list A) :
  Permutation (filter p l ++ filter (fun x => negb (p x)) l) l.
Proof.
  induction l as [|x l IH]; simpl; [constructor|].
  destruct (p x); simpl.
  - now constructor.
  - rewrite <- Permutation_middle. now constructor.
Qed.

Lemma filter_filter_implied {A} (p q : A -> bool) (l : list A) :
  (forall x, p x = true -> q x = true) ->
  filter p (filter q l) = filter p l.
Proof.
  intros H. induction l as [|x l IH]; simpl; [reflexivity|].
  destruct (q x) eqn:Hq; simpl; rewrite IH; [reflexivity|].
  destruct (p x) eqn:Hp; [|reflexivity].
  apply H in Hp. congruence.
Qed.

Lemma flat_map_ext_in {A B} (f g : A -> list B) (l : list A) :
  (forall a, In a l -> f a = g a) -> flat_map f l = flat_map g l.
Proof.
  induction l as [|a l IH]; simpl; intros H; [reflexivity|].
  rewrite (H a) by now left. f_equal. apply IH. intros x Hx. apply H.
  now right.
Qed.

(** Listing a table source by source loses nothing and repeats nothing,
    provided every source is among the keys walked. *)
Lemma by_source_perm {A} (src : A -> string) (ks : list string) :
  forall es : list A,
    NoDup ks ->
    (forall e, In e es -> In (src e) ks) ->
    Permutation
      (flat_map (fun k => filter (fun e => String.eqb (src e) k) es) ks) es.
Proof.
  induction ks as [|k ks IH]; intros es Hnd Hin.
  - destruct es as [|e es]; [constructor|].
    destruct (Hin e (or_introl eq_refl)).
  - inversion Hnd as [|? ? Hk Hnd']; subst. simpl.
    set (es' := filter (fun e => negb (String.eqb (src e) k)) es).
    eapply Permutation_trans;
      [|apply (filter_partition_perm (fun e => String.eqb (src e) k) es)].
    apply Permutation_app_head. fold es'.
    apply Permutation_trans
      with (flat_map
              (fun k' => filter (fun e => String.eqb (src e) k') es') ks).
    + apply Permutation_refl'. apply flat_map_ext_in.
      intros k' Hk'. unfold es'. symmetry. apply filter_filter_implied.
      intros e He. apply String.eqb_eq in He.
      destruct (String.eqb_spec (src e) k) as [E|]; [|reflexivity].
      exfalso. apply Hk. congruence.
    + apply (IH es' Hnd').
      intros e He. apply filter_In in He. destruct He as [He Hne].
      destruct (Hin e He) as [E|E]; [|exact E].
      rewrite E, String.eqb_refl in Hne. discriminate.
Qed.

Lemma edge_list_perm g : wf g -> Permutation (edge_list g) (edges g).
Proof.
  intros [Hnd Hcl]. unfold edge_list.
  assert (E : forall ns : node_table,
            flat_map (fun n => filter (fun e : edge_key * edge_data =>
                                         String.eqb (fst (fst e)) (fst n))
                                      (edges g)) ns =
            flat_map (fun k => filter (fun e : edge_key * edge_data =>
                                         String.eqb (fst (fst e)) k)
                                      (edges g)) (map fst ns)).
  { induction ns as [|n ns IH]; simpl; [reflexivity|now rewrite IH]. }
  rewrite E. apply by_source_perm; [exact Hnd|].
  intros [[u v] ed] He. simpl. apply (Hcl u v).
  unfold edge_keys. apply in_map_iff. now exists (u, v, ed).
Qed.

Section FlatFormProperties.

Variable ip : ascii -> bool.

Lemma clean_value_scalar v : is_scalar (clean_value ip v) = true.
Proof. destruct v; reflexivity. Qed.

Lemma clean_value_fixes_scalar v :
  is_scalar v = true -> clean_value ip v = v.
Proof. destruct v; simpl; congruence. Qed.

Lemma clean_value_idem v :
  clean_value ip (clean_value ip v) = clean_value ip v.
Proof. apply clean_value_fixes_scalar, clean_value_scalar. Qed.

Lemma clean_data_idem data :
  clean_data ip (clean_data ip data) = clean_data ip data.
Proof.
  unfold clean_data. rewrite map_map. apply map_ext.
  intros [k v]. simpl. now rewrite clean_value_idem.
Qed.

Lemma clean_data_scalar data : all_scalar (clean_data ip data).
Proof.
  unfold all_scalar, clean_data. apply Forall_forall.
  intros kv Hin. apply in_map_iff in Hin. destruct Hin as (x & <- & _).
  apply clean_value_scalar.
Qed.

(** *** Reading a literal back *)

Lemma quote_of_cases s : quote_of s = "'"%char \/ quote_of s = dquote.
Proof. unfold quote_of. destruct (_ && _); auto. Qed.

(** The reader undoes [repr] character by character. *)
Lemma read_body_char q c tail :
  q = "'"%char \/ q = dquote ->
  read_body q (repr_char ip q c ++ tail) = push c (read_body q tail).
Proof.
  unfold repr_char.
  intros [->| ->]; destruct (ip c);
    destruct c as [[] [] [] [] [] [] [] []]; reflexivity.
Qed.

Lemma read_body_repr q s rest :
  q = "'"%char \/ q = dquote ->
  read_body q (repr_body ip q s ++ String q rest) = Some (s, rest).
Proof.
  intros Hq. induction s as [|c s IH].
  - simpl. now rewrite Ascii.eqb_refl.
  - simpl repr_body. rewrite append_assoc, read_body_char by exact Hq.
    now rewrite IH.
Qed.

(** A literal is never a proper prefix of another: what follows it is
    determined as well. *)
Lemma repr_str_prefix s1 s2 r1 r2 :
  (repr_str ip s1 ++ r1 = repr_str ip s2 ++ r2)%string ->
  s1 = s2 /\ r1 = r2.
Proof.
  unfold repr_str. simpl. rewrite !append_assoc. simpl.
  intros H. injection H as Hq Ht. rewrite <- Hq in Ht.
  apply (f_equal (read_body (quote_of s1))) in Ht.
  rewrite !read_body_repr in Ht by apply quote_of_cases.
  now injection Ht.
Qed.

Lemma repr_str_head s :
  exists q tail,
    repr_str ip s = String q tail /\ (q = "'"%char \/ q = dquote).
Proof.
  unfold repr_str. eexists _, _. split; [reflexivity|].
  apply quote_of_cases.
Qed.

Lemma join_cons x y l :
  join ", " (map (repr_str ip) (x :: y :: l)) =
  (repr_str ip x ++ ", " ++ join ", " (map (repr_str ip) (y :: l)))%string.
Proof. reflexivity. Qed.

(** The items of a list followed by the closing bracket. *)
Lemma items_cons x l :
  (join ", " (map (repr_str ip) (x :: l)) ++ "]" =
   repr_str ip x ++
   match l with
   | [] => "]"
   | _ :: _ => ", " ++ (join ", " (map (repr_str ip) l) ++ "]")
   end)%string.
Proof.
  destruct l as [|y l]; [reflexivity|].
  now rewrite join_cons, !append_assoc.
Qed.

Lemma items_inj l1 : forall l2,
  (join ", " (map (repr_str ip) l1) ++ "]" =
   join ", " (map (repr_str ip) l2) ++ "]")%string ->
  l1 = l2.
Proof.
  induction l1 as [|x l1 IH]; intros [|y l2] H.
  - reflexivity.
  - exfalso. rewrite items_cons in H.
    destruct (repr_str_head y) as (q & t & E & [-> | ->]);
      rewrite E in H; discriminate.
  - exfalso. rewrite items_cons in H.
    destruct (repr_str_head x) as (q & t & E & [-> | ->]);
      rewrite E in H; discriminate.
  - rewrite !items_cons in H. apply repr_str_prefix in H.
    destruct H as [-> H]. f_equal.
    destruct l1 as [|x1 l1], l2 as [|y1 l2]; try discriminate.
    + reflexivity.
    + apply IH. now injection H.
Qed.

(** Two lists of strings with the same string form are the same list. *)
Lemma str_list_inj l1 l2 : str_list ip l1 = str_list ip l2 -> l1 = l2.
Proof.
  unfold str_list. intros H. injection H as H.
  now apply items_inj.
Qed.

(** *** The characters of the string form *)

Lemma repr_char_text q c :
  q = "'"%char \/ q = dquote ->
  forallb (text_char ip) (chars (repr_char ip q c)) = true.
Proof.
  unfold repr_char, text_char.
  intros [->| ->]; destruct (ip c) eqn:E;
    destruct c as [[] [] [] [] [] [] [] []];
    try reflexivity; vm_compute; rewrite E; reflexivity.
Qed.

Lemma repr_body_text q s :
  q = "'"%char \/ q = dquote ->
  forallb (text_char ip) (chars (repr_body ip q s)) = true.
Proof.
  intros Hq. induction s as [|c s IH]; [reflexivity|].
  simpl repr_body. rewrite chars_append, forallb_app, IH.
  now rewrite repr_char_text.
Qed.

Lemma quote_text q :
  q = "'"%char \/ q = dquote -> text_char ip q = true.
Proof. intros [->| ->]; reflexivity. Qed.

Lemma repr_str_text s :
  forallb (text_char ip) (chars (repr_str ip s)) = true.
Proof.
  unfold repr_str. simpl chars. simpl forallb.
  rewrite chars_append, forallb_app, repr_body_text by apply quote_of_cases.
  simpl. now rewrite (quote_text _ (quote_of_cases s)).
Qed.

Lemma items_text l :
  forallb (text_char ip) (chars (join ", " (map (repr_str ip) l))) = true.
Proof.
  induction l as [|x l IH]; [reflexivity|].
  destruct l as [|y l]; [apply repr_str_text|].
  rewrite join_cons, !chars_append, !forallb_app, repr_str_text, IH.
  reflexivity.
Qed.

Lemma str_list_text l :
  forallb (text_char ip) (chars (str_list ip l)) = true.
Proof.
  unfold str_list. rewrite !chars_append, !forallb_app, items_text.
  reflexivity.
Qed.

Lemma str_list_nonempty l : str_list ip l <> EmptyString.
Proof. unfold str_list. discriminate. Qed.

(** C9.  The flat transform sends every attribute value to a scalar and
    leaves a scalar as it is.  A list of strings becomes the text Python
    prints for it: [sources = ["doc1", "doc2"]] becomes the string
    ['doc1', 'doc2']; [None] becomes the string None.  The text of a
    list belongs to that list alone (two lists with the same text are
    the same list), is never empty and consists of printable characters
    only, whatever the document names contain.
    The transform forgets that the value was a list: the text itself, as
    a string attribute, has the same flat form.  So a re-import that
    gives back every non-empty printable string attribute as written
    yields that text and not the list.  Applying the transform a second
    time changes nothing, on a value and on a whole graph.  In the
    prepared graph each node keeps its id and its five attributes,
    [sources] replaced by its text; the edges are listed source by
    source, each edge of a well-formed graph once and with its
    attributes; and every attribute of every node and edge is a scalar. *)
Theorem flat_interchange :
  (forall v, is_scalar (clean_value ip v) = true) /\
  (forall v, is_scalar v = true -> clean_value ip v = v) /\
  (forall l, clean_value ip (VList l) = VStr (str_list ip l)) /\
  clean_value ip VNone = VStr "None" /\
  str_list ip ["doc1"; "doc2"] = "['doc1', 'doc2']" /\
  (forall l1 l2, str_list ip l1 = str_list ip l2 -> l1 = l2) /\
  (forall l,
     str_list ip l <> EmptyString /\
     forall c, In c (chars (str_list ip l)) -> text_char ip c = true) /\
  (forall l,
     clean_value ip (VStr (str_list ip l)) = clean_value ip (VList l)) /\
  (forall reimport : value -> option value,
     (forall s,
        s <> EmptyString ->
        (forall c, In c (chars s) -> text_char ip c = true) ->
        reimport (VStr s) = Some (VStr s)) ->
     forall l,
       reimport (clean_value ip (VList l)) = Some (VStr (str_list ip l)) /\
       reimport (clean_value ip (VList l)) <> Some (VList l)) /\
  (forall v, clean_value ip (clean_value ip v) = clean_value ip v) /\
  (forall a, clean_graph ip (clean_graph ip a) = clean_graph ip a) /\
  (forall g,
     a_nodes (_prepare_graph_for_graphml ip g) =
       map (fun n =>
              (fst n,
               [("text", VStr (text (snd n)));
                ("label", VStr (label (snd n)));
                ("confidence", VFloat (confidence (snd n)));
                ("sources", VStr (str_list ip (sources (snd n))));
                ("count", VInt (count (snd n)))]))
           (nodes g) /\
     a_edges (_prepare_graph_for_graphml ip g) =
       map (fun e => (fst e, edge_attrs (snd e))) (edge_list g) /\
     (wf g -> Permutation (edge_list g) (edges g)) /\
     Forall (fun n => all_scalar (snd n))
            (a_nodes (_prepare_graph_for_graphml ip g)) /\
     Forall (fun e => all_scalar (snd e))
            (a_edges (_prepare_graph_for_graphml ip g))).
Proof.
  assert (Htext : forall l c,
            In c (chars (str_list ip l)) -> text_char ip c = true).
  { intros l c Hc. pose proof (str_list_text l) as H.
    rewrite forallb_forall in H. now apply H. }
  split; [exact clean_value_scalar|].
  split; [exact clean_value_fixes_scalar|].
  split; [reflexivity|].
  split; [reflexivity|].
  split; [reflexivity|].
  split; [exact str_list_inj|].
  split; [intros l; split; [apply str_list_nonempty|apply Htext]|].
  split; [reflexivity|].
  split.
  { intros reimport Hre l. simpl clean_value.
    rewrite (Hre _ (str_list_nonempty l) (Htext l)).
    split; [reflexivity|discriminate]. }
  split; [exact clean_value_idem|].
  split.
  - intros [ns es]. unfold clean_graph; simpl. rewrite !map_map. simpl.
    f_equal; apply map_ext; intros [k data]; simpl;
      now rewrite clean_data_idem.
  - intros g. unfold _prepare_graph_for_graphml, clean_graph, graph_attrs.
    simpl. rewrite !map_map. simpl.
    split; [reflexivity|]. split; [reflexivity|].
    split; [apply edge_list_perm|].
    split; apply Forall_forall; intros x Hin;
      apply in_map_iff in Hin; destruct Hin as (y & <- & _); simpl.
    + repeat constructor.
    + repeat constructor.
Qed.

End FlatFormProperties.

Lemma flat_interchange_witness :
  let nbsp := ascii_of_nat 160 in
  let name := String "a"%char (String nbsp "b") in
  str_list latin1_isprintable [name; "it's"] =
    ("['a\xa0b', " ++ String dquote ("it's" ++ String dquote "]"))%string /\
  (fun v => Some v) (clean_value latin1_isprintable (VList [name; "it's"])) =
  Some (VStr (str_list latin1_isprintable [name; "it's"])).
Proof.
  intros nbsp name. split; [reflexivity|].
  destruct (flat_interchange latin1_isprintable)
    as (_ & _ & _ & _ & _ & _ & _ & _ & Hre & _).
  apply (Hre (fun v => Some v)). intros s _ _. reflexivity.
Defined.

(** * Further properties of the builder *)

(** ** How the loops compose *)

Lemma for_each_cons {A} (x : A) l body g :
  for_each (x :: l) body g =
  match body x g with
  | (Ok _, g') => for_each l body g'
  | (Raise ex, g') => (Raise ex, g')
  end.
Proof. reflexivity. Qed.

Lemma for_each_app {A} (l1 l2 : list A) body g :
  for_each (l1 ++ l2) body g =
  bind (for_each l1 body) (fun _ => for_each l2 body) g.
Proof.
  revert g. induction l1 as [|x l1 IH]; intros g.
  - reflexivity.
  - simpl app. rewrite for_each_cons. unfold bind at 1.
    rewrite for_each_cons.
    destruct (body x g) as [[[]|ex] g1]; [|reflexivity].
    rewrite IH. reflexivity.
Qed.

Lemma ingest_entities_ops cfg d es g :
  for_each es (ingest_entity cfg d) g =
  for_each (map (fun e => AddEntity e d) (filter (passes cfg) es)) run_op g.
Proof.
  revert g. induction es as [|e es IH]; intros g; [reflexivity|].
  rewrite for_each_cons. simpl filter. unfold ingest_entity at 1.
  destruct (passes cfg e).
  - simpl map. rewrite for_each_cons. simpl run_op.
    destruct (add_entity e d g) as [[[]|ex] g1]; [apply IH|reflexivity].
  - simpl. apply IH.
Qed.

Lemma process_document_ops cfg data g :
  process_document cfg data g = run_ops (doc_ops cfg data) g.
Proof.
  unfold run_ops, doc_ops. rewrite for_each_app.
  unfold process_document, bind. rewrite ingest_entities_ops.
  destruct (for_each _ run_op g) as [[[]|ex] g1]; [|reflexivity].
  rewrite for_each_cons. simpl run_op.
  destruct (_add_cooccurrence_edges cfg (entities data) (doc_id data) g1)
    as [[[]|ex] g2]; reflexivity.
Qed.

Lemma ingest_ops cfg files g :
  ingest cfg files g = run_ops (flat_map (doc_ops cfg) files) g.
Proof.
  unfold ingest, run_ops. revert g.
  induction files as [|data files IH]; intros g; [reflexivity|].
  rewrite for_each_cons. simpl flat_map. rewrite for_each_app.
  unfold bind. rewrite process_document_ops. unfold run_ops.
  destruct (for_each (doc_ops cfg data) run_op g) as [[[]|ex] g1];
    [apply IH|reflexivity].
Qed.

Lemma build_exec so cfg files g :
  exec (build_from_extractions so cfg files) g =
  match outcome (ingest cfg files) g with
  | Ok _ => exec (prune_if_needed so cfg) (exec (ingest cfg files) g)
  | Raise _ => exec (ingest cfg files) g
  end.
Proof.
  unfold build_from_extractions, exec, outcome, bind.
  destruct (ingest cfg files g) as [[[]|ex] gi]; simpl; [|reflexivity].
  rewrite prune_if_needed_run. reflexivity.
Qed.

(** An invariant kept by [add_entity], by the linking and by taking a
    subgraph holds of whatever graph a build leaves behind. *)
Lemma build_inv so (P : graph -> Prop) cfg files g :
  (forall e d g, P g -> P (exec (add_entity e d) g)) ->
  (forall cfg es d g, P g -> P (exec (_add_cooccurrence_edges cfg es d) g)) ->
  (forall g keep, P g -> P (subgraph so g keep)) ->
  P g -> P (exec (build_from_extractions so cfg files) g).
Proof.
  intros Hadd Hlink Hsub Hg.
  assert (Hi : P (exec (ingest cfg files) g)).
  { unfold ingest. apply for_each_inv; [|exact Hg].
    intros data g1 Hg1. unfold process_document. rewrite exec_bind.
    assert (H1 : P (exec (for_each (entities data)
                            (ingest_entity cfg (doc_id data))) g1)).
    { apply for_each_inv; [|exact Hg1].
      intros e g2 Hg2. unfold ingest_entity.
      destruct (passes cfg e); [now apply Hadd|exact Hg2]. }
    destruct (outcome _ g1); [now apply Hlink|exact H1]. }
  rewrite build_exec. destruct (outcome (ingest cfg files) g); [|exact Hi].
  unfold exec. rewrite prune_if_needed_run. simpl.
  destruct (_ >? _); [now apply Hsub|exact Hi].
Qed.

Lemma entity_texts_filter cfg es g :
  entity_texts cfg (filter (passes cfg) es) g = entity_texts cfg es g.
Proof.
  induction es as [|e es IH]; [reflexivity|]. simpl.
  destruct (passes cfg e) eqn:Hp; [|exact IH].
  simpl. rewrite Hp. unfold bind.
  destruct (e_text e) as [t|]; simpl; [|reflexivity].
  unfold ret at 1. cbv beta iota. now rewrite IH.
Qed.

Lemma filter_idem {A} (f : A -> bool) l : filter f (filter f l) = filter f l.
Proof.
  induction l as [|x l IH]; [reflexivity|]. simpl.
  destruct (f x) eqn:E; simpl; [rewrite E|]; congruence.
Qed.

(** X1.  Records below the confidence threshold are as good as absent:
    processing an extraction file gives the same outcome and the same
    graph as processing it with those records removed. *)
Theorem below_threshold_is_absent cfg d es g :
  process_document cfg (mk_document d es) g =
  process_document cfg (mk_document d (filter (passes cfg) es)) g.
Proof.
  unfold process_document; simpl. unfold bind.
  rewrite !ingest_entities_ops, filter_idem.
  destruct (for_each _ run_op g) as [[[]|ex] g1]; [|reflexivity].
  unfold _add_cooccurrence_edges, bind.
  now rewrite entity_texts_filter.
Qed.

(** ** Node attributes *)

Lemma Forall_update_node (P : string * node_data -> Prop) ns k f :
  (forall k d, P (k, d) -> P (k, f d)) ->
  Forall P ns -> Forall P (update_node ns k f).
Proof.
  intros Hf. induction 1 as [|[k' d] ns Hd Hns IH]; simpl; [constructor|].
  destruct (String.eqb k' k); constructor; auto.
Qed.

(** A property of single nodes that holds of a freshly created node and
    survives a merge holds of every node, whatever is done to the graph. *)
Lemma run_op_nodes_forall (P : string * node_data -> Prop) :
  (forall e d t l,
     e_text e = Some t -> e_label e = Some l ->
     P (node_id_of t l,
        mk_node t l (get_confidence e)
          (match truthy d with Some s => [s] | None => [] end) 1)) ->
  (forall k nd c d, P (k, nd) -> P (k, merge_node c d nd)) ->
  forall o g, Forall P (nodes g) -> Forall P (nodes (exec (run_op o) g)).
Proof.
  intros Hnew Hmerge [e d|s t r w|cfg es d] g Hg; simpl.
  - unfold exec.
    destruct (add_entity_cases e d g)
      as [[k ->]|(t & l & Ht & Hl & [[_ ->]|[_ ->]])]; simpl.
    + exact Hg.
    + apply Forall_app. split; [exact Hg|]. constructor; [|constructor].
      now apply Hnew.
    + apply Forall_update_node; [|exact Hg]. intros k nd. apply Hmerge.
  - unfold exec, modify; simpl. now rewrite add_relationship_nodes.
  - now rewrite cooccurrence_nodes.
Qed.

Lemma subgraph_nodes_forall so (P : string * node_data -> Prop) g keep :
  Forall P (nodes g) -> Forall P (nodes (subgraph so g keep)).
Proof.
  intros H. apply Forall_forall. intros n Hn.
  apply subgraph_nodes_in in Hn. eapply Forall_forall; [exact H|tauto].
Qed.

Lemma truthy_nonempty d s : truthy d = Some s -> s <> EmptyString.
Proof. destruct d as [[|c s']|]; simpl; congruence. Qed.

(** X2.  In every graph reached from the empty graph, by any sequence of
    operations or by a build (with its pruning), each node is filed
    under the join of its own text and label and has a count of at
    least one. *)
Theorem node_key_and_count so :
  (forall ops, Forall key_count_ok (nodes (exec (run_ops ops) empty_graph))) /\
  (forall cfg files,
     Forall key_count_ok
       (nodes (exec (build_from_extractions so cfg files) empty_graph))).
Proof.
  assert (Hop : forall o g, Forall key_count_ok (nodes g) ->
                            Forall key_count_ok (nodes (exec (run_op o) g))).
  { apply run_op_nodes_forall.
    - intros e d t l _ _. split; simpl; [reflexivity|lia].
    - intros k nd c d [Hk Hc]. split; simpl in *; [exact Hk|lia]. }
  split.
  - intros ops.
    apply (for_each_inv (fun g => Forall key_count_ok (nodes g)));
      [exact Hop|constructor].
  - intros cfg files.
    apply (build_inv so (fun g => Forall key_count_ok (nodes g)));
      [intros e d g; apply (Hop (AddEntity e d))
      |intros c es d g; apply (Hop (Cooccurrence c es d))
      | |constructor].
    intros g keep. apply subgraph_nodes_forall.
Qed.

Lemma merge_node_sources_ok k nd c d :
  sources_ok (k, nd) -> sources_ok (k, merge_node c d nd).
Proof.
  intros [Hnd Hne]. unfold sources_ok, merge_node; simpl in *.
  destruct (truthy d) as [s|] eqn:Hd; [|now split].
  destruct (mem s (sources nd)) eqn:Hm; [now split|].
  assert (Hs : ~ In s (sources nd)).
  { intros Hin. apply mem_in in Hin. congruence. }
  split.
  - apply NoDup_app; [exact Hnd | repeat constructor; simpl; tauto |].
    intros x Hx [<-|[]]. contradiction.
  - rewrite in_app_iff. intros [H|[H|[]]]; [contradiction|].
    apply (truthy_nonempty _ _ Hd). now symmetry.
Qed.

(** X3.  The [sources] of a node never hold a document twice nor an
    empty name, in every graph reached from the empty graph; and right
    after [add_entity] is given a non-empty document name for a record
    with text and label, that name is among the sources of its node. *)
Theorem sources_are_a_set so :
  (forall ops, Forall sources_ok (nodes (exec (run_ops ops) empty_graph))) /\
  (forall cfg files,
     Forall sources_ok
       (nodes (exec (build_from_extractions so cfg files) empty_graph))) /\
  (forall e d g t l s,
     e_text e = Some t -> e_label e = Some l -> truthy d = Some s ->
     exists nd,
       lookup_node (nodes (exec (add_entity e d) g)) (node_id_of t l) = Some nd /\
       In s (sources nd)).
Proof.
  assert (Hop : forall o g, Forall sources_ok (nodes g) ->
                            Forall sources_ok (nodes (exec (run_op o) g))).
  { apply run_op_nodes_forall.
    - intros e d t l _ _. unfold sources_ok; simpl.
      destruct (truthy d) as [s|] eqn:Hd.
      + split; [repeat constructor; simpl; tauto|].
        intros [H|[]]. apply (truthy_nonempty _ _ Hd). now symmetry.
      + split; [constructor|tauto].
    - intros k nd c d. apply merge_node_sources_ok. }
  split; [|split].
  - intros ops.
    apply (for_each_inv (fun g => Forall sources_ok (nodes g)));
      [exact Hop|constructor].
  - intros cfg files.
    apply (build_inv so (fun g => Forall sources_ok (nodes g)));
      [intros e d g; apply (Hop (AddEntity e d))
      |intros c es d g; apply (Hop (Cooccurrence c es d))
      | |constructor].
    intros g keep. apply subgraph_nodes_forall.
  - intros e d g t l s Ht Hl Hd.
    destruct (add_entity_lookup e d g t l Ht Hl) as [_ Hlk].
    eexists. split; [exact Hlk|].
    destruct (lookup_node (nodes g) (node_id_of t l)) as [nd|]; simpl.
    + rewrite Hd. destruct (mem s (sources nd)) eqn:Hm.
      * now apply mem_in.
      * apply in_or_app. right. now left.
    + rewrite Hd. now left.
Qed.

(** ** Edge table *)

Lemma lookup_edge_none es k :
  lookup_edge es k = None <-> ~ In k (map fst es).
Proof.
  induction es as [|[k' d] es IH]; simpl.
  - tauto.
  - destruct (key_eqb_spec k' k) as [->|Hne].
    + split; [discriminate | intros H; exfalso; apply H; now left].
    + rewrite IH. split; intros H; [intros [?|?]; congruence | tauto].
Qed.

(** The three ways [add_relationship] can run. *)
Lemma add_relationship_cases s t r w g :
  add_relationship s t r w g = g \/
  (exists sid tid ed,
     lookup_edge (edges g) (sid, tid) = Some ed /\
     add_relationship s t r w g =
     mk_graph (nodes g)
       (update_edge (edges g) (sid, tid)
          (fun ed => mk_edge (rel_type ed) (weight ed + w)%Q (ecount ed + 1)))) \/
  (exists sid tid,
     lookup_edge (edges g) (sid, tid) = None /\
     add_relationship s t r w g =
     mk_graph (nodes g) (edges g ++ [((sid, tid), mk_edge r w 1)])).
Proof.
  unfold add_relationship, has_edge.
  destruct (nodes_with_text g s) as [|sid rs]; [now left|].
  destruct (nodes_with_text g t) as [|tid rt]; [now left|].
  destruct (lookup_edge (edges g) (sid, tid)) as [ed|] eqn:E.
  - right. left. exists sid, tid, ed. auto.
  - right. right. exists sid, tid. auto.
Qed.

(** Whatever the linking does to the graph is done by calls of
    [add_relationship] with type CO_OCCURS and weight 0.5. *)
Lemma cooccurrence_preserves (P : graph -> Prop) cfg es d g :
  (forall s t g, P g -> P (add_relationship s t "CO_OCCURS" (1 # 2)%Q g)) ->
  P g -> P (exec (_add_cooccurrence_edges cfg es d) g).
Proof.
  intros Hrel Hg. unfold exec, _add_cooccurrence_edges, bind.
  pose proof (entity_texts_state cfg es g) as Hs. unfold exec in Hs.
  destruct (entity_texts cfg es g) as [[ts|ex] g']; simpl in *; subst g';
    [|exact Hg].
  unfold link_texts. apply fold_left_inv; [|exact Hg].
  intros ga [i s] Ha. unfold link_window. apply fold_left_inv; [|exact Ha].
  intros gb t Hb. destruct (negb (String.eqb s t)); [|exact Hb].
  now apply Hrel.
Qed.

Lemma NoDup_map_filter {A B} (f : A -> B) (p : A -> bool) l :
  NoDup (map f l) -> NoDup (map f (filter p l)).
Proof.
  induction l as [|x l IH]; simpl; intros H; [constructor|].
  inversion H as [|? ? Hx Hl]; subst.
  destruct (p x); simpl; [|auto].
  constructor; [|auto]. intros Hin. apply Hx.
  apply in_map_iff in Hin. destruct Hin as (y & Hy & Hin).
  apply filter_In in Hin. apply in_map_iff. exists y. tauto.
Qed.

Lemma add_relationship_unique_keys s t r w g :
  NoDup (edge_keys g) -> NoDup (edge_keys (add_relationship s t r w g)).
Proof.
  intros H.
  destruct (add_relationship_cases s t r w g)
    as [->|[(sid & tid & ed & _ & ->)|(sid & tid & Hnone & ->)]].
  - exact H.
  - unfold edge_keys; simpl. now rewrite update_edge_keys.
  - unfold edge_keys; simpl. rewrite map_app. simpl.
    apply lookup_edge_none in Hnone.
    apply NoDup_app; [exact H | repeat constructor; simpl; tauto |].
    intros x Hx [<-|[]]. contradiction.
Qed.

(** X4.  No edge is stored twice: in every graph reached from the empty
    graph, by any sequence of operations or by a build, the (source,
    target) keys of the edge table are pairwise different. *)
Theorem edge_keys_unique so :
  (forall ops, NoDup (edge_keys (exec (run_ops ops) empty_graph))) /\
  (forall cfg files,
     NoDup (edge_keys (exec (build_from_extractions so cfg files) empty_graph))).
Proof.
  assert (Hadd : forall e d g, NoDup (edge_keys g) ->
                   NoDup (edge_keys (exec (add_entity e d) g))).
  { intros e d g. unfold edge_keys. now rewrite add_entity_edges. }
  assert (Hlink : forall cfg es d g, NoDup (edge_keys g) ->
                    NoDup (edge_keys (exec (_add_cooccurrence_edges cfg es d) g))).
  { intros cfg es d g.
    apply (cooccurrence_preserves (fun g => NoDup (edge_keys g))).
    intros s t g0. apply add_relationship_unique_keys. }
  split.
  - intros ops. apply (for_each_inv (fun g => NoDup (edge_keys g)));
      [|constructor].
    intros [e d|s t r w|cfg es d] g Hg; simpl.
    + now apply Hadd.
    + unfold exec, modify; simpl. now apply add_relationship_unique_keys.
    + now apply Hlink.
  - intros cfg files.
    apply (build_inv so (fun g => NoDup (edge_keys g)));
      [exact Hadd|exact Hlink| |constructor].
    intros g keep. unfold edge_keys; simpl. apply NoDup_map_filter.
Qed.

Lemma Forall_update_edge (P : edge_key * edge_data -> Prop) es k f :
  (forall k d, P (k, d) -> P (k, f d)) ->
  Forall P es -> Forall P (update_edge es k f).
Proof.
  intros Hf. induction 1 as [|[k' d] es Hd Hes IH]; simpl; [constructor|].
  destruct (key_eqb k' k); constructor; auto.
Qed.

Lemma add_relationship_cooccur s t g :
  Forall cooccur_edge (edges g) ->
  Forall cooccur_edge (edges (add_relationship s t "CO_OCCURS" (1 # 2)%Q g)).
Proof.
  intros H.
  destruct (add_relationship_cases s t "CO_OCCURS" (1 # 2)%Q g)
    as [->|[(sid & tid & ed & _ & ->)|(sid & tid & _ & ->)]]; simpl.
  - exact H.
  - apply Forall_update_edge; [|exact H].
    intros k d (Ht & Hc & Hw). unfold cooccur_edge; simpl in *.
    split; [exact Ht|]. split; [lia|].
    rewrite Hw, inject_Z_plus. ring.
  - apply Forall_app. split; [exact H|]. constructor; [|constructor].
    unfold cooccur_edge; simpl. split; [reflexivity|]. split; [lia|].
    reflexivity.
Qed.

(** X5.  In every graph a build leaves behind, each edge has type
    CO_OCCURS, a count of at least one, and a weight of half its
    count: the weight of an edge tells how often the pair was linked. *)
Theorem built_edges_are_cooccurrences so cfg files :
  Forall cooccur_edge
    (edges (exec (build_from_extractions so cfg files) empty_graph)).
Proof.
  apply (build_inv so (fun g => Forall cooccur_edge (edges g))).
  - intros e d g. now rewrite add_entity_edges.
  - intros c es d g.
    apply (cooccurrence_preserves (fun g => Forall cooccur_edge (edges g))).
    intros s t g0. apply add_relationship_cooccur.
  - intros g keep H. simpl. apply Forall_forall. intros e He.
    apply filter_In in He. eapply Forall_forall; [exact H|tauto].
  - constructor.
Qed.

(** ** Pruning and sampling *)

Lemma slice_to_count {A} (l : list A) m :
  slice_to l m = firstn (slice_count m (List.length l)) l.
Proof. unfold slice_to, slice_count. destruct (0 <=? m); reflexivity. Qed.

Lemma ranked_length g : List.length (ranked g) = List.length (nodes g).
Proof.
  rewrite <- (length_map fst (ranked g)).
  rewrite <- (Permutation_length (ranked_keys_perm g)).
  unfold keys. apply length_map.
Qed.

Lemma top_ranked_size so g m :
  NoDup (keys g) ->
  List.length (nodes (subgraph so g (map fst (slice_to (ranked g) m)))) =
  Nat.min (slice_count m (List.length (nodes g))) (List.length (nodes g)).
Proof.
  intros Hk.
  assert (Hr : NoDup (map fst (ranked g))).
  { eapply Permutation_NoDup; [apply ranked_keys_perm|exact Hk]. }
  rewrite (subgraph_exact_size so); [|exact Hk| |].
  - rewrite length_map, slice_to_count, length_firstn, ranked_length.
    reflexivity.
  - rewrite slice_to_count, <- firstn_map. now apply NoDup_firstn.
  - intros k Hin. rewrite slice_to_count, <- firstn_map in Hin.
    apply in_firstn in Hin.
    eapply Permutation_in; [symmetry; apply ranked_keys_perm|exact Hin].
Qed.

(** X6.  The size after cutting to a budget is exact.  When the graph
    has more nodes than the budget [m], pruning leaves exactly [m] nodes
    for [m >= 0] (none at all for [m = 0]), and for a negative [m] it
    drops the [-m] lowest-ranked nodes, leaving [N + m] or none.  The
    subgraph [visualize] hands to the renderer is cut the same way from
    its own [max_nodes]. *)
Theorem pruned_size_exact so cfg m g :
  NoDup (keys g) ->
  let N := Z.of_nat (List.length (nodes g)) in
  (N > max_nodes cfg ->
   Z.of_nat (List.length (nodes (exec (prune_if_needed so cfg) g))) =
   if 0 <=? max_nodes cfg then max_nodes cfg
   else Z.max 0 (N + max_nodes cfg)) /\
  (N > m ->
   Z.of_nat (List.length (nodes (visualize_subgraph so m g))) =
   if 0 <=? m then m else Z.max 0 (N + m)) /\
  (N <= m -> visualize_subgraph so m g = g).
Proof.
  intros Hk N.
  assert (Hsize : forall b, N > b ->
            Z.of_nat (List.length
                        (nodes (subgraph so g (map fst (slice_to (ranked g) b))))) =
            if 0 <=? b then b else Z.max 0 (N + b)).
  { intros b Hb. rewrite top_ranked_size by exact Hk.
    unfold slice_count, N in *. destruct (Z.leb_spec 0 b); lia. }
  split; [|split].
  - intros Hgt. unfold exec. rewrite prune_if_needed_run. simpl.
    destruct (Z.gtb_spec (Z.of_nat (List.length (nodes g))) (max_nodes cfg));
      [|unfold N in Hgt; lia].
    now apply Hsize.
  - intros Hgt. unfold visualize_subgraph.
    destruct (Z.gtb_spec (Z.of_nat (List.length (nodes g))) m);
      [|unfold N in Hgt; lia].
    now apply Hsize.
  - intros Hle. unfold visualize_subgraph.
    destruct (Z.gtb_spec (Z.of_nat (List.length (nodes g))) m);
      [unfold N in Hle; lia|reflexivity].
Qed.

Lemma pruned_size_exact_witness :
  Z.of_nat (List.length
    (nodes (exec (prune_if_needed insertion_order
                    (mk_config (3 # 10)%Q (-2) (85 # 100)%Q))
                 six_nodes))) = 4.
Proof.
  refine (proj1 (pruned_size_exact insertion_order
                   (mk_config (3 # 10)%Q (-2) (85 # 100)%Q)
                   0 six_nodes _) _).
  - repeat constructor; simpl; intuition discriminate.
  - reflexivity.
Defined.

Lemma ranked_scores g p :
  In p (ranked g) -> snd p = centrality g (fst p).
Proof.
  intros H. unfold ranked in H.
  apply (Permutation_in _ (Permutation_sym (sorted_desc_perm _))) in H.
  rewrite degree_centrality_map in H. apply in_map_iff in H.
  destruct H as (k & <- & _). reflexivity.
Qed.

Lemma in_ranked g k : In k (keys g) -> In (k, centrality g k) (ranked g).
Proof.
  intros H. unfold ranked.
  eapply Permutation_in; [apply sorted_desc_perm|].
  rewrite degree_centrality_map.
  now apply (in_map (fun k => (k, centrality g k))).
Qed.

Lemma StronglySorted_app_cross {A} (R : A -> A -> Prop) l1 l2 :
  StronglySorted R (l1 ++ l2) ->
  forall x y, In x l1 -> In y l2 -> R x y.
Proof.
  induction l1 as [|a l1 IH]; simpl; intros H x y Hx Hy; [destruct Hx|].
  inversion H as [|? ? Hs Hall]; subst.
  destruct Hx as [->|Hx]; [|now apply IH].
  eapply Forall_forall; [exact Hall|]. apply in_or_app. now right.
Qed.

(** X7.  Pruning keeps the most central nodes: no node that is dropped
    has a higher degree centrality than a node that is kept. *)
Theorem pruning_keeps_most_central cfg g a b :
  In a (nodes_to_keep cfg g) ->
  In b (keys g) ->
  ~ In b (nodes_to_keep cfg g) ->
  (centrality g b <= centrality g a)%Q.
Proof.
  unfold nodes_to_keep. rewrite slice_to_count.
  set (n := slice_count (max_nodes cfg) (List.length (ranked g))).
  intros Ha Hb Hnb.
  apply in_map_iff in Ha. destruct Ha as (pa & <- & Hpa).
  pose proof (in_ranked g b Hb) as Hpb.
  rewrite <- (firstn_skipn n (ranked g)) in Hpb.
  apply in_app_or in Hpb. destruct Hpb as [Hpb|Hpb].
  - exfalso. apply Hnb. apply in_map_iff. now exists (b, centrality g b).
  - pose proof (sorted_desc_sorted (degree_centrality g)) as Hs.
    fold (ranked g) in Hs. rewrite <- (firstn_skipn n (ranked g)) in Hs.
    pose proof (StronglySorted_app_cross _ _ _ Hs _ _ Hpa Hpb) as Hge.
    unfold score_ge in Hge. simpl in Hge.
    rewrite <- (ranked_scores g pa); [exact Hge|].
    eapply in_firstn; exact Hpa.
Qed.

Lemma pruning_keeps_most_central_witness :
  (centrality hub_graph "D_ORG" <= centrality hub_graph "A_ORG")%Q.
Proof.
  apply (pruning_keeps_most_central (mk_config (3 # 10)%Q 3 (85 # 100)%Q)).
  - vm_compute. auto.
  - vm_compute. auto 6.
  - vm_compute. intuition discriminate.
Defined.

(** X8.  Pruning only removes.  A kept node has the attributes it had
    before, a dropped node is gone; an edge is there afterwards exactly
    when both its ends are kept, and then with the attributes it had. *)
Theorem pruning_only_removes so cfg g :
  let kept := nodes_to_keep cfg g in
  let g' := exec (_prune_graph so cfg) g in
  (forall k,
     lookup_node (nodes g') k =
     if mem k kept then lookup_node (nodes g) k else None) /\
  (forall u v,
     lookup_edge (edges g') (u, v) =
     if mem u kept && mem v kept then lookup_edge (edges g) (u, v) else None).
Proof.
  intros kept g'. split.
  - intros k. apply lookup_node_subgraph.
  - intros u v. unfold g', exec, _prune_graph, modify.
    cbv beta iota delta [snd].
    rewrite lookup_edge_subgraph, !kept_has_node. reflexivity.
Qed.

(** X9.  Pruning a second time changes nothing: for a budget
    [max_nodes >= 0] the graph left by [prune_if_needed] is within the
    budget, so the test that guards [_prune_graph] fails on it. *)
Theorem pruning_is_idempotent so cfg g :
  0 <= max_nodes cfg ->
  NoDup (keys g) ->
  exec (prune_if_needed so cfg) (exec (prune_if_needed so cfg) g) =
  exec (prune_if_needed so cfg) g.
Proof.
  intros Hm Hk. unfold exec. rewrite !prune_if_needed_run. simpl.
  destruct (Z.gtb_spec (Z.of_nat (List.length (nodes g))) (max_nodes cfg))
    as [Hgt|Hle].
  - pose proof (subgraph_size so g (nodes_to_keep cfg g) Hk) as Hs.
    unfold nodes_to_keep in Hs at 2. rewrite length_map in Hs.
    pose proof (slice_to_length (ranked g) (max_nodes cfg) Hm).
    destruct (Z.gtb_spec
                (Z.of_nat (List.length (nodes (subgraph so g (nodes_to_keep cfg g)))))
                (max_nodes cfg)); [lia|reflexivity].
  - destruct (Z.gtb_spec (Z.of_nat (List.length (nodes g))) (max_nodes cfg));
      [lia|reflexivity].
Qed.

Lemma pruning_is_idempotent_witness :
  let cfg := mk_config (3 # 10)%Q 2 (85 # 100)%Q in
  exec (prune_if_needed reverse_order cfg)
       (exec (prune_if_needed reverse_order cfg) six_nodes) =
  exec (prune_if_needed reverse_order cfg) six_nodes.
Proof.
  intros cfg. apply pruning_is_idempotent.
  - simpl. lia.
  - repeat constructor; simpl; intuition discriminate.
Defined.

(** ** Statistics *)

Lemma type_count_bump l' counts l :
  type_count (bump l' counts) l =
  if String.eqb l' l then
    Some (match type_count counts l with Some n => n + 1 | None => 1 end)
  else type_count counts l.
Proof.
  induction counts as [|[k n] counts IH]; simpl.
  - destruct (String.eqb l' l); reflexivity.
  - destruct (String.eqb_spec k l') as [->|Hk]; simpl.
    + destruct (String.eqb l' l); reflexivity.
    + destruct (String.eqb_spec k l) as [->|Hkl].
      * destruct (String.eqb_spec l' l); [congruence|reflexivity].
      * exact IH.
Qed.

Lemma bump_keys_NoDup l counts :
  NoDup (map fst counts) -> NoDup (map fst (bump l counts)).
Proof.
  induction counts as [|[k n] counts IH]; simpl; intros H.
  - repeat constructor. simpl. tauto.
  - destruct (String.eqb_spec k l) as [->|Hk]; simpl; [exact H|].
    inversion H as [|? ? Hn Hnd]; subst. constructor; [|auto].
    intros Hin. apply Hn. clear IH H Hn Hnd.
    induction counts as [|[k' n'] counts IH]; simpl in *.
    + destruct Hin as [E|[]]. congruence.
    + destruct (String.eqb k' l); simpl in *; tauto.
Qed.

Lemma bump_total l counts : total (bump l counts) = total counts + 1.
Proof.
  unfold total. induction counts as [|[k n] counts IH]; simpl; [lia|].
  destruct (String.eqb k l); simpl; lia.
Qed.

Lemma count_fold ns : forall acc l,
  type_count
    (fold_left (fun counts n => bump (label (snd n)) counts) ns acc) l =
  match type_count acc l with
  | Some n => Some (n + label_count ns l)
  | None => if label_count ns l =? 0 then None else Some (label_count ns l)
  end.
Proof.
  unfold label_count.
  induction ns as [|n ns IH]; intros acc l.
  - simpl. destruct (type_count acc l); [f_equal; lia|reflexivity].
  - simpl fold_left. rewrite IH, type_count_bump. simpl filter.
    destruct (String.eqb (label (snd n)) l); simpl List.length.
    + destruct (type_count acc l) as [x|].
      * f_equal. lia.
      * destruct (Z.eqb_spec (Z.of_nat (S (List.length
                   (filter (fun n0 => String.eqb (label (snd n0)) l) ns)))) 0);
          [lia|f_equal; lia].
    + reflexivity.
Qed.

(** X10.  The entity-type histogram is exact: a label is a key of the
    result exactly when some node carries it, and its entry is the
    number of nodes that carry it; no label is listed twice; and the
    entries add up to the number of nodes. *)
Theorem entity_type_histogram g :
  (forall l,
     type_count (_count_entity_types g) l =
     if label_count (nodes g) l =? 0 then None
     else Some (label_count (nodes g) l)) /\
  NoDup (map fst (_count_entity_types g)) /\
  total (_count_entity_types g) = Z.of_nat (List.length (nodes g)).
Proof.
  unfold _count_entity_types. split; [|split].
  - intros l. now rewrite count_fold.
  - apply (fold_left_inv (fun c => NoDup (map fst c))); [|constructor].
    intros c n. apply bump_keys_NoDup.
  - assert (H : forall (ns : node_table) acc,
              total (fold_left (fun counts n => bump (label (snd n)) counts)
                               ns acc) =
              total acc + Z.of_nat (List.length ns)).
    { induction ns as [|n ns IH]; intros acc; simpl fold_left.
      - simpl. lia.
      - rewrite IH, bump_total. simpl List.length. lia. }
    rewrite H. reflexivity.
Qed.

Lemma indicator_sum (ks : list string) x :
  NoDup ks -> In x ks ->
  fold_right Z.add 0
    (map (fun k => if String.eqb x k then 1 else 0) ks) = 1.
Proof.
  induction ks as [|k ks IH]; simpl; intros Hnd Hin; [destruct Hin|].
  inversion Hnd as [|? ? Hk Hnd']; subst.
  destruct (String.eqb_spec x k) as [->|Hne].
  - assert (H0 : fold_right Z.add 0
                   (map (fun k0 => if String.eqb k k0 then 1 else 0) ks) = 0).
    { clear IH Hnd Hnd' Hin. induction ks as [|k' ks IH]; simpl; [reflexivity|].
      destruct (String.eqb_spec k k') as [->|Hne].
      - exfalso. apply Hk. now left.
      - apply IH. intros H. apply Hk. now right. }
    lia.
  - destruct Hin as [->|Hin]; [congruence|]. rewrite IH; auto.
Qed.

(** Counting the edges whose end [f] is [k], over all nodes [k], counts
    every edge once. *)
Lemma end_count_sum (f : edge_key -> string) (ks : list string)
    (es : edge_table) :
  NoDup ks -> (forall e, In e es -> In (f (fst e)) ks) ->
  fold_right Z.add 0
    (map (fun k =>
            Z.of_nat (List.length
                        (filter (fun e => String.eqb (f (fst e)) k) es))) ks) =
  Z.of_nat (List.length es).
Proof.
  intros Hnd. induction es as [|e es IH]; intros Hin.
  - clear Hnd Hin. induction ks as [|k ks IHk]; simpl; [reflexivity|exact IHk].
  - assert (Hsplit : forall l : list string,
      fold_right Z.add 0
        (map (fun k =>
                Z.of_nat (List.length
                  (filter (fun e0 => String.eqb (f (fst e0)) k) (e :: es)))) l) =
      fold_right Z.add 0
        (map (fun k => if String.eqb (f (fst e)) k then 1 else 0) l) +
      fold_right Z.add 0
        (map (fun k =>
                Z.of_nat (List.length
                  (filter (fun e0 => String.eqb (f (fst e0)) k) es))) l)).
    { induction l as [|k l IHl]; simpl; [reflexivity|].
      simpl in IHl. rewrite IHl.
      destruct (String.eqb (f (fst e)) k); simpl List.length; lia. }
    rewrite Hsplit, IH, indicator_sum.
    + simpl List.length. lia.
    + exact Hnd.
    + apply Hin. now left.
    + intros e0 He0. apply Hin. now right.
Qed.

Lemma degree_sum_split g :
  degree_sum g =
  fold_right Z.add 0
    (map (fun k =>
            Z.of_nat (List.length
                        (filter (fun e => String.eqb (fst (fst e)) k) (edges g))))
         (keys g)) +
  fold_right Z.add 0
    (map (fun k =>
            Z.of_nat (List.length
                        (filter (fun e => String.eqb (snd (fst e)) k) (edges g))))
         (keys g)).
Proof.
  unfold degree_sum, degree, keys. rewrite !map_map.
  induction (nodes g) as [|n ns IH]; simpl; [reflexivity|].
  rewrite IH. lia.
Qed.

(** X11.  In a well-formed graph the degrees add up to twice the number
    of edges, so the reported average degree is [2 * edges / nodes]; for
    a graph without nodes it is 0 and nothing is divided. *)
Theorem average_degree g :
  wf g ->
  degree_sum g = 2 * Z.of_nat (List.length (edges g)) /\
  (nodes g <> [] ->
   avg_degree g =
   (inject_Z (2 * Z.of_nat (List.length (edges g)))
    / inject_Z (Z.of_nat (List.length (nodes g))))%Q) /\
  (nodes g = [] -> avg_degree g = 0%Q).
Proof.
  intros [Hnd Hcl].
  assert (Hsum : degree_sum g = 2 * Z.of_nat (List.length (edges g))).
  { rewrite degree_sum_split.
    rewrite (end_count_sum (@fst string string)),
            (end_count_sum (@snd string string));
      [lia|exact Hnd| |exact Hnd|].
    - intros [[u v] ed] He. apply (Hcl u v).
      unfold edge_keys. apply in_map_iff. now exists (u, v, ed).
    - intros [[u v] ed] He. apply (Hcl u v).
      unfold edge_keys. apply in_map_iff. now exists (u, v, ed). }
  split; [exact Hsum|]. unfold avg_degree. split.
  - intros Hne. destruct (nodes g); [congruence|]. now rewrite Hsum.
  - intros ->. reflexivity.
Qed.

Lemma average_degree_witness :
  degree_sum hub_graph = 2 * 3.
Proof.
  refine (proj1 (average_degree hub_graph _)).
  split.
  - repeat constructor; simpl; intuition discriminate.
  - intros u v H. vm_compute in H. vm_compute.
    intuition (try discriminate);
      match goal with
      | E : (_, _) = (_, _) |- _ => inversion E; subst; auto 6
      end.
Defined.

Lemma subgraph_no_self_loops so g keep :
  no_self_loops g -> no_self_loops (subgraph so g keep).
Proof.
  intros H u v Huv. apply (H u v). unfold edge_keys in *; simpl in Huv.
  apply in_map_iff in Huv. destruct Huv as (e & He & Hin).
  apply filter_In in Hin. apply in_map_iff. exists e. tauto.
Qed.

(** What a build from the empty graph always leaves behind. *)
Lemma built_graph_shape so cfg files :
  let g := exec (build_from_extractions so cfg files) empty_graph in
  wf g /\ no_self_loops g /\ NoDup (edge_keys g).
Proof.
  intros g.
  assert (H1 : loop_free_wf g).
  { apply (build_inv so loop_free_wf).
    - intros e d g0. apply add_entity_inv.
    - intros c es d g0. apply cooccurrence_inv.
    - intros g0 keep [Hwf Hl]. split;
        [now apply subgraph_wf|now apply subgraph_no_self_loops].
    - split; [apply wf_empty|intros u v []]. }
  assert (H2 : NoDup (edge_keys g)).
  { apply (build_inv so (fun g => NoDup (edge_keys g))).
    - intros e d g0. unfold edge_keys. now rewrite add_entity_edges.
    - intros c es d g0.
      apply (cooccurrence_preserves (fun g => NoDup (edge_keys g))).
      intros s t g1. apply add_relationship_unique_keys.
    - intros g0 keep. unfold edge_keys; simpl. apply NoDup_map_filter.
    - constructor. }
  destruct H1 as [Hwf Hl]. auto.
Qed.

Lemma filter_split_length {A} (f : A -> bool) l :
  (List.length (filter f l) + List.length (filter (fun x => negb (f x)) l)
   = List.length l)%nat.
Proof.
  induction l as [|x l IH]; simpl; [reflexivity|].
  destruct (f x); simpl; lia.
Qed.

(** A loop-free directed graph on [n] nodes has at most [n * (n - 1)]
    edges. *)
Lemma edge_count_bound g :
  wf g -> no_self_loops g -> NoDup (edge_keys g) ->
  (List.length (edges g) + List.length (nodes g)
   <= List.length (nodes g) * List.length (nodes g))%nat.
Proof.
  intros [Hk Hcl] Hl Hnd.
  set (diag := fun p : string * string => String.eqb (fst p) (snd p)).
  set (all := list_prod (keys g) (keys g)).
  assert (Hoff : (List.length (edge_keys g)
                  <= List.length (filter (fun p => negb (diag p)) all))%nat).
  { apply NoDup_incl_length; [exact Hnd|].
    intros [u v] Huv. apply filter_In. split.
    - apply in_prod_iff. now apply Hcl.
    - unfold diag; simpl. apply negb_true_iff, String.eqb_neq.
      now apply Hl. }
  assert (Hdiag : (List.length (keys g) <= List.length (filter diag all))%nat).
  { rewrite <- (length_map (fun k => (k, k)) (keys g)).
    apply NoDup_incl_length.
    - clear - Hk. induction Hk as [|k ks Hn _ IH]; simpl; constructor;
        [|exact IH].
      intros Hin. apply Hn. apply in_map_iff in Hin.
      destruct Hin as (k' & E & Hin). inversion E; subst. exact Hin.
    - intros p Hp. apply in_map_iff in Hp. destruct Hp as (k & <- & Hin).
      apply filter_In. split; [now apply in_prod_iff|].
      unfold diag; simpl. apply String.eqb_refl. }
  pose proof (filter_split_length diag all) as Hsplit.
  unfold all in Hsplit at 3. rewrite length_prod in Hsplit.
  unfold edge_keys in Hoff. rewrite length_map in Hoff.
  unfold keys in *. rewrite !length_map in *. lia.
Qed.

Lemma density_range g :
  wf g -> no_self_loops g -> NoDup (edge_keys g) ->
  (0 <= density g <= 1)%Q.
Proof.
  intros Hwf Hl Hnd. pose proof (edge_count_bound g Hwf Hl Hnd) as Hb.
  unfold density.
  set (n := Z.of_nat (List.length (nodes g))) in *.
  set (m := Z.of_nat (List.length (edges g))) in *.
  destruct (Z.eqb_spec m 0) as [Hm|Hm]; simpl.
  { split; [apply Qle_refl|discriminate]. }
  destruct (Z.leb_spec n 1) as [Hn|Hn]; simpl.
  { split; [apply Qle_refl|discriminate]. }
  assert (Hpos : 0 < n * (n - 1)) by nia.
  assert (Hle : m <= n * (n - 1)) by (unfold n, m; nia).
  assert (Hq : (0 < inject_Z (n * (n - 1)))%Q).
  { change 0%Q with (inject_Z 0). now rewrite <- Zlt_Qlt. }
  split.
  - apply Qle_shift_div_l; [exact Hq|].
    rewrite Qmult_0_l. change 0%Q with (inject_Z 0). rewrite <- Zle_Qle.
    unfold m. lia.
  - apply Qle_shift_div_r; [exact Hq|].
    rewrite Qmult_1_l. now rewrite <- Zle_Qle.
Qed.

(** X12.  The density reported for a built graph lies between 0 and 1:
    a build leaves no self-loop and no edge twice, so there are at most
    [n * (n - 1)] edges on [n] nodes; with at most one node or without
    edges the density is 0 and nothing is divided. *)
Theorem built_density_range so cfg files :
  let g := exec (build_from_extractions so cfg files) empty_graph in
  (0 <= density g <= 1)%Q /\
  ((List.length (nodes g) <= 1)%nat \/ edges g = [] -> density g = 0%Q).
Proof.
  intros g. destruct (built_graph_shape so cfg files) as (Hwf & Hl & Hnd).
  fold g in Hwf, Hl, Hnd.
  split; [now apply density_range|].
  unfold density. intros [Hn| ->].
  - destruct (Z.leb_spec (Z.of_nat (List.length (nodes g))) 1); [|lia].
    now rewrite orb_true_r.
  - reflexivity.
Qed.

(** ** Linking *)

Lemma fold_left_inv_in {A B} (P : A -> Prop) (f : A -> B -> A) l a :
  (forall a b, In b l -> P a -> P (f a b)) -> P a -> P (fold_left f l a).
Proof.
  revert a. induction l as [|b l IH]; intros a Hf Ha; simpl; [exact Ha|].
  apply IH.
  - intros a' b' Hb'. apply Hf. now right.
  - apply Hf; [now left|exact Ha].
Qed.

Lemma combine_seq_in {A} (l : list A) a i x :
  In (i, x) (combine (seq a (List.length l)) l) ->
  (a <= i)%nat /\ nth_error l (i - a) = Some x.
Proof.
  revert a. induction l as [|y l IH]; intros a; simpl; [tauto|].
  intros [E|H].
  - inversion E; subst. rewrite Nat.sub_diag. split; [lia|reflexivity].
  - destruct (IH (S a) H) as [Hle Hn]. split; [lia|].
    replace (i - a)%nat with (S (i - S a)) by lia. exact Hn.
Qed.

Lemma enumerate_in {A} (l : list A) i x :
  In (i, x) (enumerate l) -> nth_error l i = Some x.
Proof.
  intros H. apply combine_seq_in in H. destruct H as [_ H].
  now rewrite Nat.sub_0_r in H.
Qed.

Lemma slice_in {A} (l : list A) a b x :
  In x (slice l a b) ->
  exists j, (a <= j < b)%nat /\ nth_error l j = Some x.
Proof.
  unfold slice. intros H. apply In_nth_error in H. destruct H as [j Hj].
  rewrite nth_error_firstn in Hj.
  destruct (Nat.ltb_spec j (b - a)) as [Hlt|]; [|discriminate].
  rewrite nth_error_skipn in Hj. exists (a + j)%nat. split; [lia|exact Hj].
Qed.

Lemma nodes_with_text_same g1 g2 t :
  nodes g1 = nodes g2 -> nodes_with_text g1 t = nodes_with_text g2 t.
Proof. unfold nodes_with_text. now intros ->. Qed.

Lemma link_texts_local texts g u v :
  In (u, v) (edge_keys (link_texts texts g)) ->
  In (u, v) (edge_keys g) \/ linked texts g u v.
Proof.
  set (Inv := fun g' : graph =>
         nodes g' = nodes g /\
         forall u v, In (u, v) (edge_keys g') ->
                     In (u, v) (edge_keys g) \/ linked texts g u v).
  assert (H : Inv (link_texts texts g)).
  { unfold link_texts. apply fold_left_inv_in; [|split; auto].
    intros g1 [i s] Hi Hg1. apply enumerate_in in Hi.
    unfold link_window. apply fold_left_inv_in; [|exact Hg1].
    intros g2 t Ht [Hn Hg2]. apply slice_in in Ht.
    destruct Ht as (j & Hj & Hjt).
    destruct (String.eqb_spec s t) as [E|Hne]; simpl; [now split|].
    split; [now rewrite add_relationship_nodes|].
    intros u' v'.
    destruct (add_relationship_edge_keys s t "CO_OCCURS" (1 # 2)%Q g2)
      as [->|(sid & tid & rs & rt & Hs & Ht & ->)]; [apply Hg2|].
    rewrite in_app_iff. intros [Hin|[E|[]]]; [now apply Hg2|].
    inversion E; subst. right.
    exists i, j, s, t, rs, rt.
    rewrite <- (nodes_with_text_same g2 g s Hn).
    rewrite <- (nodes_with_text_same g2 g t Hn).
    repeat split; try assumption; lia. }
  apply H.
Qed.

(** X13.  Linking is local and forward.  Every edge that
    [_add_cooccurrence_edges] adds joins the nodes of two different
    texts of the document's above-threshold text list, the source
    standing before the target and at most four places away; nothing
    else is added. *)
Theorem linking_is_local cfg es d g texts u v :
  entity_texts cfg es g = (Ok texts, g) ->
  In (u, v) (edge_keys (exec (_add_cooccurrence_edges cfg es d) g)) ->
  In (u, v) (edge_keys g) \/ linked texts g u v.
Proof.
  intros Ht. unfold exec, _add_cooccurrence_edges, bind. rewrite Ht. simpl.
  apply link_texts_local.
Qed.

Lemma linking_is_local_witness :
  In ("A_ORG", "E_ORG") (edge_keys six_nodes) \/
  linked ["A"; "B"; "C"; "D"; "E"; "F"] six_nodes "A_ORG" "E_ORG".
Proof.
  apply (linking_is_local default_config six_entities (Some "doc1")).
  - reflexivity.
  - vm_compute. auto 8.
Defined.

(** X14.  Linking never touches the nodes, and it is all or nothing:
    when a record that passes the confidence test has no text, the
    method raises [KeyError] for [text] before any edge is added and
    the graph is left as it was; otherwise it completes. *)
Theorem linking_all_or_nothing cfg es d g :
  nodes (exec (_add_cooccurrence_edges cfg es d) g) = nodes g /\
  (Exists (fun e => passes cfg e = true /\ e_text e = None) es ->
   _add_cooccurrence_edges cfg es d g = (Raise (KeyError "text"), g)) /\
  (~ Exists (fun e => passes cfg e = true /\ e_text e = None) es ->
   outcome (_add_cooccurrence_edges cfg es d) g = Ok tt).
Proof.
  split; [apply cooccurrence_nodes|]. split.
  - intros Hex. unfold _add_cooccurrence_edges, bind.
    assert (H : entity_texts cfg es g = (Raise (KeyError "text"), g)).
    { induction Hex as [e es [Hp Ht]|e es _ IH]; simpl.
      - rewrite Hp. unfold bind. now rewrite Ht.
      - destruct (passes cfg e); [|exact IH].
        unfold bind. destruct (e_text e); simpl; [|reflexivity].
        unfold ret at 1. cbv beta iota. now rewrite IH. }
    now rewrite H.
  - intros Hno. unfold outcome, _add_cooccurrence_edges, bind.
    assert (H : exists ts, entity_texts cfg es g = (Ok ts, g)).
    { induction es as [|e es IH]; simpl; [now exists []|].
      destruct IH as [ts Hts].
      { intros Hex. apply Hno. now apply Exists_cons_tl. }
      destruct (passes cfg e) eqn:Hp; [|now exists ts].
      destruct (e_text e) as [t|] eqn:Ht.
      - exists (t :: ts). unfold bind. simpl. unfold ret at 1.
        cbv beta iota. now rewrite Hts.
      - exfalso. apply Hno. apply Exists_cons_hd. auto. }
    destruct H as [ts ->]. reflexivity.
Qed.

Lemma linking_all_or_nothing_witness :
  _add_cooccurrence_edges default_config
    [mk_entity (Some "A") (Some "ORG") None; mk_entity None (Some "ORG") None]
    (Some "doc1") six_nodes =
  (Raise (KeyError "text"), six_nodes).
Proof.
  apply (proj1 (proj2 (linking_all_or_nothing _ _ _ _))).
  apply Exists_cons_tl, Exists_cons_hd. split; reflexivity.
Defined.

(** ** [add_entity] leaves the rest alone *)

(** X15.  [add_entity] changes one node at most: the edges stay as they
    are, the nodes already there keep their order and every node other
    than the one named by the record keeps its attributes; at most one
    key is appended; and a call that raises changes nothing. *)
Theorem add_entity_frame e d g :
  let g' := exec (add_entity e d) g in
  edges g' = edges g /\
  (exists new, keys g' = keys g ++ new /\ (List.length new <= 1)%nat) /\
  (forall t l k,
     e_text e = Some t -> e_label e = Some l -> k <> node_id_of t l ->
     lookup_node (nodes g') k = lookup_node (nodes g) k) /\
  (outcome (add_entity e d) g <> Ok tt -> g' = g).
Proof.
  intros g'. split; [apply add_entity_edges|].
  unfold g', exec, outcome.
  destruct (add_entity_cases e d g)
    as [[k ->]|(t & l & Ht & Hl & [[Hn ->]|[Hn ->]])]; simpl.
  - split; [exists []; rewrite app_nil_r; auto|]. split; [reflexivity|auto].
  - split.
    { eexists. unfold keys; simpl. rewrite map_app. split; [reflexivity|].
      simpl. lia. }
    split; [|congruence].
    intros t' l' k Ht' Hl' Hk. rewrite Ht in Ht'. rewrite Hl in Hl'.
    inversion Ht'; inversion Hl'; subst.
    rewrite lookup_node_app. destruct (lookup_node (nodes g) k); [reflexivity|].
    simpl. destruct (String.eqb_spec (node_id_of t' l') k); congruence.
  - split.
    { exists []. unfold keys; simpl. rewrite update_node_keys, app_nil_r. auto. }
    split; [|congruence].
    intros t' l' k Ht' Hl' Hk. rewrite Ht in Ht'. rewrite Hl in Hl'.
    inversion Ht'; inversion Hl'; subst.
    now apply lookup_update_node_other.
Qed.

Lemma add_entity_frame_witness :
  lookup_node
    (nodes (exec (add_entity (mk_entity (Some "A") (Some "ORG") (Some (1 # 2)%Q))
                             (Some "doc2")) six_nodes)) "B_ORG" =
  lookup_node (nodes six_nodes) "B_ORG".
Proof.
  apply (proj1 (proj2 (proj2 (add_entity_frame _ _ _))) "A" "ORG").
  - reflexivity.
  - reflexivity.
  - discriminate.
Defined.

(** ** Top entities *)

Lemma StronglySorted_firstn {A} (R : A -> A -> Prop) n l :
  StronglySorted R l -> StronglySorted R (firstn n l).
Proof.
  revert n. induction l as [|x l IH]; intros [|n] H; simpl; try constructor.
  - apply IH. now inversion H.
  - inversion H as [|? ? _ Hall]; subst.
    apply Forall_forall. intros y Hy. apply in_firstn in Hy.
    eapply Forall_forall; [exact Hall|exact Hy].
Qed.

Lemma forall_same_scores (x x' : string * Q) l l' :
  snd x = snd x' -> map snd l = map snd l' ->
  Forall (score_ge x) l -> Forall (score_ge x') l'.
Proof.
  intros Ex. revert l'.
  induction l as [|y l IH]; intros [|y' l'] El H;
    simpl in El; try discriminate; constructor.
  - inversion El as [[Ey Et]]. inversion H as [|? ? Hy Hl]; subst.
    unfold score_ge in *. rewrite <- Ex, <- Ey. exact Hy.
  - inversion El as [[Ey Et]]. inversion H as [|? ? Hy Hl]; subst.
    now apply IH.
Qed.

Lemma sorted_same_scores (l l' : list (string * Q)) :
  map snd l = map snd l' ->
  StronglySorted score_ge l -> StronglySorted score_ge l'.
Proof.
  revert l'. induction l as [|x l IH]; intros [|x' l'] E H;
    simpl in E; try discriminate; [constructor|].
  inversion E as [[Ex El]]. inversion H as [|? ? Hs Hall]; subst.
  constructor; [now apply IH|].
  now apply (forall_same_scores x x' l l').
Qed.

(** X16.  For [n >= 0], [_get_top_entities(n)] returns without raising
    and gives [min(n, number of nodes)] entries, so the whole graph when
    [n] is large and nothing for an empty graph, with scores in
    descending order; each entry is the text of a node with that node's
    degree centrality. *)
Theorem top_entities_shape g n :
  0 <= n ->
  exists tops,
    _get_top_entities n g = (Ok tops, g) /\
    List.length tops = Nat.min (Z.to_nat n) (List.length (nodes g)) /\
    StronglySorted score_ge tops /\
    Forall (fun top =>
              exists k nd,
                lookup_node (nodes g) k = Some nd /\
                fst top = text nd /\ snd top = centrality g k) tops.
Proof.
  intros Hn.
  destruct (map_M_lookup g (slice_to (ranked g) n)) as (tops & Hrun & Hall).
  { intros p Hp. rewrite slice_to_count in Hp. apply in_firstn in Hp.
    eapply Permutation_in; [symmetry; apply ranked_keys_perm|].
    now apply in_map. }
  exists tops. split; [exact Hrun|].
  assert (Hsnd : map snd (slice_to (ranked g) n) = map snd tops).
  { clear Hrun. induction Hall as [|p top l tops' [Hs _] _ IH]; simpl;
      [reflexivity|]. now rewrite Hs, IH. }
  split; [|split].
  - rewrite <- (Forall2_length Hall), slice_to_count, length_firstn,
      ranked_length.
    unfold slice_count. destruct (Z.leb_spec 0 n); [reflexivity|lia].
  - apply (sorted_same_scores _ _ Hsnd). rewrite slice_to_count.
    apply StronglySorted_firstn. apply sorted_desc_sorted.
  - assert (Hin : forall p, In p (slice_to (ranked g) n) -> In p (ranked g)).
    { intros p Hp. rewrite slice_to_count in Hp. now apply in_firstn in Hp. }
    clear Hrun Hsnd.
    induction Hall as [|p top l tops' [Hs (nd & Hlk & Ht)] _ IH];
      constructor.
    + exists (fst p), nd. split; [exact Hlk|]. split; [exact Ht|].
      rewrite Hs. apply ranked_scores. apply Hin. now left.
    + apply IH. intros q Hq. apply Hin. now right.
Qed.

Lemma top_entities_shape_witness :
  exists tops,
    _get_top_entities 10 hub_graph = (Ok tops, hub_graph) /\
    List.length tops = 4%nat.
Proof.
  destruct (top_entities_shape hub_graph 10) as (tops & Hrun & Hlen & _).
  - lia.
  - exists tops. split; [exact Hrun|exact Hlen].
Defined.

(** ** Where nodes come from *)

Lemma add_entity_keys e d g k :
  In k (keys (exec (add_entity e d) g)) ->
  In k (keys g) \/
  exists t l, e_text e = Some t /\ e_label e = Some l /\ k = node_id_of t l.
Proof.
  unfold exec.
  destruct (add_entity_cases e d g)
    as [[k0 ->]|(t & l & Ht & Hl & [[_ ->]|[_ ->]])]; unfold keys; simpl.
  - auto.
  - rewrite map_app, in_app_iff. simpl. intros [H|[<-|[]]]; [auto|].
    right. now exists t, l.
  - rewrite update_node_keys. auto.
Qed.

Lemma ingest_entities_keys cfg d es : forall g k,
  In k (keys (exec (for_each es (ingest_entity cfg d)) g)) ->
  In k (keys g) \/ In k (flat_map (passing_id cfg) es).
Proof.
  induction es as [|e es IH]; intros g k; [simpl; auto|].
  simpl for_each. rewrite exec_bind. simpl flat_map. rewrite in_app_iff.
  assert (Hstep : In k (keys (exec (ingest_entity cfg d e) g)) ->
                  In k (keys g) \/ In k (passing_id cfg e)).
  { unfold ingest_entity, passing_id. destruct (passes cfg e); [|auto].
    intros H. apply add_entity_keys in H.
    destruct H as [H|(t & l & -> & -> & ->)]; [auto|]. right. now left. }
  destruct (outcome (ingest_entity cfg d e) g).
  - intros H. apply IH in H. destruct H as [H|H]; [|auto].
    apply Hstep in H. tauto.
  - intros H. apply Hstep in H. tauto.
Qed.

Lemma ingest_keys cfg files : forall g k,
  In k (keys (exec (ingest cfg files) g)) ->
  In k (keys g) \/ In k (passing_ids cfg files).
Proof.
  unfold ingest, passing_ids.
  induction files as [|data files IH]; intros g k; [simpl; auto|].
  simpl for_each. rewrite exec_bind. simpl flat_map. rewrite in_app_iff.
  assert (Hstep : In k (keys (exec (process_document cfg data) g)) ->
                  In k (keys g) \/
                  In k (flat_map (passing_id cfg) (entities data))).
  { unfold process_document. rewrite exec_bind.
    destruct (outcome (for_each (entities data)
                         (ingest_entity cfg (doc_id data))) g).
    - unfold keys at 1. rewrite cooccurrence_nodes.
      apply ingest_entities_keys.
    - apply ingest_entities_keys. }
  destruct (outcome (process_document cfg data) g).
  - intros H. apply IH in H. destruct H as [H|H]; [|auto].
    apply Hstep in H. tauto.
  - intros H. apply Hstep in H. tauto.
Qed.

(** X17.  A build invents no node: every node key of the graph it
    leaves behind is the joined key of some record that passed the
    confidence test and had both text and label.  In particular no file,
    or only records below the threshold, leaves the graph empty. *)
Theorem nodes_come_from_passing_records so cfg files k :
  In k (keys (exec (build_from_extractions so cfg files) empty_graph)) ->
  In k (passing_ids cfg files).
Proof.
  rewrite build_exec.
  assert (Hi : In k (keys (exec (ingest cfg files) empty_graph)) ->
               In k (passing_ids cfg files)).
  { intros H. apply ingest_keys in H. destruct H as [[]|H]. exact H. }
  destruct (outcome (ingest cfg files) empty_graph); [|exact Hi].
  unfold exec at 1. rewrite prune_if_needed_run. simpl.
  destruct (_ >? _); [|exact Hi].
  intros H. apply Hi. apply subgraph_keys_in in H. tauto.
Qed.

Lemma nodes_come_from_passing_records_witness :
  In "A_ORG"
     (passing_ids default_config
        [mk_document (Some "doc1")
           [mk_entity (Some "A") (Some "ORG") None;
            mk_entity (Some "B") (Some "ORG") (Some (1 # 10)%Q)]]).
Proof.
  apply (nodes_come_from_passing_records insertion_order).
  vm_compute. auto.
Defined.

(** ** Deduplication of extracted entities and safe file names *)

Section ExtractionProperties.

Variable lower : string -> string.
Variable isalnum : ascii -> bool.
Variable isspace : ascii -> bool.

Lemma dedup_key_ok e :
  has_text_and_label e -> dedup_key lower e = Ok (key_of lower e).
Proof.
  unfold has_text_and_label, dedup_key, key_of. intros [Ht Hl].
  destruct (e_text e); [|congruence]. destruct (e_label e); [|congruence].
  reflexivity.
Qed.

Lemma seen_in (key : string * string) seen :
  existsb (key_eqb key) seen = true <-> In key seen.
Proof.
  rewrite existsb_exists. split.
  - intros (k & Hk & E). destruct (key_eqb_spec key k); [now subst|discriminate].
  - intros H. exists key. split; [exact H|].
    destruct (key_eqb_spec key key); congruence.
Qed.

Lemma dedup_loop_spec es : forall seen unique,
  Forall has_text_and_label es ->
  exists us,
    dedup_loop lower seen unique es = Ok (unique ++ us) /\
    subseq us es /\
    NoDup (map (key_of lower) us) /\
    (forall e, In e us -> ~ In (key_of lower e) seen) /\
    (forall e, In e es ->
       In (key_of lower e) seen \/
       In (key_of lower e) (map (key_of lower) us)) /\
    (forall e, In e us ->
       exists before after,
         es = before ++ e :: after /\
         forall e', In e' before -> key_of lower e' <> key_of lower e).
Proof.
  induction es as [|e es IH]; intros seen unique Hall.
  - exists []. rewrite app_nil_r. simpl.
    split; [reflexivity|]. split; [constructor|]. split; [constructor|].
    split; [tauto|]. split; tauto.
  - inversion Hall as [|? ? He Hes]; subst. simpl.
    rewrite (dedup_key_ok e He).
    destruct (existsb (key_eqb (key_of lower e)) seen) eqn:Hseen.
    + apply seen_in in Hseen.
      destruct (IH seen unique Hes)
        as (us & Hrun & Hsub & Hnd & Hfresh & Hcov & Hfirst).
      exists us. split; [exact Hrun|]. split; [now constructor|].
      split; [exact Hnd|]. split; [exact Hfresh|]. split.
      * intros e' [<-|Hin]; [now left|now apply Hcov].
      * intros e' Hin. destruct (Hfirst e' Hin) as (b & a & -> & Hb).
        exists (e :: b), a. split; [reflexivity|].
        intros e'' [<-|Hin'']; [|now apply Hb].
        intros E. apply (Hfresh e' Hin). now rewrite <- E.
    + assert (Hnew : ~ In (key_of lower e) seen).
      { intros H. apply seen_in in H. congruence. }
      destruct (IH (key_of lower e :: seen) (unique ++ [e]) Hes)
        as (us & Hrun & Hsub & Hnd & Hfresh & Hcov & Hfirst).
      exists (e :: us). rewrite Hrun, <- app_assoc. simpl.
      split; [reflexivity|]. split; [now constructor|]. split.
      { constructor; [|exact Hnd]. intros Hin.
        apply in_map_iff in Hin. destruct Hin as (e' & E & Hin).
        apply (Hfresh e' Hin). left. now symmetry. }
      split.
      { intros e' [<-|Hin]; [exact Hnew|].
        intros H. apply (Hfresh e' Hin). now right. }
      split.
      { intros e' [<-|Hin]; [right; now left|].
        destruct (Hcov e' Hin) as [[E|H]|H]; [|now left|right; now right].
        right. left. exact E. }
      intros e' [<-|Hin].
      * exists [], es. split; [reflexivity|]. intros e' [].
      * destruct (Hfirst e' Hin) as (b & a & -> & Hb).
        exists (e :: b), a. split; [reflexivity|].
        intros e'' [<-|Hin'']; [|now apply Hb].
        intros E. apply (Hfresh e' Hin). left. exact E.
Qed.

Lemma dedup_loop_raises es : forall seen unique,
  Exists (fun e => ~ has_text_and_label e) es ->
  exists k, dedup_loop lower seen unique es = Raise (KeyError k).
Proof.
  induction es as [|e es IH]; intros seen unique Hex; [inversion Hex|].
  simpl. unfold dedup_key.
  destruct (e_text e) as [t|] eqn:Ht; [|eexists; reflexivity].
  destruct (e_label e) as [l|] eqn:Hl; [|eexists; reflexivity].
  assert (Hes : Exists (fun e => ~ has_text_and_label e) es).
  { inversion Hex as [? ? Hbad|]; subst; [|assumption].
    exfalso. apply Hbad. unfold has_text_and_label.
    rewrite Ht, Hl. split; discriminate. }
  cbv beta iota.
  destruct (existsb (key_eqb (lower t, l)) seen); now apply IH.
Qed.

(** X18.  [_deduplicate_entities] keeps, for every (lower-cased text,
    label) key, the first record that has it and nothing else: the
    result is the input with entries left out and the order kept, no two
    results share a key, every key of the input is still there, and no
    record before a kept one has its key.  A record lacking text or
    label makes the whole call raise [KeyError]. *)
Theorem deduplicate_keeps_first es :
  (Forall has_text_and_label es ->
   exists us,
     _deduplicate_entities lower es = Ok us /\
     subseq us es /\
     NoDup (map (key_of lower) us) /\
     (forall e, In e es -> In (key_of lower e) (map (key_of lower) us)) /\
     (forall e, In e us ->
        exists before after,
          es = before ++ e :: after /\
          forall e', In e' before -> key_of lower e' <> key_of lower e)) /\
  (Exists (fun e => ~ has_text_and_label e) es ->
   exists k, _deduplicate_entities lower es = Raise (KeyError k)).
Proof.
  split.
  - intros Hall.
    destruct (dedup_loop_spec es [] [] Hall)
      as (us & Hrun & Hsub & Hnd & _ & Hcov & Hfirst).
    exists us. split; [exact Hrun|]. split; [exact Hsub|].
    split; [exact Hnd|]. split; [|exact Hfirst].
    intros e He. destruct (Hcov e He) as [[]|H]. exact H.
  - apply dedup_loop_raises.
Qed.

Lemma chars_filter f s c :
  In c (chars (string_filter f s)) -> f c = true.
Proof.
  induction s as [|a s IH]; simpl; [tauto|].
  destruct (f a) eqn:E; simpl; [|exact IH].
  intros [<-|H]; [exact E|now apply IH].
Qed.

Lemma chars_rstrip s c :
  In c (chars (rstrip isspace s)) -> In c (chars s).
Proof.
  induction s as [|a s IH]; simpl; [tauto|].
  destruct (rstrip isspace s) as [|b r] eqn:E.
  - destruct (isspace a); simpl; tauto.
  - simpl. intros [<-|H]; [now left|]. right. apply IH. exact H.
Qed.

Lemma chars_replace_space s c :
  In c (chars (replace_space s)) ->
  c <> " "%char /\ (c = "_"%char \/ In c (chars s)).
Proof.
  induction s as [|a s IH]; simpl; [tauto|].
  intros [<-|H].
  - destruct (Ascii.eqb_spec a " "%char) as [->|Hne].
    + split; [discriminate|now left].
    + split; [exact Hne|right; now left].
  - destruct (IH H) as [H1 [H2|H2]]; auto.
Qed.

Lemma chars_substring n : forall s c,
  In c (chars (substring 0 n s)) -> In c (chars s).
Proof.
  induction n as [|n IH]; intros [|a s] c; simpl; try tauto.
  intros [<-|H]; [now left|]. right. now apply IH.
Qed.

Lemma length_substring n : forall s,
  (String.length (substring 0 n s) <= n)%nat.
Proof.
  induction n as [|n IH]; intros [|a s]; simpl; try lia.
  specialize (IH s). lia.
Qed.

(** X19.  The file-name stem computed from a document name has at most
    100 characters, contains no space, and consists only of
    alphanumeric characters, hyphens and underscores. *)
Theorem safe_id_is_safe doc :
  (String.length (safe_id isalnum isspace doc) <= 100)%nat /\
  forall c,
    In c (chars (safe_id isalnum isspace doc)) ->
    c <> " "%char /\
    (isalnum c = true \/ c = "-"%char \/ c = "_"%char).
Proof.
  unfold safe_id. split; [apply length_substring|].
  intros c Hc. apply chars_substring in Hc.
  apply chars_replace_space in Hc. destruct Hc as [Hsp [->|Hc]]; [auto|].
  split; [exact Hsp|].
  apply chars_rstrip, chars_filter in Hc. unfold keep_char in Hc.
  apply orb_prop in Hc. destruct Hc as [Hc|Hc]; [|right; right].
  - apply orb_prop in Hc. destruct Hc as [Hc|Hc]; [|right; left].
    + apply orb_prop in Hc. destruct Hc as [Hc|Hc]; [now left|].
      destruct (Ascii.eqb_spec c " "%char); [contradiction|discriminate].
    + now destruct (Ascii.eqb_spec c "-"%char).
  - now destruct (Ascii.eqb_spec c "_"%char).
Qed.

End ExtractionProperties.

Lemma deduplicate_keeps_first_witness :
  exists us,
    _deduplicate_entities (fun s => s)
      [mk_entity (Some "Ada") (Some "PERSON") None;
       mk_entity (Some "Ada") (Some "PERSON") (Some (1 # 2)%Q);
       mk_entity (Some "Ada") (Some "ORG") None] = Ok us /\
    NoDup (map (key_of (fun s => s)) us).
Proof.
  destruct (proj1 (deduplicate_keeps_first (fun s => s)
              [mk_entity (Some "Ada") (Some "PERSON") None;
               mk_entity (Some "Ada") (Some "PERSON") (Some (1 # 2)%Q);
               mk_entity (Some "Ada") (Some "ORG") None]))
    as (us & Hrun & _ & Hnd & _).
  - repeat constructor; discriminate.
  - exists us. split; [exact Hrun|exact Hnd].
Defined.

(** ** Occurrence counts *)

Lemma count_of_same g1 g2 k :
  nodes g1 = nodes g2 -> count_of g1 k = count_of g2 k.
Proof. unfold count_of. now intros ->. Qed.

Lemma add_entity_count e d g k :
  outcome (add_entity e d) g = Ok tt ->
  count_of (exec (add_entity e d) g) k =
  count_of g k + Z.of_nat (count_occ string_dec (record_id e) k).
Proof.
  unfold outcome, exec, record_id.
  destruct (add_entity_cases e d g)
    as [[k0 ->]|(t & l & Ht & Hl & [[Hn ->]|[Hn ->]])]; simpl;
    [discriminate| |]; intros _; rewrite Ht, Hl; unfold count_of; simpl.
  - rewrite lookup_node_app.
    unfold has_node in Hn.
    destruct (string_dec (node_id_of t l) k) as [<-|Hne].
    + destruct (lookup_node (nodes g) (node_id_of t l)); [discriminate|].
      simpl. rewrite String.eqb_refl. reflexivity.
    + destruct (lookup_node (nodes g) k); [lia|].
      simpl. destruct (String.eqb_spec (node_id_of t l) k); [congruence|lia].
  - apply has_node_lookup in Hn. destruct Hn as [nd Hnd].
    destruct (string_dec (node_id_of t l) k) as [<-|Hne].
    + rewrite (lookup_update_node_same _ _ _ _ Hnd), Hnd. simpl. lia.
    + rewrite lookup_update_node_other by congruence.
      destruct (lookup_node (nodes g) k); lia.
Qed.

Lemma ingest_entities_count cfg d k es : forall g,
  outcome (for_each es (ingest_entity cfg d)) g = Ok tt ->
  count_of (exec (for_each es (ingest_entity cfg d)) g) k =
  count_of g k +
  Z.of_nat (count_occ string_dec (flat_map (passing_id cfg) es) k).
Proof.
  induction es as [|e es IH]; intros g Hok.
  - simpl. unfold exec, ret; simpl. lia.
  - simpl for_each in *. rewrite outcome_bind in Hok. rewrite exec_bind.
    destruct (outcome (ingest_entity cfg d e) g) as [[]|ex] eqn:Ho;
      [|discriminate].
    rewrite (IH _ Hok). simpl flat_map. rewrite count_occ_app.
    assert (Hstep : count_of (exec (ingest_entity cfg d e) g) k =
                    count_of g k +
                    Z.of_nat (count_occ string_dec (passing_id cfg e) k)).
    { unfold ingest_entity, passing_id in *.
      destruct (passes cfg e).
      - rewrite (add_entity_count _ _ _ _ Ho). unfold record_id.
        destruct (e_text e); [destruct (e_label e)|]; reflexivity.
      - unfold exec, ret; simpl. lia. }
    rewrite Hstep. lia.
Qed.

Lemma ingest_count cfg k files : forall g,
  outcome (ingest cfg files) g = Ok tt ->
  count_of (exec (ingest cfg files) g) k =
  count_of g k + Z.of_nat (count_occ string_dec (passing_ids cfg files) k).
Proof.
  unfold ingest, passing_ids.
  induction files as [|data files IH]; intros g Hok.
  - simpl. unfold exec, ret; simpl. lia.
  - simpl for_each in *. rewrite outcome_bind in Hok. rewrite exec_bind.
    destruct (outcome (process_document cfg data) g) as [[]|ex] eqn:Ho;
      [|discriminate].
    rewrite (IH _ Hok). simpl flat_map. rewrite count_occ_app.
    assert (Hstep : count_of (exec (process_document cfg data) g) k =
                    count_of g k +
                    Z.of_nat (count_occ string_dec
                                (flat_map (passing_id cfg) (entities data)) k)).
    { unfold process_document in *. rewrite outcome_bind in Ho.
      rewrite exec_bind.
      destruct (outcome (for_each (entities data)
                           (ingest_entity cfg (doc_id data))) g)
        as [[]|ex] eqn:Ho1; [|discriminate].
      rewrite (count_of_same _ _ k (cooccurrence_nodes _ _ _ _)).
      now apply ingest_entities_count. }
    rewrite Hstep. lia.
Qed.

(** X20.  The count of a node is the number of times its key occurred.
    After a build that completes, every node of the resulting graph has
    as count the number of records, over all files and in all documents,
    that pass the confidence test and join to that node's key. *)
Theorem count_is_number_of_occurrences so cfg files k nd :
  outcome (ingest cfg files) empty_graph = Ok tt ->
  lookup_node
    (nodes (exec (build_from_extractions so cfg files) empty_graph)) k = Some nd ->
  count nd = Z.of_nat (count_occ string_dec (passing_ids cfg files) k).
Proof.
  intros Hok Hlk.
  pose proof (ingest_count cfg k files empty_graph Hok) as Hc.
  unfold count_of at 2 in Hc. simpl in Hc.
  assert (Hi : lookup_node (nodes (exec (ingest cfg files) empty_graph)) k
               = Some nd).
  { rewrite build_exec, Hok in Hlk. unfold exec at 1 in Hlk.
    rewrite prune_if_needed_run in Hlk. cbv beta iota delta [snd] in Hlk.
    destruct (_ >? _); [|exact Hlk].
    rewrite lookup_node_subgraph in Hlk.
    destruct (mem k _); [exact Hlk|discriminate]. }
  unfold count_of in Hc. rewrite Hi in Hc. exact Hc.
Qed.

Lemma count_is_number_of_occurrences_witness :
  let files :=
    [mk_document (Some "doc1")
       [mk_entity (Some "A") (Some "ORG") None;
        mk_entity (Some "B") (Some "ORG") None;
        mk_entity (Some "A") (Some "ORG") (Some (1 # 2)%Q)];
     mk_document (Some "doc2")
       [mk_entity (Some "A") (Some "ORG") None;
        mk_entity (Some "A") (Some "ORG") (Some (1 # 10)%Q)]] in
  exists nd,
    lookup_node
      (nodes (exec (build_from_extractions insertion_order default_config
                      files) empty_graph))
      "A_ORG" = Some nd /\
    count nd = 3.
Proof.
  intros files. eexists. split; [vm_compute; reflexivity|].
  refine (count_is_number_of_occurrences insertion_order default_config
            files "A_ORG" _ _ _).
  - reflexivity.
  - vm_compute. reflexivity.
Defined.
